(** * Headless Markets: quorum governance, token launch and the curve market

    A shallow embedding of the two Solidity contracts of the repository,
    [AgentQuorum] and [BondingCurveFactory], as state-passing functions in an
    error monad, followed by the properties of the proposal state machine,
    of voting, of execution and of the token launch. The contract of the
    curve market itself is not among the sources; its part of the
    development rests on the [markets] table of the database schema and on
    the specification.

    Solidity values are modelled as follows.
    - [uint256] and [address] are [N]; arithmetic is checked as in Solidity
      0.8: an overflowing [+] or [++] aborts the call with [Panic 0x11].
    - [mapping(K => V)] is a [gmap N V] read through [m @ k], which gives
      the zero value of [V] for a key that was never written.
    - a dynamic array is a [list].
    - [require(c, msg)] aborts the call with [Revert msg]; an aborted call
      leaves the storage of every contract as it was.
    - events are not part of the storage and are left out. *)

From stdpp Require Import gmap strings list.
From Stdlib Require Import NArith Lia.

Open Scope N_scope.

(** ** Results of a call *)

Inductive result (A : Type) : Type :=
| Ok (a : A)
| Revert (msg : string)
| Panic (code : N).

Arguments Ok {A} a.
Arguments Revert {A} msg.
Arguments Panic {A} code.

#[global] Instance result_ret : MRet result := fun _ a => Ok a.

#[global] Instance result_bind : MBind result := fun _ _ f m =>
  match m with
  | Ok a => f a
  | Revert msg => Revert msg
  | Panic code => Panic code
  end.

#[global] Instance result_fmap : FMap result := fun _ _ f m =>
  match m with
  | Ok a => Ok (f a)
  | Revert msg => Revert msg
  | Panic code => Panic code
  end.

Definition require (c : bool) (msg : string) : result unit :=
  if c then Ok () else Revert msg.

Definition succeeds {A} (r : result A) : Prop := ∃ a, r = Ok a.

(** ** Machine integers *)

Abbreviation address := N (only parsing).
Abbreviation uint256 := N (only parsing).

Definition UINT256_MAX : N := 2 ^ 256 - 1.

(** Checked addition of Solidity 0.8. *)
Definition add256 (a b : N) : result N :=
  if a + b <=? UINT256_MAX then Ok (a + b) else Panic 17.

(** ** Mappings with zero default *)

Class Zero (V : Type) := zero : V.
#[global] Instance bool_zero : Zero bool := false.
#[global] Instance N_zero : Zero N := 0.

Definition rd {V} `{Zero V} (m : gmap N V) (k : N) : V := default zero (m !! k).
Notation "m @ k" := (rd m k) (at level 20, format "m @ k").

(** The environment of a call: [msg.sender] and [block.timestamp]. *)
Record env := { msg_sender : address; block_timestamp : uint256 }.

(** ** AgentQuorum *)

Inductive ProposalStatus := Active | Passed | Failed | Executed.

#[global] Instance ProposalStatus_eq_dec : EqDecision ProposalStatus.
Proof. solve_decision. Defined.

Record Proposal := {
  proposalId : uint256;
  proposer : address;
  tokenName : string;
  tokenSymbol : string;
  description : string;
  quorumMembers : list address;
  hasVoted : gmap N bool;
  voteChoice : gmap N bool;
  yesVotes : uint256;
  noVotes : uint256;
  createdAt : uint256;
  votingDeadline : uint256;
  status : ProposalStatus
}.

(** A storage slot that was never written: every field is zero, the status
    is the first member of the enum. *)
#[global] Instance Proposal_zero : Zero Proposal := {|
  proposalId := 0; proposer := 0; tokenName := ""; tokenSymbol := "";
  description := ""; quorumMembers := []; hasVoted := ∅; voteChoice := ∅;
  yesVotes := 0; noVotes := 0; createdAt := 0; votingDeadline := 0;
  status := Active |}.

Definition set_status (st : ProposalStatus) (p : Proposal) : Proposal := {|
  proposalId := proposalId p; proposer := proposer p;
  tokenName := tokenName p; tokenSymbol := tokenSymbol p;
  description := description p; quorumMembers := quorumMembers p;
  hasVoted := hasVoted p; voteChoice := voteChoice p;
  yesVotes := yesVotes p; noVotes := noVotes p;
  createdAt := createdAt p; votingDeadline := votingDeadline p;
  status := st |}.

Definition MIN_QUORUM_SIZE : N := 3.
Definition MAX_QUORUM_SIZE : N := 5.
(** [7 days] in seconds. *)
Definition VOTING_PERIOD : N := 604800.

Definition len {A} (l : list A) : N := N.of_nat (length l).

Module AgentQuorum.

Record state := {
  proposals : gmap N Proposal;
  proposalCount : uint256;
  verifiedAgents : gmap N bool;
  agentReputation : gmap N N;
  admin : address;
  bondingCurveFactory : address
}.

Definition set_proposal (id : N) (p : Proposal) (s : state) : state := {|
  proposals := <[id:=p]> (proposals s);
  proposalCount := proposalCount s;
  verifiedAgents := verifiedAgents s;
  agentReputation := agentReputation s;
  admin := admin s;
  bondingCurveFactory := bondingCurveFactory s |}.

Definition set_verifiedAgents (v : gmap N bool) (s : state) : state := {|
  proposals := proposals s;
  proposalCount := proposalCount s;
  verifiedAgents := v;
  agentReputation := agentReputation s;
  admin := admin s;
  bondingCurveFactory := bondingCurveFactory s |}.

Definition set_agentReputation (r : gmap N N) (s : state) : state := {|
  proposals := proposals s;
  proposalCount := proposalCount s;
  verifiedAgents := verifiedAgents s;
  agentReputation := r;
  admin := admin s;
  bondingCurveFactory := bondingCurveFactory s |}.

(** [constructor() { admin = msg.sender; }] *)
Definition constructor (e : env) : state := {|
  proposals := ∅; proposalCount := 0; verifiedAgents := ∅;
  agentReputation := ∅; admin := msg_sender e; bondingCurveFactory := 0 |}.

(** *** Modifiers *)

Definition onlyAdmin (e : env) (s : state) : result unit :=
  require (msg_sender e =? admin s) "Only admin".

Definition onlyVerifiedAgent (e : env) (s : state) : result unit :=
  require (verifiedAgents s @ msg_sender e) "Not verified agent".

Definition proposalExists (id : N) (s : state) : result unit :=
  require (id <? proposalCount s) "Proposal does not exist".

Definition proposalActive (e : env) (id : N) (s : state) : result unit :=
  require (bool_decide (status (proposals s @ id) = Active))
    "Proposal not active";;
  require (block_timestamp e <=? votingDeadline (proposals s @ id))
    "Voting period ended".

(** *** Admin functions *)

Definition setBondingCurveFactory (e : env) (_factory : address) (s : state)
  : result state :=
  onlyAdmin e s;;
  require (negb (_factory =? 0)) "Invalid factory address";;
  Ok {| proposals := proposals s;
        proposalCount := proposalCount s;
        verifiedAgents := verifiedAgents s;
        agentReputation := agentReputation s;
        admin := admin s;
        bondingCurveFactory := _factory |}.

Definition verifyAgent (e : env) (agent : address) (s : state) : result state :=
  onlyAdmin e s;;
  require (negb (verifiedAgents s @ agent)) "Agent already verified";;
  Ok (set_verifiedAgents (<[agent:=true]> (verifiedAgents s)) s).

Definition unverifyAgent (e : env) (agent : address) (s : state) : result state :=
  onlyAdmin e s;;
  require (verifiedAgents s @ agent) "Agent not verified";;
  Ok (set_verifiedAgents (<[agent:=false]> (verifiedAgents s)) s).

(** *** createProposal *)

(** The inner loop [for (j = i + 1; ...)]: member [m] against the rest. *)
Fixpoint check_duplicates (m : address) (rest : list address) : result unit :=
  match rest with
  | [] => Ok ()
  | x :: rest' =>
      require (negb (m =? x)) "Duplicate quorum member";;
      check_duplicates m rest'
  end.

(** The outer loop [for (i = 0; ...)]. *)
Fixpoint check_members (verified : gmap N bool) (l : list address) : result unit :=
  match l with
  | [] => Ok ()
  | m :: rest =>
      require (verified @ m) "Invalid quorum member";;
      check_duplicates m rest;;
      check_members verified rest
  end.

(** The membership loop with [break], shared by [createProposal],
    [castVote] and [isQuorumMember]. *)
Fixpoint in_quorum (a : address) (l : list address) : bool :=
  match l with
  | [] => false
  | x :: rest => if x =? a then true else in_quorum a rest
  end.

Definition createProposal (e : env) (name symbol descr : string)
    (members : list address) (s : state) : result (N * state) :=
  onlyVerifiedAgent e s;;
  require (MIN_QUORUM_SIZE <=? len members) "Quorum too small";;
  require (len members <=? MAX_QUORUM_SIZE) "Quorum too large";;
  check_members (verifiedAgents s) members;;
  require (in_quorum (msg_sender e) members) "Proposer must be in quorum";;
  let id := proposalCount s in
  count' ← add256 (proposalCount s) 1;
  deadline ← add256 (block_timestamp e) VOTING_PERIOD;
  let p := proposals s @ id in
  let p' := {|
    proposalId := id; proposer := msg_sender e;
    tokenName := name; tokenSymbol := symbol; description := descr;
    quorumMembers := members;
    hasVoted := hasVoted p; voteChoice := voteChoice p;
    yesVotes := yesVotes p; noVotes := noVotes p;
    createdAt := block_timestamp e; votingDeadline := deadline;
    status := Active |} in
  Ok (id, {| proposals := <[id:=p']> (proposals s);
             proposalCount := count';
             verifiedAgents := verifiedAgents s;
             agentReputation := agentReputation s;
             admin := admin s;
             bondingCurveFactory := bondingCurveFactory s |}).

(** *** castVote *)

Definition _checkProposalStatus (p : Proposal) : Proposal :=
  if 0 <? noVotes p then set_status Failed p
  else if yesVotes p =? len (quorumMembers p) then set_status Passed p
  else p.

Definition castVote (e : env) (id : N) (vote : bool) (s : state) : result state :=
  proposalExists id s;;
  proposalActive e id s;;
  let p := proposals s @ id in
  require (in_quorum (msg_sender e) (quorumMembers p)) "Not a quorum member";;
  require (negb (hasVoted p @ msg_sender e)) "Already voted";;
  yes' ← (if vote then add256 (yesVotes p) 1 else Ok (yesVotes p));
  no' ← (if vote then Ok (noVotes p) else add256 (noVotes p) 1);
  let p' := {|
    proposalId := proposalId p; proposer := proposer p;
    tokenName := tokenName p; tokenSymbol := tokenSymbol p;
    description := description p; quorumMembers := quorumMembers p;
    hasVoted := <[msg_sender e:=true]> (hasVoted p);
    voteChoice := <[msg_sender e:=vote]> (voteChoice p);
    yesVotes := yes'; noVotes := no';
    createdAt := createdAt p; votingDeadline := votingDeadline p;
    status := status p |} in
  Ok (set_proposal id (_checkProposalStatus p') s).

(** *** finalizeProposal *)

Definition finalizeProposal (e : env) (id : N) (s : state) : result state :=
  proposalExists id s;;
  let p := proposals s @ id in
  require (bool_decide (status p = Active)) "Proposal not active";;
  require (votingDeadline p <? block_timestamp e) "Voting period not ended";;
  if negb (yesVotes p =? len (quorumMembers p))
  then Ok (set_proposal id (set_status Failed p) s)
  else Ok s.

(** *** executeProposal *)

(** [for (i ...) agentReputation[quorumMembers[i]]++]. *)
Fixpoint bump_reputation (l : list address) (r : gmap N N) : result (gmap N N) :=
  match l with
  | [] => Ok r
  | m :: rest =>
      v ← add256 (r @ m) 1;
      bump_reputation rest (<[m:=v]> r)
  end.

Definition executeProposal (e : env) (id : N) (s : state) : result state :=
  require (msg_sender e =? bondingCurveFactory s) "Only factory";;
  let p := proposals s @ id in
  require (bool_decide (status p = Passed)) "Proposal not passed";;
  r' ← bump_reputation (quorumMembers p) (agentReputation s);
  Ok (set_agentReputation r' (set_proposal id (set_status Executed p) s)).

(** *** View functions *)

Definition getProposal (id : N) (s : state) : result Proposal :=
  proposalExists id s;;
  Ok (proposals s @ id).

Definition isQuorumMember (id : N) (agent : address) (s : state) : result bool :=
  proposalExists id s;;
  Ok (in_quorum agent (quorumMembers (proposals s @ id))).

End AgentQuorum.

(** ** BondingCurveFactory *)

Module BondingCurveFactory.

Record state := {
  quorumContract : address;
  platformFeeRecipient : address;
  uniswapV2Router : address;
  proposalToToken : gmap N N;
  allTokens : list address;
  admin : address
}.

Definition constructor (e : env)
    (_quorumContract _platformFeeRecipient _uniswapV2Router : address)
  : result state :=
  require (negb (_quorumContract =? 0)) "Invalid quorum contract";;
  require (negb (_platformFeeRecipient =? 0)) "Invalid fee recipient";;
  require (negb (_uniswapV2Router =? 0)) "Invalid router";;
  Ok {| quorumContract := _quorumContract;
        platformFeeRecipient := _platformFeeRecipient;
        uniswapV2Router := _uniswapV2Router;
        proposalToToken := ∅; allTokens := [];
        admin := msg_sender e |}.

Definition onlyAdmin (e : env) (s : state) : result unit :=
  require (msg_sender e =? admin s) "Only admin".

(** The two storage writes of [launchToken] under the comment
    [// Record token]. *)
Definition record_token (id : N) (token : address) (s : state) : state := {|
  quorumContract := quorumContract s;
  platformFeeRecipient := platformFeeRecipient s;
  uniswapV2Router := uniswapV2Router s;
  proposalToToken := <[id:=token]> (proposalToToken s);
  allTokens := allTokens s ++ [token];
  admin := admin s |}.

Definition updatePlatformFeeRecipient (e : env) (_newRecipient : address)
    (s : state) : result state :=
  onlyAdmin e s;;
  require (negb (_newRecipient =? 0)) "Invalid address";;
  Ok {| quorumContract := quorumContract s;
        platformFeeRecipient := _newRecipient;
        uniswapV2Router := uniswapV2Router s;
        proposalToToken := proposalToToken s;
        allTokens := allTokens s;
        admin := admin s |}.

Definition updateUniswapRouter (e : env) (_newRouter : address)
    (s : state) : result state :=
  onlyAdmin e s;;
  require (negb (_newRouter =? 0)) "Invalid address";;
  Ok {| quorumContract := quorumContract s;
        platformFeeRecipient := platformFeeRecipient s;
        uniswapV2Router := _newRouter;
        proposalToToken := proposalToToken s;
        allTokens := allTokens s;
        admin := admin s |}.

Definition getTokenByProposal (id : N) (s : state) : address :=
  proposalToToken s @ id.

Definition getTokenCount (s : state) : N := len (allTokens s).

End BondingCurveFactory.

(** ** The two contracts together

    The ledger holds one [AgentQuorum] and the [BondingCurveFactory] that
    was constructed with its address; [factoryAddress] is the address the
    factory itself is deployed at, which is the [msg.sender] the quorum
    contract sees when the factory calls it. *)

Record world := {
  quorum : AgentQuorum.state;
  factory : BondingCurveFactory.state;
  factoryAddress : address
}.

Definition with_quorum (q : AgentQuorum.state) (w : world) : world :=
  {| quorum := q; factory := factory w; factoryAddress := factoryAddress w |}.

Definition with_factory (f : BondingCurveFactory.state) (w : world) : world :=
  {| quorum := quorum w; factory := f; factoryAddress := factoryAddress w |}.

(** [launchToken]. The contract [BondingCurveToken] is not among the
    sources: [token] stands for the address that [new BondingCurveToken(...)]
    returns. The call of [quorumContract.executeProposal] is made by the
    factory, so its [msg.sender] is [factoryAddress]; when it reverts the whole
    of [launchToken] reverts. *)
Definition launchToken (e : env) (id : N) (token : address) (w : world)
  : result (address * world) :=
  p ← AgentQuorum.getProposal id (quorum w);
  require (bool_decide (status p = Passed)) "Proposal not passed";;
  require (BondingCurveFactory.proposalToToken (factory w) @ id =? 0)
    "Already launched";;
  let f' := BondingCurveFactory.record_token id token (factory w) in
  q' ← AgentQuorum.executeProposal
         {| msg_sender := factoryAddress w;
            block_timestamp := block_timestamp e |} id (quorum w);
  Ok (token, {| quorum := q'; factory := f';
                factoryAddress := factoryAddress w |}).

(** The external functions that change storage. *)
Inductive call :=
| SetBondingCurveFactory (_factory : address)
| VerifyAgent (agent : address)
| UnverifyAgent (agent : address)
| CreateProposal (name symbol descr : string) (members : list address)
| CastVote (id : N) (vote : bool)
| FinalizeProposal (id : N)
| ExecuteProposal (id : N)
| LaunchToken (id : N) (token : address)
| UpdatePlatformFeeRecipient (_newRecipient : address)
| UpdateUniswapRouter (_newRouter : address).

Definition on_quorum (r : result AgentQuorum.state) (w : world) : result world :=
  q ← r; Ok (with_quorum q w).

Definition on_factory (r : result BondingCurveFactory.state) (w : world)
  : result world :=
  f ← r; Ok (with_factory f w).

Definition exec (e : env) (c : call) (w : world) : result world :=
  match c with
  | SetBondingCurveFactory f =>
      on_quorum (AgentQuorum.setBondingCurveFactory e f (quorum w)) w
  | VerifyAgent a => on_quorum (AgentQuorum.verifyAgent e a (quorum w)) w
  | UnverifyAgent a => on_quorum (AgentQuorum.unverifyAgent e a (quorum w)) w
  | CreateProposal n sy d ms =>
      on_quorum (snd <$> AgentQuorum.createProposal e n sy d ms (quorum w)) w
  | CastVote id v => on_quorum (AgentQuorum.castVote e id v (quorum w)) w
  | FinalizeProposal id =>
      on_quorum (AgentQuorum.finalizeProposal e id (quorum w)) w
  | ExecuteProposal id =>
      on_quorum (AgentQuorum.executeProposal e id (quorum w)) w
  | LaunchToken id token => snd <$> launchToken e id token w
  | UpdatePlatformFeeRecipient a =>
      on_factory (BondingCurveFactory.updatePlatformFeeRecipient e a (factory w)) w
  | UpdateUniswapRouter a =>
      on_factory (BondingCurveFactory.updateUniswapRouter e a (factory w)) w
  end.

(** A transaction: the storage after a call that aborts is the storage
    before it. *)
Definition transact (e : env) (c : call) (w : world) : world :=
  match exec e c w with
  | Ok w' => w'
  | _ => w
  end.

(** Deployment, in the order of the deployment script: the quorum contract
    first, then the factory with the quorum contract's address. [eQ] and
    [eF] are the environments of the two constructor calls and
    [factoryAddr] the address the factory is created at. *)
Definition deploy (eQ eF : env) (quorumAddr factoryAddr feeRecipient router : address)
  : result world :=
  f ← BondingCurveFactory.constructor eF quorumAddr feeRecipient router;
  Ok {| quorum := AgentQuorum.constructor eQ; factory := f;
        factoryAddress := factoryAddr |}.

(** The ledgers that can be reached: deployment (a contract is never created
    at the zero address), then successful calls. *)
Inductive reachable : world → Prop :=
| reachable_deploy eQ eF qa fa fee router w :
    fa ≠ 0 → deploy eQ eF qa fa fee router = Ok w → reachable w
| reachable_step e c w w' :
    reachable w → exec e c w = Ok w' → reachable w'.

(** Zero or more successful calls. *)
Inductive steps : world → world → Prop :=
| steps_refl w : steps w w
| steps_cons e c w w' w'' : exec e c w = Ok w' → steps w' w'' → steps w w''.

Definition status_of (w : world) (id : N) : ProposalStatus :=
  status (AgentQuorum.proposals (quorum w) @ id).

(** ** Well-formed proposals

    What the votes recorded in a proposal say: the two counters count the
    members whose recorded vote is yes, respectively no. *)

Definition voted_as (p : Proposal) (choice : bool) (a : address) : Prop :=
  hasVoted p @ a = true ∧ voteChoice p @ a = choice.

#[global] Instance voted_as_dec p choice a : Decision (voted_as p choice a).
Proof. unfold voted_as. apply _. Defined.

Definition tally (p : Proposal) (choice : bool) : N :=
  len (filter (voted_as p choice) (quorumMembers p)).

Definition status_fits (p : Proposal) : Prop :=
  match status p with
  | Active => noVotes p = 0 ∧ yesVotes p < len (quorumMembers p)
  | Passed | Executed => noVotes p = 0 ∧ yesVotes p = len (quorumMembers p)
  | Failed => yesVotes p < len (quorumMembers p)
  end.

Record wf_proposal (p : Proposal) : Prop := {
  wf_nodup : NoDup (quorumMembers p);
  wf_min : MIN_QUORUM_SIZE ≤ len (quorumMembers p);
  wf_max : len (quorumMembers p) ≤ MAX_QUORUM_SIZE;
  wf_yes : yesVotes p = tally p true;
  wf_no : noVotes p = tally p false;
  wf_status : status_fits p
}.

Record wf_quorum (q : AgentQuorum.state) : Prop := {
  wf_count : AgentQuorum.proposalCount q ≤ UINT256_MAX;
  wf_allocated : ∀ id, id < AgentQuorum.proposalCount q →
                       wf_proposal (AgentQuorum.proposals q @ id);
  wf_free : ∀ id, AgentQuorum.proposalCount q ≤ id →
                  AgentQuorum.proposals q !! id = None
}.

(** One successful state-changing call of the quorum contract. *)
Inductive qstep (q q' : AgentQuorum.state) : Prop :=
| qstep_setFactory e f :
    AgentQuorum.setBondingCurveFactory e f q = Ok q' → qstep q q'
| qstep_verify e a : AgentQuorum.verifyAgent e a q = Ok q' → qstep q q'
| qstep_unverify e a : AgentQuorum.unverifyAgent e a q = Ok q' → qstep q q'
| qstep_create e n sy d ms id :
    AgentQuorum.createProposal e n sy d ms q = Ok (id, q') → qstep q q'
| qstep_vote e id v : AgentQuorum.castVote e id v q = Ok q' → qstep q q'
| qstep_finalize e id : AgentQuorum.finalizeProposal e id q = Ok q' → qstep q q'
| qstep_execute e id : AgentQuorum.executeProposal e id q = Ok q' → qstep q q'.

(** The edges of the proposal state machine. *)
Inductive edge : ProposalStatus → ProposalStatus → Prop :=
| edge_pass : edge Active Passed
| edge_fail : edge Active Failed
| edge_execute : edge Passed Executed.

(** The proposal as [castVote] leaves it before [_checkProposalStatus]. *)
Definition record_vote (a : address) (vote : bool) (p : Proposal) : Proposal := {|
  proposalId := proposalId p; proposer := proposer p;
  tokenName := tokenName p; tokenSymbol := tokenSymbol p;
  description := description p; quorumMembers := quorumMembers p;
  hasVoted := <[a:=true]> (hasVoted p);
  voteChoice := <[a:=vote]> (voteChoice p);
  yesVotes := if vote then yesVotes p + 1 else yesVotes p;
  noVotes := if vote then noVotes p else noVotes p + 1;
  createdAt := createdAt p; votingDeadline := votingDeadline p;
  status := status p |}.

Definition qstatus (q : AgentQuorum.state) (id : N) : ProposalStatus :=
  status (AgentQuorum.proposals q @ id).

(** The order that the edges generate: [Active] below everything,
    [Passed] below [Executed]. *)
Definition status_le (a b : ProposalStatus) : Prop :=
  a = b ∨ a = Active ∨ (a = Passed ∧ b = Executed).

(** A run of transactions, in order. *)
Definition run (txs : list (env * call)) (w : world) : world :=
  fold_left (λ w tx, transact tx.1 tx.2 w) txs w.

(** ** A concrete ledger

    The deployer is the admin of both contracts. Three agents are verified,
    one of them files a proposal naming the three, and all three approve. *)

Module Scenario.

Definition deployer : address := 1.
Definition agentA : address := 10.
Definition agentB : address := 11.
Definition agentC : address := 12.
Definition outsider : address := 77.
Definition quorumAddr : address := 100.
Definition factoryAddr : address := 200.
Definition router : address := 300.
Definition tokenAddr : address := 500.

Definition by_ (a : address) (t : N) : env :=
  {| msg_sender := a; block_timestamp := t |}.

Definition genesis : world := {|
  quorum := AgentQuorum.constructor (by_ deployer 0);
  factory := {| BondingCurveFactory.quorumContract := quorumAddr;
                BondingCurveFactory.platformFeeRecipient := deployer;
                BondingCurveFactory.uniswapV2Router := router;
                BondingCurveFactory.proposalToToken := ∅;
                BondingCurveFactory.allTokens := [];
                BondingCurveFactory.admin := deployer |};
  factoryAddress := factoryAddr |}.

Definition verified : world :=
  run [(by_ deployer 10, VerifyAgent agentA);
       (by_ deployer 11, VerifyAgent agentB);
       (by_ deployer 12, VerifyAgent agentC)] genesis.

Definition proposed : world :=
  run [(by_ agentA 1000,
        CreateProposal "Token" "TKN" "three agents" [agentA; agentB; agentC])]
    verified.

Definition two_yes : world :=
  run [(by_ agentB 2000, CastVote 0 true);
       (by_ agentC 2001, CastVote 0 true)] proposed.

Definition passed : world :=
  run [(by_ agentA 2002, CastVote 0 true)] two_yes.

Definition linked : world :=
  run [(by_ deployer 3000, SetBondingCurveFactory factoryAddr)] passed.

Definition launched : world :=
  run [(by_ outsider 4000, LaunchToken 0 tokenAddr)] linked.

End Scenario.

(** The messages with which [createProposal] rejects its arguments. *)
Definition createProposal_errors : list string :=
  ["Not verified agent"; "Quorum too small"; "Quorum too large";
   "Invalid quorum member"; "Duplicate quorum member";
   "Proposer must be in quorum"].

Definition createProposal_valid (e : env) (ms : list address)
    (q : AgentQuorum.state) : Prop :=
  AgentQuorum.verifiedAgents q @ msg_sender e = true ∧
  3 ≤ len ms ∧ len ms ≤ 5 ∧
  NoDup ms ∧
  (∀ m, m ∈ ms → AgentQuorum.verifiedAgents q @ m = true) ∧
  msg_sender e ∈ ms.

(** The ids below [n], in order. *)
Definition ids (n : N) : list N := N.of_nat <$> seq 0 (N.to_nat n).

(** The proposals that were executed. *)
Definition executed (q : AgentQuorum.state) : list N :=
  filter (λ id, qstatus q id = Executed) (ids (AgentQuorum.proposalCount q)).

(** No agent has more reputation than there are executed proposals. *)
Definition reputation_bounded (q : AgentQuorum.state) : Prop :=
  ∀ a, AgentQuorum.agentReputation q @ a ≤ len (executed q).

(** ** The curve market

    The contract [BondingCurveToken] of [BondingCurve.sol] is not among the
    sources; what the sources have of a market is the [markets] and [trades]
    tables of [db/schema.sql], whose fee columns and check are embedded in
    [Schema]. The market of this module, its fee configuration and its
    operations are modelled from the specification. *)

Module CurveMarket.

(** Modelled from the spec: the fee split of a market, section 3: "fee
    split {platformBps, liquidityBps, agentBps} summing to 10000", in
    basis points. *)
Record FeeConfig := {
  platformBps : N;
  liquidityBps : N;
  agentBps : N
}.

(** Modelled from the spec: "30%/60%/10% by default" (section 4.3). *)
Definition default_fees : FeeConfig :=
  {| platformBps := 3000; liquidityBps := 6000; agentBps := 1000 |}.

(** Modelled from the spec: "summing to 10000" (section 3). *)
Definition sums_to_10000 (c : FeeConfig) : bool :=
  platformBps c + liquidityBps c + agentBps c =? 10000.

Definition total_bps (c : FeeConfig) : N :=
  platformBps c + liquidityBps c + agentBps c.

(** Modelled from the spec: the trade record of section 3, "append-only
    log entry per buy/sell: amounts, fee breakdown, resulting supply";
    [fee_base] is the amount that was split. *)
Record Trade := {
  is_buy : bool;
  trader : address;
  token_amount : N;
  eth_amount : N;
  fee_base : N;
  platform_fee : N;
  liquidity_fee : N;
  agent_fee : N;
  supply_after : N
}.

(** Modelled from the spec: the market of section 3, with the token
    balances that [sell] checks and the flag that the migration sets. *)
Record Market := {
  totalSupplyCap : N;
  currentSupply : N;
  ethRaised : N;
  fees : FeeConfig;
  graduated : bool;
  graduationThreshold : N;
  platformLedger : N;
  liquidityLedger : N;
  agentLedger : N;
  balances : gmap N N;
  trades : list Trade;
  migrated : bool;
  orchestrator : address
}.

(** Modelled from the spec: one share of an amount, for a number of
    basis points. Section 4.3: "all monetary and supply quantities are
    integer", with multiplication before division: the amount times the
    basis points, divided by 10000, the division truncating. *)
Definition share (base bps : N) : N := base * bps / 10000.

(** Modelled from the spec: the fee split of [buy] and [sell], absent with
    [BondingCurve.sol]. Section 4.3: "Splits ethAmount into
    platform/liquidity/agent shares by the fixed basis-point
    configuration": each share is computed from its own basis points. The
    result is (platform, liquidity, agent). *)
Definition split_fees (c : FeeConfig) (base : N) : N * N * N :=
  (share base (platformBps c), share base (liquidityBps c),
   share base (agentBps c)).

(** A share of an amount under any rounding: the exact proportional part
    [base * bps / 10000], rounded down or rounded up. The specification
    does not say which way a share is rounded. *)
Definition rounded_share (base bps x : N) : Prop :=
  base * bps < (x + 1) * 10000 ∧ x * 10000 < base * bps + 10000.

Section curve.
(** The price integral of the linear curve and its inverse, and the part
    of the gross proceeds of a sale that is taken as fee: the
    specification names them without giving their formulas. *)
Variable tokensFor : Market → N → N.
Variable refundFor : Market → N → N.
Variable feePortion : N → N.

(** Modelled from the spec: creation of a market by the orchestrator
    (section 3: "fee split summing to 10000", "created exactly once by
    the Orchestrator"). *)
Definition create (e : env) (c : FeeConfig) (cap threshold : N)
  : result Market :=
  require (sums_to_10000 c) "InvalidFeeSplit";;
  Ok {| totalSupplyCap := cap; currentSupply := 0; ethRaised := 0;
        fees := c; graduated := false; graduationThreshold := threshold;
        platformLedger := 0; liquidityLedger := 0; agentLedger := 0;
        balances := ∅; trades := []; migrated := false;
        orchestrator := msg_sender e |}.

(** Modelled from the spec: [buy(ethAmount)] of section 4.3. A
    graduated market rejects with MarketClosed (section 8: after
    graduation "buy/sell calls fail with MarketClosed"); the amount must
    be positive; the tokens must fit under the cap (SupplyExceeded); the
    amount is split and each ledger credited, the tokens minted, supply
    and [ethRaised] updated, the trade appended; then "checks ethRaised
    >= graduationThreshold; if crossed, sets graduated = true". *)
Definition buy (e : env) (ethAmount : N) (m : Market) : result Market :=
  require (negb (graduated m)) "MarketClosed";;
  require (0 <? ethAmount) "ZeroAmount";;
  let tokens := tokensFor m ethAmount in
  require (currentSupply m + tokens <=? totalSupplyCap m) "SupplyExceeded";;
  let '(pf, lf, af) := split_fees (fees m) ethAmount in
  let raised := ethRaised m + ethAmount in
  Ok {| totalSupplyCap := totalSupplyCap m;
        currentSupply := currentSupply m + tokens;
        ethRaised := raised;
        fees := fees m;
        graduated := if graduationThreshold m <=? raised then true
                     else graduated m;
        graduationThreshold := graduationThreshold m;
        platformLedger := platformLedger m + pf;
        liquidityLedger := liquidityLedger m + lf;
        agentLedger := agentLedger m + af;
        balances := <[msg_sender e := balances m @ msg_sender e + tokens]>
                      (balances m);
        trades := trades m ++
          [{| is_buy := true; trader := msg_sender e;
              token_amount := tokens; eth_amount := ethAmount;
              fee_base := ethAmount;
              platform_fee := pf; liquidity_fee := lf; agent_fee := af;
              supply_after := currentSupply m + tokens |}];
        migrated := migrated m;
        orchestrator := orchestrator m |}.

(** Modelled from the spec: [sell(tokenAmount)] of section 4.3. A
    graduated market rejects with MarketClosed; the caller must hold the
    tokens; the refund must not exceed what was raised
    (InsufficientRaisedBalance); the fee split applies "to the refund's
    fee portion", the tokens are burned, the supply decremented, the
    trade appended. *)
Definition sell (e : env) (tokenAmount : N) (m : Market) : result Market :=
  require (negb (graduated m)) "MarketClosed";;
  require (0 <? tokenAmount) "ZeroAmount";;
  require (tokenAmount <=? balances m @ msg_sender e) "InsufficientBalance";;
  require (tokenAmount <=? currentSupply m) "InsufficientBalance";;
  let gross := refundFor m tokenAmount in
  require (gross <=? ethRaised m) "InsufficientRaisedBalance";;
  let fee := N.min (feePortion gross) gross in
  let '(pf, lf, af) := split_fees (fees m) fee in
  Ok {| totalSupplyCap := totalSupplyCap m;
        currentSupply := currentSupply m - tokenAmount;
        ethRaised := ethRaised m - gross;
        fees := fees m;
        graduated := graduated m;
        graduationThreshold := graduationThreshold m;
        platformLedger := platformLedger m + pf;
        liquidityLedger := liquidityLedger m + lf;
        agentLedger := agentLedger m + af;
        balances := <[msg_sender e := balances m @ msg_sender e - tokenAmount]>
                      (balances m);
        trades := trades m ++
          [{| is_buy := false; trader := msg_sender e;
              token_amount := tokenAmount; eth_amount := gross;
              fee_base := fee;
              platform_fee := pf; liquidity_fee := lf; agent_fee := af;
              supply_after := currentSupply m - tokenAmount |}];
        migrated := migrated m;
        orchestrator := orchestrator m |}.

(** Modelled from the spec: the graduation migration of section 4.4, "an
    authorized migration call moves the accumulated liquidity-share
    balance ... into an external liquidity venue"; "invoking it again on
    an already-migrated Market is a no-op success, not an error". *)
Definition migrate (e : env) (m : Market) : result Market :=
  require (msg_sender e =? orchestrator m) "Unauthorized";;
  if migrated m then Ok m
  else
    require (graduated m) "NotGraduated";;
    Ok {| totalSupplyCap := totalSupplyCap m;
          currentSupply := currentSupply m;
          ethRaised := ethRaised m;
          fees := fees m;
          graduated := graduated m;
          graduationThreshold := graduationThreshold m;
          platformLedger := platformLedger m;
          liquidityLedger := 0;
          agentLedger := agentLedger m;
          balances := balances m;
          trades := trades m;
          migrated := true;
          orchestrator := orchestrator m |}.

Inductive op :=
| Buy (ethAmount : N)
| Sell (tokenAmount : N)
| Migrate.

Definition exec_op (e : env) (o : op) (m : Market) : result Market :=
  match o with
  | Buy a => buy e a m
  | Sell t => sell e t m
  | Migrate => migrate e m
  end.

(** A rejected operation leaves the market as it was. *)
Definition apply_op (m : Market) (eo : env * op) : Market :=
  match exec_op eo.1 eo.2 m with
  | Ok m' => m'
  | _ => m
  end.

(** The markets visited by a run of operations, the first one
    included. *)
Fixpoint history (m : Market) (ops : list (env * op)) : list Market :=
  match ops with
  | [] => [m]
  | eo :: rest => m :: history (apply_op m eo) rest
  end.

(** The market after a run of operations. *)
Definition run_ops (m : Market) (ops : list (env * op)) : Market :=
  fold_left apply_op ops m.

End curve.

(** How often a sequence of flags goes from [false] to [true]. *)
Fixpoint flips (l : list bool) : nat :=
  match l with
  | false :: ((true :: _) as rest) => S (flips rest)
  | _ :: rest => flips rest
  | [] => 0
  end.

(** The fee identity that the specification states for a trade (section
    8), with the configuration of its market. *)
Definition fee_identity (c : FeeConfig) (t : Trade) : Prop :=
  platform_fee t + liquidity_fee t + agent_fee t =
  fee_base t * total_bps c / 10000.

(** What a market keeps for its whole life: its configuration, and for
    every trade of its log the three fees as the split of the fee base. *)
Definition fees_kept (c : FeeConfig) (m : Market) : Prop :=
  fees m = c ∧
  ∀ t, t ∈ trades m →
       (platform_fee t, liquidity_fee t, agent_fee t) = split_fees c (fee_base t).

End CurveMarket.

(** ** A concrete market

    The scenario of section 8 of the specification: a cap of 1,000,000
    tokens and a threshold of 10 ETH, with a stand-in for the curve. *)

Module MarketScenario.
Import CurveMarket.

Definition ether : N := 10 ^ 18.
Definition tokensFor (_ : Market) (eth : N) : N := eth / 10 ^ 14.
Definition refundFor (_ : Market) (tokens : N) : N := tokens * 10 ^ 14.
Definition feePortion (gross : N) : N := gross / 100.

Definition trader : env := {| msg_sender := 77; block_timestamp := 0 |}.
Definition monitor : env := {| msg_sender := 200; block_timestamp := 0 |}.

Definition fresh : Market := {|
  totalSupplyCap := 1000000; currentSupply := 0; ethRaised := 0;
  fees := default_fees; graduated := false;
  graduationThreshold := 10 * ether;
  platformLedger := 0; liquidityLedger := 0; agentLedger := 0;
  balances := ∅; trades := []; migrated := false; orchestrator := 200 |}.

Definition after_two_buys : Market :=
  run_ops tokensFor refundFor feePortion fresh
    [(trader, Buy (6 * ether)); (trader, Buy (5 * ether))].

Definition after_buy_and_sell : list (env * op) :=
  [(trader, Buy (6 * ether + 15)); (trader, Sell 12345)].

End MarketScenario.

(** ** The remaining functions of the two contracts *)

Module QuorumViews.

(** [function getVote(uint256 proposalId, address voter)]. *)
Definition getVote (id : N) (voter : address) (s : AgentQuorum.state)
  : result bool :=
  AgentQuorum.proposalExists id s;;
  require (hasVoted (AgentQuorum.proposals s @ id) @ voter) "Has not voted";;
  Ok (voteChoice (AgentQuorum.proposals s @ id) @ voter).

(** [function hasVoted(uint256 proposalId, address voter)]. *)
Definition hasVoted (id : N) (voter : address) (s : AgentQuorum.state)
  : result bool :=
  AgentQuorum.proposalExists id s;;
  Ok (hasVoted (AgentQuorum.proposals s @ id) @ voter).

End QuorumViews.

(** [function getAllTokens()] of the factory. *)
Definition getAllTokens (s : BondingCurveFactory.state) : list address :=
  BondingCurveFactory.allTokens s.

(** The proposal that [createProposal] stores. *)
Definition new_proposal (e : env) (name symbol descr : string)
    (members : list address) (id : N) (old : Proposal) : Proposal := {|
  proposalId := id; proposer := msg_sender e;
  tokenName := name; tokenSymbol := symbol; description := descr;
  quorumMembers := members;
  hasVoted := hasVoted old; voteChoice := voteChoice old;
  yesVotes := yesVotes old; noVotes := noVotes old;
  createdAt := block_timestamp e;
  votingDeadline := block_timestamp e + VOTING_PERIOD;
  status := Active |}.

(** What one successful call of the quorum contract does to the proposal
    stored under an id: nothing, or one of the four writes of the
    contract. *)
Inductive pchange (q : AgentQuorum.state) (id : N) (p p' : Proposal) : Prop :=
| pchange_none : p' = p → pchange q id p p'
| pchange_created e name symbol descr members :
    id = AgentQuorum.proposalCount q →
    AgentQuorum.proposals q !! id = None →
    createProposal_valid e members q →
    block_timestamp e + VOTING_PERIOD ≤ UINT256_MAX →
    p' = new_proposal e name symbol descr members id p →
    pchange q id p p'
| pchange_voted e vote :
    id < AgentQuorum.proposalCount q →
    status p = Active →
    block_timestamp e ≤ votingDeadline p →
    msg_sender e ∈ quorumMembers p →
    hasVoted p @ msg_sender e = false →
    p' = AgentQuorum._checkProposalStatus (record_vote (msg_sender e) vote p) →
    pchange q id p p'
| pchange_finalized e :
    id < AgentQuorum.proposalCount q →
    status p = Active →
    votingDeadline p < block_timestamp e →
    p' = set_status Failed p →
    pchange q id p p'
| pchange_executed :
    id < AgentQuorum.proposalCount q →
    status p = Passed →
    p' = set_status Executed p →
    pchange q id p p'.

(** The members of a proposal that have a recorded vote. *)
Definition voters (p : Proposal) : list address :=
  filter (λ a, hasVoted p @ a = true) (quorumMembers p).

(** What a stored proposal keeps besides its counters: its key, its
    proposer, its deadline, and that only members have voted. *)
Record proposal_sound (id : N) (p : Proposal) : Prop := {
  sound_id : proposalId p = id;
  sound_proposer : proposer p ∈ quorumMembers p;
  sound_deadline : votingDeadline p = createdAt p + VOTING_PERIOD;
  sound_voters : ∀ a, hasVoted p @ a = true → a ∈ quorumMembers p;
  sound_no : noVotes p ≤ 1 ∧ (noVotes p = 1 → status p = Failed)
}.

Definition quorum_sound (q : AgentQuorum.state) : Prop :=
  ∀ id, id < AgentQuorum.proposalCount q →
        proposal_sound id (AgentQuorum.proposals q @ id).

(** An agent is named by an executed proposal. *)
Definition launched_with (q : AgentQuorum.state) (a : address) (id : N) : Prop :=
  qstatus q id = Executed ∧ a ∈ quorumMembers (AgentQuorum.proposals q @ id).

#[global] Instance launched_with_dec q a id : Decision (launched_with q a id).
Proof. unfold launched_with. apply _. Defined.

(** The executed proposals that name an agent. *)
Definition launches_of (q : AgentQuorum.state) (a : address) : list N :=
  filter (launched_with q a) (ids (AgentQuorum.proposalCount q)).

(** The bookkeeping of the factory against the quorum contract. *)
Record factory_sound (w : world) : Prop := {
  sound_linked : ∀ id, BondingCurveFactory.proposalToToken (factory w) @ id ≠ 0 →
                       status_of w id = Executed;
  sound_listed : ∀ id, BondingCurveFactory.proposalToToken (factory w) @ id ≠ 0 →
                       BondingCurveFactory.proposalToToken (factory w) @ id
                         ∈ BondingCurveFactory.allTokens (factory w);
  sound_count : len (BondingCurveFactory.allTokens (factory w))
                  ≤ len (executed (quorum w));
  sound_addresses : BondingCurveFactory.quorumContract (factory w) ≠ 0 ∧
                    BondingCurveFactory.platformFeeRecipient (factory w) ≠ 0 ∧
                    BondingCurveFactory.uniswapV2Router (factory w) ≠ 0 ∧
                    factoryAddress w ≠ 0
}.

(** What never changes in a stored proposal, and what a recorded vote
    keeps. *)
Record same_terms (p p' : Proposal) : Prop := {
  same_id : proposalId p' = proposalId p;
  same_proposer : proposer p' = proposer p;
  same_name : tokenName p' = tokenName p;
  same_symbol : tokenSymbol p' = tokenSymbol p;
  same_description : description p' = description p;
  same_members : quorumMembers p' = quorumMembers p;
  same_created : createdAt p' = createdAt p;
  same_deadline : votingDeadline p' = votingDeadline p;
  same_votes : ∀ a, hasVoted p @ a = true →
                    hasVoted p' @ a = true ∧ voteChoice p' @ a = voteChoice p @ a
}.

(** The calls guarded by [onlyAdmin] in each contract, and the calls that
    write the registry of verified agents. *)
Definition quorum_admin_call (c : call) : bool :=
  match c with
  | SetBondingCurveFactory _ | VerifyAgent _ | UnverifyAgent _ => true
  | _ => false
  end.

Definition factory_admin_call (c : call) : bool :=
  match c with
  | UpdatePlatformFeeRecipient _ | UpdateUniswapRouter _ => true
  | _ => false
  end.

Definition registry_call (c : call) : bool :=
  match c with
  | VerifyAgent _ | UnverifyAgent _ => true
  | _ => false
  end.

Definition reputation_exact (q : AgentQuorum.state) : Prop :=
  ∀ a, AgentQuorum.agentReputation q @ a = len (launches_of q a).


(** Every entry of the factory's map belongs to an executed proposal, and
    every listed token is an entry of the map. *)
Definition tokens_backed (w : world) : Prop :=
  (∀ id t, BondingCurveFactory.proposalToToken (factory w) !! id = Some t →
           status_of w id = Executed) ∧
  (∀ t, t ∈ BondingCurveFactory.allTokens (factory w) →
        ∃ id, BondingCurveFactory.proposalToToken (factory w) !! id = Some t).

(** The ledgers reached when the contracts are operated as the deployment
    links them. No transaction comes from the zero address or from the
    address of the factory: the factory is a contract, and it calls
    [executeProposal] in [launchToken] only. The admin of the quorum
    contract registers the address of the factory and no other. The address
    of a created token is not zero. *)
Inductive operated : world → Prop :=
| operated_deploy eQ eF qa fa fee router w :
    fa ≠ 0 → deploy eQ eF qa fa fee router = Ok w → operated w
| operated_step e c w w' :
    operated w →
    msg_sender e ≠ 0 →
    msg_sender e ≠ factoryAddress w →
    (∀ f, c = SetBondingCurveFactory f → f = factoryAddress w) →
    (∀ id token, c = LaunchToken id token → token ≠ 0) →
    exec e c w = Ok w' →
    operated w'.

(** Executed proposals and recorded tokens correspond. *)
Record launches_exact (w : world) : Prop := {
  exact_registered : AgentQuorum.bondingCurveFactory (quorum w) = 0 ∨
                     AgentQuorum.bondingCurveFactory (quorum w) = factoryAddress w;
  exact_linked : ∀ id, status_of w id = Executed ↔
                       BondingCurveFactory.proposalToToken (factory w) @ id ≠ 0;
  exact_count : len (BondingCurveFactory.allTokens (factory w))
                  = len (executed (quorum w))
}.

(** ** The tables of [db/schema.sql]

    An SQL [INTEGER] is a [Z]; a [VARCHAR] is a [string], compared with
    [=]. *)

Module Schema.

(** [CONSTRAINT valid_quorum_size CHECK (quorum_size >= 3 AND quorum_size
    <= 5)] of the table [quorums]. *)
Definition valid_quorum_size (quorum_size : Z) : bool :=
  ((3 <=? quorum_size) && (quorum_size <=? 5))%Z.

(** [CONSTRAINT valid_member_index CHECK (member_index >= 0 AND
    member_index < 5)] of the table [quorum_members]. *)
Definition valid_member_index (member_index : Z) : bool :=
  ((0 <=? member_index) && (member_index <? 5))%Z.

(** *** The fee columns of [markets]

    An [INTEGER] holds a value from -2^31 to 2^31 - 1 or [NULL]. *)
Definition INT4_MIN : Z := (- 2 ^ 31)%Z.
Definition INT4_MAX : Z := (2 ^ 31 - 1)%Z.

(** [a + b] on [INTEGER]: [NULL] when an operand is [NULL], and the error
    "integer out of range" when the sum does not fit. An error of the
    database is a [Revert] with its message. *)
Definition int4_add (a b : option Z) : result (option Z) :=
  match a, b with
  | Some x, Some y =>
      if bool_decide (INT4_MIN ≤ x + y ≤ INT4_MAX)%Z then Ok (Some (x + y)%Z)
      else Revert "integer out of range"
  | _, _ => Ok None
  end.

(** [a = b]: [NULL] when an operand is [NULL]. *)
Definition sql_eq (a b : option Z) : option bool :=
  match a, b with
  | Some x, Some y => Some (bool_decide (x = y))
  | _, _ => None
  end.

(** A [CHECK] constraint is satisfied when its condition is [TRUE] or
    [NULL]; it rejects the row when the condition is [FALSE]. *)
Definition check_accepts (condition : option bool) : bool :=
  match condition with
  | Some false => false
  | _ => true
  end.

(** [platform_fee_bps INTEGER DEFAULT 3000], [liquidity_fee_bps INTEGER
    DEFAULT 6000], [agent_fee_bps INTEGER DEFAULT 1000]: no column is
    declared [NOT NULL]. *)
Record market_fees := {
  platform_fee_bps : option Z;
  liquidity_fee_bps : option Z;
  agent_fee_bps : option Z
}.

Definition default_market_fees : market_fees :=
  {| platform_fee_bps := Some 3000%Z; liquidity_fee_bps := Some 6000%Z;
     agent_fee_bps := Some 1000%Z |}.

(** [CONSTRAINT valid_fees CHECK (platform_fee_bps + liquidity_fee_bps +
    agent_fee_bps = 10000)]: whether the constraint accepts the row. *)
Definition valid_fees (r : market_fees) : result bool :=
  s ← int4_add (platform_fee_bps r) (liquidity_fee_bps r);
  total ← int4_add s (agent_fee_bps r);
  Ok (check_accepts (sql_eq total (Some 10000%Z))).

(** The columns of [agents] that the view [agent_leaderboard] selects.
    [wallet_address] is [UNIQUE NOT NULL]; the other columns can be
    [NULL]. *)
Record agent := {
  wallet_address : string;
  name : option string;
  reputation_score : option Z;
  total_markets_launched : option Z;
  total_volume_generated : option Z;
  successful_graduations : option Z;
  verified : option bool;
  created_at : option Z
}.

(** The columns of [agent_partnerships] that the view reads, both [NOT
    NULL]. *)
Record partnership := {
  agent_a : string;
  agent_b : string
}.

(** A row of the view [agent_leaderboard]: the columns taken from the
    agent, and [total_partnerships]. *)
Record leaderboard_row := {
  of_agent : agent;
  total_partnerships : Z
}.

(** [SELECT key as wallet, COUNT( * ) as partnership_count FROM ... GROUP
    BY key]: one row for each value of the key, with the number of rows
    that have it. *)
Definition count_rows (key : string) (keys : list string) : Z :=
  Z.of_nat (length (filter (λ k, k = key) keys)).

Definition group_count (keys : list string) : list (string * Z) :=
  (λ k, (k, count_rows k keys)) <$> remove_dups keys.

(** The subquery [p]: the counts by [agent_a], [UNION ALL] the counts by
    [agent_b]. *)
Definition partnership_counts (ps : list partnership) : list (string * Z) :=
  group_count (agent_a <$> ps) ++ group_count (agent_b <$> ps).

(** [x LEFT JOIN y ON c] for one row of [x], given the rows of [y] that
    satisfy [c] with it: a row for each of them, or one row with [NULL] for
    the columns of [y] when there is none. *)
Definition left_join_on {A B} (matches : list B) (a : A) : list (A * option B) :=
  match matches with
  | [] => [(a, None)]
  | _ => (λ b, (a, Some b)) <$> matches
  end.

(** [agents a LEFT JOIN (...) p ON a.wallet_address = p.wallet] for one
    agent. *)
Definition left_join (a : agent) (p : list (string * Z))
  : list (agent * option (string * Z)) :=
  left_join_on (filter (λ r, r.1 = wallet_address a) p) a.

(** [CREATE VIEW agent_leaderboard]. [COALESCE(partnership_count, 0) as
    total_partnerships]. The rows are given in the order of the join; the
    [ORDER BY] of the view permutes them. *)
Definition agent_leaderboard (agents : list agent) (ps : list partnership)
  : list leaderboard_row :=
  a ← agents;
  (λ r, {| of_agent := r.1;
           total_partnerships := default 0%Z (snd <$> r.2) |})
    <$> left_join a (partnership_counts ps).

(** The rows of the leaderboard for one wallet. *)
Definition rows_of (wallet : string) (rows : list leaderboard_row)
  : list leaderboard_row :=
  filter (λ r, wallet_address (of_agent r) = wallet) rows.

(** *** The views [active_markets] and [graduated_markets]

    The columns of [quorums], [markets] and [trades] that the two views
    read; the other columns of [markets] are passed through with [m.*]. A
    [UUID] is an [N]. [markets.quorum_id] and [markets.graduated] can be
    [NULL]; the columns of [quorums] and [trades] below are [NOT NULL]. *)
Record quorum := {
  quorums_id : N;
  proposer_address : string;
  quorum_size : Z
}.

Record market := {
  markets_id : N;
  quorum_id : option N;
  graduated : option bool
}.

Record trade := {
  trades_id : N;
  market_id : N;
  trader_address : string;
  is_buy : bool;
  eth_amount : Z
}.

Definition joined_row : Type := market * option quorum * option trade.

(** [FROM markets m LEFT JOIN quorums q ON m.quorum_id = q.id LEFT JOIN
    trades t ON m.id = t.market_id]. *)
Definition markets_joined (ms : list market) (qs : list quorum) (ts : list trade)
  : list joined_row :=
  m ← ms;
  mq ← left_join_on (filter (λ q, quorum_id m = Some (quorums_id q)) qs) m;
  left_join_on (filter (λ t, market_id t = markets_id m) ts) mq.

(** [GROUP BY]: the groups of the rows, one for each value of the key. *)
Definition group_by {A K} `{EqDecision K} (key : A → K) (rows : list A)
  : list (list A) :=
  (λ k, filter (λ r, key r = k) rows) <$> remove_dups (key <$> rows).

(** [GROUP BY m.id, q.proposer_address, q.quorum_size]. *)
Definition group_key (r : joined_row) : N * option string * option Z :=
  (markets_id r.1.1, proposer_address <$> r.1.2, quorum_size <$> r.1.2).

(** The [FROM], [WHERE] and [GROUP BY] clauses that the two views share:
    [WHERE m.graduated = flag]. *)
Definition market_groups (flag : bool) (ms : list market) (qs : list quorum)
    (ts : list trade) : list (list joined_row) :=
  group_by group_key
    (filter (λ r : joined_row, graduated r.1.1 = Some flag)
       (markets_joined ms qs ts)).

(** [COUNT(DISTINCT x)]: the number of different values that are not
    [NULL]. *)
Definition count_distinct {A} `{EqDecision A} (l : list (option A)) : Z :=
  Z.of_nat (length (remove_dups (omap (λ x, x) l))).

(** [SUM(x)] over the rows of a group. *)
Definition sum (l : list Z) : Z := foldr Z.add 0%Z l.

(** [CASE WHEN t.is_buy THEN t.eth_amount ELSE 0 END] and [CASE WHEN NOT
    t.is_buy THEN t.eth_amount ELSE 0 END]; the condition is [NULL], so
    the result 0, in a row without a trade. *)
Definition buy_amount (r : joined_row) : Z :=
  match r.2 with
  | Some t => if is_buy t then eth_amount t else 0%Z
  | None => 0%Z
  end.

Definition sell_amount (r : joined_row) : Z :=
  match r.2 with
  | Some t => if negb (is_buy t) then eth_amount t else 0%Z
  | None => 0%Z
  end.

(** A row of [graduated_markets]. *)
Record graduated_row := {
  gm_market : market;
  gm_proposer_address : option string;
  gm_quorum_size : option Z;
  total_trades : Z;
  total_buy_volume : Z;
  total_sell_volume : Z
}.

(** A row of [active_markets]; the column [age_seconds], which reads the
    clock, is left out. *)
Record active_row := {
  am_market : market;
  am_proposer_address : option string;
  am_quorum_size : option Z;
  trade_count : Z;
  unique_traders : Z
}.

(** The columns that the views compute for a group of joined rows. *)
Definition trade_ids (g : list joined_row) : list (option N) :=
  (λ r : joined_row, trades_id <$> r.2) <$> g.

Definition trader_addresses (g : list joined_row) : list (option string) :=
  (λ r : joined_row, trader_address <$> r.2) <$> g.

(** The [SELECT] list of [graduated_markets] for one group; the columns of
    [m] and [q] are those of the rows of the group, which agree on them
    when [markets.id] is a key. *)
Definition graduated_select (g : list joined_row) : option graduated_row :=
  match g with
  | [] => None
  | r :: _ =>
      Some {| gm_market := r.1.1;
              gm_proposer_address := proposer_address <$> r.1.2;
              gm_quorum_size := quorum_size <$> r.1.2;
              total_trades := count_distinct (trade_ids g);
              total_buy_volume := sum (buy_amount <$> g);
              total_sell_volume := sum (sell_amount <$> g) |}
  end.

(** The [SELECT] list of [active_markets] for one group. *)
Definition active_select (g : list joined_row) : option active_row :=
  match g with
  | [] => None
  | r :: _ =>
      Some {| am_market := r.1.1;
              am_proposer_address := proposer_address <$> r.1.2;
              am_quorum_size := quorum_size <$> r.1.2;
              trade_count := count_distinct (trade_ids g);
              unique_traders := count_distinct (trader_addresses g) |}
  end.

(** [CREATE VIEW graduated_markets] and [CREATE VIEW active_markets]: one
    row for each group. The [ORDER BY] of each view permutes its rows. *)
Definition graduated_markets (ms : list market) (qs : list quorum)
    (ts : list trade) : list graduated_row :=
  omap graduated_select (market_groups true ms qs ts).

Definition active_markets (ms : list market) (qs : list quorum)
    (ts : list trade) : list active_row :=
  omap active_select (market_groups false ms qs ts).

(** The trades of a market and the quorum it refers to. *)
Definition trades_of (m : market) (ts : list trade) : list trade :=
  filter (λ t, market_id t = markets_id m) ts.

Definition quorum_of (m : market) (qs : list quorum) : option quorum :=
  head (filter (λ q, quorum_id m = Some (quorums_id q)) qs).

End Schema.

(** Four agents and three partnerships; the first agent is on the left
    of two and on the right of one. *)
Module BoardScenario.
Import Schema.

Definition agent_of (wallet : string) : agent := {|
  wallet_address := wallet; name := None;
  reputation_score := Some 0%Z; total_markets_launched := Some 0%Z;
  total_volume_generated := Some 0%Z; successful_graduations := Some 0%Z;
  verified := Some false; created_at := None |}.

Definition wallet1 : string := "0x1b1b1b1b1b1b1b1b1b1b1b1b1b1b1b1b1b1b1b1b".
Definition wallet5 : string := "0x5a5a5a5a5a5a5a5a5a5a5a5a5a5a5a5a5a5a5a5a".
Definition wallet7 : string := "0x7d7d7d7d7d7d7d7d7d7d7d7d7d7d7d7d7d7d7d7d".
Definition wallet9 : string := "0x9c9c9c9c9c9c9c9c9c9c9c9c9c9c9c9c9c9c9c9c".

Definition alice : agent := agent_of wallet5.
Definition agents : list agent :=
  [alice; agent_of wallet1; agent_of wallet9; agent_of wallet7].

Definition partnerships : list partnership :=
  [ {| agent_a := wallet5; agent_b := wallet9 |};
    {| agent_a := wallet5; agent_b := wallet7 |};
    {| agent_a := wallet1; agent_b := wallet5 |} ].

End BoardScenario.

(** Two quorums, five markets and five trades: a graduated market with
    three trades, an active one with two, and markets without a quorum,
    without trades and without a value for [graduated]. *)
Module ViewScenario.
Import Schema.

Definition quorums : list quorum :=
  [ {| quorums_id := 1; proposer_address := BoardScenario.wallet5;
       quorum_size := 3 |};
    {| quorums_id := 2; proposer_address := BoardScenario.wallet1;
       quorum_size := 4 |} ].

Definition launched : market :=
  {| markets_id := 10; quorum_id := Some 1; graduated := Some true |}.

Definition unset : market :=
  {| markets_id := 13; quorum_id := Some 1; graduated := None |}.

Definition markets : list market :=
  [ launched;
    {| markets_id := 11; quorum_id := Some 2; graduated := Some false |};
    {| markets_id := 12; quorum_id := None; graduated := Some true |};
    unset;
    {| markets_id := 14; quorum_id := None; graduated := Some false |} ].

Definition trades : list trade :=
  [ {| trades_id := 100; market_id := 10;
       trader_address := BoardScenario.wallet7; is_buy := true;
       eth_amount := 5 |};
    {| trades_id := 101; market_id := 10;
       trader_address := BoardScenario.wallet7; is_buy := false;
       eth_amount := 3 |};
    {| trades_id := 102; market_id := 10;
       trader_address := BoardScenario.wallet9; is_buy := true;
       eth_amount := 7 |};
    {| trades_id := 103; market_id := 11;
       trader_address := BoardScenario.wallet7; is_buy := true;
       eth_amount := 2 |};
    {| trades_id := 104; market_id := 11;
       trader_address := BoardScenario.wallet7; is_buy := true;
       eth_amount := 4 |} ].

End ViewScenario.
(** * Proofs *)

(** ** Mappings *)

Lemma rd_insert {V} `{Zero V} (m : gmap N V) k v : <[k:=v]> m @ k = v.
Proof. unfold rd. by rewrite lookup_insert_eq. Qed.

Lemma rd_insert_ne {V} `{Zero V} (m : gmap N V) k k' v :
  k ≠ k' → <[k:=v]> m @ k' = m @ k'.
Proof. intros. unfold rd. by rewrite lookup_insert_ne. Qed.

Lemma rd_empty {V} `{Zero V} k : (∅ : gmap N V) @ k = zero.
Proof. unfold rd. by rewrite lookup_empty. Qed.

(** ** The error monad *)

Lemma bind_Ok {A B} (m : result A) (f : A → result B) (b : B) :
  m ≫= f = Ok b ↔ ∃ a, m = Ok a ∧ f a = Ok b.
Proof.
  destruct m; cbn; split; try (intros (? & ? & ?)); try discriminate; eauto.
  by simplify_eq.
Qed.

Lemma fmap_Ok {A B} (m : result A) (f : A → B) (b : B) :
  f <$> m = Ok b ↔ ∃ a, m = Ok a ∧ f a = b.
Proof.
  destruct m; cbn; split; try (intros (? & ? & ?)); try discriminate; eauto.
  - intros [= <-]. eauto.
  - by simplify_eq.
Qed.

Lemma require_Ok c msg u : require c msg = Ok u ↔ c = true.
Proof. destruct c, u; cbn; split; done. Qed.

Lemma add256_Ok a b c : add256 a b = Ok c ↔ c = a + b ∧ a + b ≤ UINT256_MAX.
Proof.
  unfold add256. destruct (N.leb_spec (a + b) UINT256_MAX); split.
  - intros [= <-]. done.
  - by intros [-> _].
  - done.
  - intros [_ ?]. lia.
Qed.

(** Breaks a hypothesis [m = Ok x] along the binds of [m]. *)
Ltac ok_inv H :=
  lazymatch type of H with
  | _ ≫= _ = Ok _ =>
      let H1 := fresh "Hq" in
      apply bind_Ok in H as (? & H1 & H); ok_inv H1; ok_inv H
  | _ <$> _ = Ok _ =>
      let x := fresh in
      let Hx := fresh in
      apply fmap_Ok in H as (x & H & Hx); try subst; ok_inv H
  | require _ _ = Ok _ => apply require_Ok in H
  | add256 _ _ = Ok _ => apply add256_Ok in H as [-> H]
  | Ok _ = Ok _ => injection H as H; try subst
  | _ => idtac
  end.

(** ** The loops of the quorum contract *)

Lemma in_quorum_spec a l : AgentQuorum.in_quorum a l = true ↔ a ∈ l.
Proof.
  induction l as [|x l IH]; cbn.
  - split; [done | by intros ?%elem_of_nil].
  - rewrite elem_of_cons. destruct (N.eqb_spec x a).
    + split; auto.
    + rewrite IH. naive_solver.
Qed.

Lemma check_duplicates_spec m l u :
  AgentQuorum.check_duplicates m l = Ok u ↔ m ∉ l.
Proof.
  destruct u. induction l as [|x l IH]; cbn.
  - split; [intros _; apply not_elem_of_nil | done].
  - rewrite not_elem_of_cons, bind_Ok. split.
    + intros (_ & Hr%require_Ok & Hl). apply IH in Hl.
      apply negb_true_iff, N.eqb_neq in Hr. done.
    + intros [Hne Hl]. exists (). split; [|by apply IH].
      apply require_Ok, negb_true_iff, N.eqb_neq. done.
Qed.

Lemma check_members_spec verified l u :
  AgentQuorum.check_members verified l = Ok u ↔
  Forall (λ m, verified @ m = true) l ∧ NoDup l.
Proof.
  destruct u. induction l as [|x l IH]; cbn.
  - split; [intros _; split; constructor | done].
  - rewrite Forall_cons, NoDup_cons, !bind_Ok. split.
    + intros ([] & Hv%require_Ok & Hr). apply bind_Ok in Hr as ([] & Hd & Hr).
      apply check_duplicates_spec in Hd. apply IH in Hr. naive_solver.
    + intros [[Hv Hall] [Hx Hnd]]. exists (). split; [by apply require_Ok|].
      apply bind_Ok. exists (). split; [by apply check_duplicates_spec|].
      apply IH. done.
Qed.

(** Turns the boolean tests of the hypotheses into propositions. *)
Ltac reflect_tests :=
  repeat match goal with
  | H : bool_decide _ = true |- _ => apply bool_decide_eq_true in H
  | H : negb _ = true |- _ => apply negb_true_iff in H
  | H : (_ <? _) = true |- _ => apply N.ltb_lt in H
  | H : (_ <=? _) = true |- _ => apply N.leb_le in H
  | H : (_ =? _) = true |- _ => apply N.eqb_eq in H
  | H : (_ =? _) = false |- _ => apply N.eqb_neq in H
  | H : AgentQuorum.in_quorum _ _ = true |- _ => apply in_quorum_spec in H
  | H : AgentQuorum.check_members _ _ = Ok _ |- _ =>
      apply check_members_spec in H as [? ?]
  end.

(** ** Counting votes *)

Section counting.
Context {A : Type} `{!EqDecision A} (P Q : A → Prop) `{!∀ x, Decision (P x)} `{!∀ x, Decision (Q x)}.

Lemma filter_length_same (l : list A) :
  (∀ x, x ∈ l → P x ↔ Q x) → length (filter P l) = length (filter Q l).
Proof.
  induction l as [|x l IH]; intros Hpq; [done|].
  rewrite !filter_cons.
  assert (P x ↔ Q x) by (apply Hpq; left).
  assert (length (filter P l) = length (filter Q l)) as Hl
    by (apply IH; intros; apply Hpq; by right).
  repeat case_decide; cbn; try tauto; auto.
Qed.

Lemma filter_length_one_more (c : A) (l : list A) :
  NoDup l → c ∈ l → ¬ P c → Q c → (∀ x, x ≠ c → P x ↔ Q x) →
  length (filter Q l) = S (length (filter P l)).
Proof.
  induction l as [|x l IH]; intros Hnd Hin HP HQ Hpq.
  - by apply elem_of_nil in Hin.
  - apply NoDup_cons in Hnd as [Hx Hnd]. rewrite !filter_cons.
    destruct (decide (x = c)) as [->|Hne].
    + rewrite decide_True, decide_False by done. cbn. f_equal.
      symmetry. apply filter_length_same. intros y Hy. apply Hpq. by intros ->.
    + apply elem_of_cons in Hin as [->|Hin]; [done|].
      specialize (IH Hnd Hin HP HQ Hpq). specialize (Hpq x Hne).
      repeat case_decide; cbn; try tauto; auto.
Qed.

Lemma filter_length_exclusive (l : list A) :
  (∀ x, P x → Q x → False) →
  (length (filter P l) + length (filter Q l) ≤ length l)%nat.
Proof.
  intros Hex. induction l as [|x l IH]; [done|].
  rewrite !filter_cons. specialize (Hex x).
  repeat case_decide; cbn; try tauto; lia.
Qed.

Lemma filter_length_all (l : list A) :
  length (filter P l) = length l ↔ Forall P l.
Proof.
  induction l as [|x l IH].
  - split; [constructor | done].
  - rewrite filter_cons, Forall_cons. pose proof (length_filter P l).
    case_decide; cbn.
    + rewrite <- IH. split; [intros [=]; done | intros [_ ->]; done].
    + split; [lia | tauto].
Qed.
End counting.

Lemma tally_bounds p : tally p true + tally p false ≤ len (quorumMembers p).
Proof.
  unfold tally, len.
  pose proof (filter_length_exclusive (voted_as p true) (voted_as p false)
                (quorumMembers p)) as H.
  assert (∀ x, voted_as p true x → voted_as p false x → False)
    by (unfold voted_as; intros x [_ ?] [_ ?]; congruence).
  specialize (H ltac:(done)). lia.
Qed.

Lemma tally_all p :
  tally p true = len (quorumMembers p) ↔ Forall (voted_as p true) (quorumMembers p).
Proof.
  unfold tally, len. rewrite <- filter_length_all.
  split; [apply Nat2N.inj | intros ->; done].
Qed.

Lemma voted_as_record_ne a vote p choice x :
  x ≠ a → voted_as (record_vote a vote p) choice x ↔ voted_as p choice x.
Proof.
  intros Hne. unfold voted_as, record_vote; cbn.
  by rewrite !rd_insert_ne.
Qed.

Lemma tally_record_same a vote p :
  NoDup (quorumMembers p) → a ∈ quorumMembers p → hasVoted p @ a = false →
  tally (record_vote a vote p) vote = tally p vote + 1.
Proof.
  intros Hnd Hin Hv. unfold tally, len.
  change (quorumMembers (record_vote a vote p)) with (quorumMembers p).
  rewrite (filter_length_one_more (voted_as p vote)
             (voted_as (record_vote a vote p) vote) a); [lia|done..| | |].
  - unfold voted_as. intros [? _]. congruence.
  - unfold voted_as, record_vote; cbn. by rewrite !rd_insert.
  - intros x Hx. symmetry. by apply voted_as_record_ne.
Qed.

Lemma tally_record_other a vote p :
  hasVoted p @ a = false →
  tally (record_vote a vote p) (negb vote) = tally p (negb vote).
Proof.
  intros Hv. unfold tally, len. f_equal.
  change (quorumMembers (record_vote a vote p)) with (quorumMembers p).
  apply filter_length_same. intros x _.
  destruct (decide (x = a)) as [->|Hne]; [|by apply voted_as_record_ne].
  unfold voted_as, record_vote; cbn. rewrite !rd_insert.
  split; intros [? ?]; [by destruct vote | congruence].
Qed.

(** ** What each call of the quorum contract does *)

Lemma status_check_cases p :
  status (AgentQuorum._checkProposalStatus p) =
    if 0 <? noVotes p then Failed
    else if yesVotes p =? len (quorumMembers p) then Passed
    else status p.
Proof.
  unfold AgentQuorum._checkProposalStatus.
  destruct (0 <? noVotes p); [done|].
  by destruct (yesVotes p =? len (quorumMembers p)).
Qed.

Lemma castVote_inv e id vote q q' :
  AgentQuorum.castVote e id vote q = Ok q' →
  let p := AgentQuorum.proposals q @ id in
  id < AgentQuorum.proposalCount q ∧
  status p = Active ∧
  block_timestamp e ≤ votingDeadline p ∧
  msg_sender e ∈ quorumMembers p ∧
  hasVoted p @ msg_sender e = false ∧
  q' = AgentQuorum.set_proposal id
         (AgentQuorum._checkProposalStatus (record_vote (msg_sender e) vote p)) q.
Proof.
  intros H. unfold AgentQuorum.castVote, AgentQuorum.proposalExists,
    AgentQuorum.proposalActive in H.
  ok_inv H. reflect_tests. cbn. repeat split; try done.
  destruct vote;
    repeat match goal with
    | H : add256 _ _ = Ok _ |- _ => apply add256_Ok in H as [-> ?]
    | H : Ok _ = Ok _ |- _ => injection H as <-
    end; done.
Qed.

Lemma castVote_intro e id (vote : bool) q :
  let p := AgentQuorum.proposals q @ id in
  id < AgentQuorum.proposalCount q →
  status p = Active →
  block_timestamp e ≤ votingDeadline p →
  msg_sender e ∈ quorumMembers p →
  hasVoted p @ msg_sender e = false →
  (if vote then yesVotes p else noVotes p) < UINT256_MAX →
  AgentQuorum.castVote e id vote q =
    Ok (AgentQuorum.set_proposal id
          (AgentQuorum._checkProposalStatus (record_vote (msg_sender e) vote p)) q).
Proof.
  intros p Hid Hst Hdl Hin Hv Hov.
  unfold AgentQuorum.castVote, AgentQuorum.proposalExists,
    AgentQuorum.proposalActive. fold p.
  rewrite (proj2 (N.ltb_lt _ _) Hid), bool_decide_eq_true_2 by done.
  rewrite (proj2 (N.leb_le _ _) Hdl), (proj2 (in_quorum_spec _ _) Hin), Hv.
  cbn. unfold add256.
  destruct vote; cbn;
    (rewrite (proj2 (N.leb_le _ _)) by lia); done.
Qed.

Lemma finalizeProposal_inv e id q q' :
  AgentQuorum.finalizeProposal e id q = Ok q' →
  let p := AgentQuorum.proposals q @ id in
  id < AgentQuorum.proposalCount q ∧
  status p = Active ∧
  votingDeadline p < block_timestamp e ∧
  ((yesVotes p ≠ len (quorumMembers p) ∧
    q' = AgentQuorum.set_proposal id (set_status Failed p) q) ∨
   (yesVotes p = len (quorumMembers p) ∧ q' = q)).
Proof.
  intros H. unfold AgentQuorum.finalizeProposal, AgentQuorum.proposalExists in H.
  ok_inv H. reflect_tests. cbn. repeat split; try done.
  destruct (N.eqb_spec (yesVotes (AgentQuorum.proposals q @ id))
              (len (quorumMembers (AgentQuorum.proposals q @ id))));
    cbn in H; injection H as <-; auto.
Qed.

Lemma bump_reputation_Ok l : ∀ r r',
  AgentQuorum.bump_reputation l r = Ok r' →
  NoDup l →
  ∀ a, r' @ a = if bool_decide (a ∈ l) then r @ a + 1 else r @ a.
Proof.
  induction l as [|m l IH]; intros r r' H Hnd a; cbn in H.
  - injection H as <-. by rewrite bool_decide_eq_false_2 by apply not_elem_of_nil.
  - apply NoDup_cons in Hnd as [Hm Hnd]. ok_inv H.
    rewrite (IH _ _ H Hnd a).
    destruct (decide (a = m)) as [->|Hne].
    + rewrite (bool_decide_eq_false_2 (m ∈ l)) by done.
      rewrite bool_decide_eq_true_2 by left. by rewrite rd_insert.
    + rewrite rd_insert_ne by done.
      destruct (decide (a ∈ l)).
      * rewrite !bool_decide_eq_true_2; [done | by right | done].
      * rewrite !bool_decide_eq_false_2; [done | | done].
        rewrite elem_of_cons. tauto.
Qed.

Lemma bump_reputation_intro l : ∀ r,
  (∀ a, a ∈ l → r @ a < UINT256_MAX) → NoDup l →
  succeeds (AgentQuorum.bump_reputation l r).
Proof.
  induction l as [|m l IH]; intros r Hlt Hnd; cbn.
  - by eexists.
  - apply NoDup_cons in Hnd as [Hm Hnd].
    unfold add256. rewrite (proj2 (N.leb_le _ _)); cbn.
    + apply IH; [|done]. intros a Ha. rewrite rd_insert_ne.
      * apply Hlt. by right.
      * intros ->. done.
    + specialize (Hlt m ltac:(left)). lia.
Qed.

Lemma executeProposal_inv e id q q' :
  AgentQuorum.executeProposal e id q = Ok q' →
  let p := AgentQuorum.proposals q @ id in
  msg_sender e = AgentQuorum.bondingCurveFactory q ∧
  status p = Passed ∧
  ∃ r', AgentQuorum.bump_reputation (quorumMembers p) (AgentQuorum.agentReputation q)
          = Ok r' ∧
        q' = AgentQuorum.set_agentReputation r'
               (AgentQuorum.set_proposal id (set_status Executed p) q).
Proof.
  intros H. unfold AgentQuorum.executeProposal in H. ok_inv H.
  reflect_tests. cbn. eauto.
Qed.

Lemma createProposal_inv e n sy d ms q id q' :
  AgentQuorum.createProposal e n sy d ms q = Ok (id, q') →
  AgentQuorum.verifiedAgents q @ msg_sender e = true ∧
  MIN_QUORUM_SIZE ≤ len ms ∧ len ms ≤ MAX_QUORUM_SIZE ∧
  Forall (λ m, AgentQuorum.verifiedAgents q @ m = true) ms ∧
  NoDup ms ∧
  msg_sender e ∈ ms ∧
  id = AgentQuorum.proposalCount q ∧
  AgentQuorum.proposalCount q + 1 ≤ UINT256_MAX ∧
  block_timestamp e + VOTING_PERIOD ≤ UINT256_MAX ∧
  let p := AgentQuorum.proposals q @ id in
  q' = {| AgentQuorum.proposals :=
            <[id := {| proposalId := id; proposer := msg_sender e;
                       tokenName := n; tokenSymbol := sy; description := d;
                       quorumMembers := ms;
                       hasVoted := hasVoted p; voteChoice := voteChoice p;
                       yesVotes := yesVotes p; noVotes := noVotes p;
                       createdAt := block_timestamp e;
                       votingDeadline := block_timestamp e + VOTING_PERIOD;
                       status := Active |}]> (AgentQuorum.proposals q);
          AgentQuorum.proposalCount := AgentQuorum.proposalCount q + 1;
          AgentQuorum.verifiedAgents := AgentQuorum.verifiedAgents q;
          AgentQuorum.agentReputation := AgentQuorum.agentReputation q;
          AgentQuorum.admin := AgentQuorum.admin q;
          AgentQuorum.bondingCurveFactory := AgentQuorum.bondingCurveFactory q |}.
Proof.
  intros H. unfold AgentQuorum.createProposal, AgentQuorum.onlyVerifiedAgent in H.
  ok_inv H.
  reflect_tests. cbn. repeat split; done.
Qed.

(** ** The invariant of the quorum contract *)

Lemma wf_proposal_set_status st p :
  wf_proposal p → status_fits (set_status st p) → wf_proposal (set_status st p).
Proof. intros [] Hfit. by constructor. Qed.

Lemma tally_set_status st p choice : tally (set_status st p) choice = tally p choice.
Proof. done. Qed.

Lemma wf_proposal_vote a vote p :
  wf_proposal p → status p = Active →
  a ∈ quorumMembers p → hasVoted p @ a = false →
  wf_proposal (AgentQuorum._checkProposalStatus (record_vote a vote p)).
Proof.
  intros [Hnd Hmin Hmax Hyes Hno Hfit] Hst Hin Hv.
  unfold status_fits in Hfit. rewrite Hst in Hfit. destruct Hfit as [Hno0 Hlt].
  pose proof (tally_record_same a vote p Hnd Hin Hv) as Hsame.
  pose proof (tally_record_other a vote p Hv) as Hother.
  pose proof (tally_bounds (record_vote a vote p)) as Hb.
  change (quorumMembers (record_vote a vote p)) with (quorumMembers p) in Hb.
  unfold AgentQuorum._checkProposalStatus.
  destruct vote; cbn in *.
  - rewrite Hno0. cbn.
    destruct (N.eqb_spec (yesVotes p + 1) (len (quorumMembers p))) as [Heq|Hne].
    + constructor; rewrite ?tally_set_status; cbn; try done; try congruence.
    + constructor; cbn; try done; try congruence.
      unfold status_fits; cbn. rewrite Hst. split; [done|].
      rewrite Hyes, <- Hsame in *. lia.
  - destruct (N.ltb_spec 0 (noVotes p + 1)); [|lia].
    constructor; rewrite ?tally_set_status; cbn; try done; try congruence;
      try (unfold status_fits; cbn; lia).
Qed.

Lemma rd_free (q : AgentQuorum.state) id :
  AgentQuorum.proposals q !! id = None → AgentQuorum.proposals q @ id = zero.
Proof. unfold rd. by intros ->. Qed.

Lemma tally_no_votes p choice :
  hasVoted p = ∅ → tally p choice = 0.
Proof.
  intros Hv. unfold tally, len.
  replace (filter (voted_as p choice) (quorumMembers p)) with (@nil N); [done|].
  symmetry. induction (quorumMembers p) as [|x l IH]; [done|].
  rewrite filter_cons, decide_False; [done|].
  unfold voted_as. rewrite Hv, rd_empty. intros [? _]. done.
Qed.

Lemma qstep_wf q q' : wf_quorum q → qstep q q' → wf_quorum q'.
Proof.
  intros [Hcount Halloc Hfree] Hstep. destruct Hstep as
    [e f H|e a H|e a H|e n sy d ms id H|e id v H|e id H|e id H].
  - unfold AgentQuorum.setBondingCurveFactory in H. ok_inv H. by constructor.
  - unfold AgentQuorum.verifyAgent in H. ok_inv H. by constructor.
  - unfold AgentQuorum.unverifyAgent in H. ok_inv H. by constructor.
  - apply createProposal_inv in H
      as (_ & Hmin & Hmax & _ & Hnd & _ & -> & Hc & _ & ->).
    pose proof (rd_free q _ (Hfree _ (N.le_refl _))) as Hz.
    constructor; cbn.
    + done.
    + intros id Hid. destruct (decide (AgentQuorum.proposalCount q = id)) as [<-|Hne].
      * rewrite rd_insert, Hz.
        constructor; cbn; try done.
        -- by rewrite tally_no_votes.
        -- by rewrite tally_no_votes.
        -- unfold status_fits; cbn. unfold MIN_QUORUM_SIZE in Hmin. lia.
      * rewrite rd_insert_ne by done. apply Halloc. lia.
    + intros id Hid. rewrite lookup_insert_ne by lia. apply Hfree. lia.
  - apply castVote_inv in H as (Hid & Hst & _ & Hin & Hv & ->).
    constructor; cbn; [done| |].
    + intros id' Hid'. destruct (decide (id = id')) as [<-|Hne].
      * rewrite rd_insert. apply wf_proposal_vote; auto.
      * rewrite rd_insert_ne by done. auto.
    + intros id' Hid'. rewrite lookup_insert_ne by lia. auto.
  - apply finalizeProposal_inv in H as (Hid & Hst & _ & [[Hne ->]|[_ ->]]);
      [|by constructor].
    constructor; cbn; [done| |].
    + intros id' Hid'. destruct (decide (id = id')) as [<-|Hne'].
      * rewrite rd_insert. pose proof (Halloc id Hid) as Hwf.
        apply wf_proposal_set_status; [done|].
        destruct Hwf as [_ _ _ _ _ Hfit]. unfold status_fits in *.
        rewrite Hst in Hfit. cbn. tauto.
      * rewrite rd_insert_ne by done. auto.
    + intros id' Hid'. rewrite lookup_insert_ne by lia. auto.
  - apply executeProposal_inv in H as (_ & Hst & r' & _ & ->).
    assert (id < AgentQuorum.proposalCount q) as Hid.
    { destruct (N.lt_ge_cases id (AgentQuorum.proposalCount q)) as [|Hge]; [done|].
      rewrite (rd_free q _ (Hfree _ Hge)) in Hst. done. }
    constructor; cbn; [done| |].
    + intros id' Hid'. destruct (decide (id = id')) as [<-|Hne'].
      * rewrite rd_insert. pose proof (Halloc id Hid) as Hwf.
        apply wf_proposal_set_status; [done|].
        destruct Hwf as [_ _ _ _ _ Hfit]. unfold status_fits in *.
        rewrite Hst in Hfit. cbn. tauto.
      * rewrite rd_insert_ne by done. auto.
    + intros id' Hid'. rewrite lookup_insert_ne by lia. auto.
Qed.

(** Every successful call is a step of the quorum contract or leaves the
    quorum contract as it is. *)
Lemma exec_qstep e c w w' :
  exec e c w = Ok w' → qstep (quorum w) (quorum w') ∨ quorum w' = quorum w.
Proof.
  destruct c; cbn; unfold on_quorum, on_factory, launchToken; intros H.
  all: ok_inv H; cbn; eauto using qstep.
  destruct H0 as [id q']. cbn. eauto using qstep.
Qed.

Lemma deploy_wf eQ eF qa fa fee router w :
  deploy eQ eF qa fa fee router = Ok w → wf_quorum (quorum w).
Proof.
  unfold deploy. intros H. ok_inv H. constructor; cbn.
  - unfold UINT256_MAX. lia.
  - intros id Hid. lia.
  - intros id _. apply lookup_empty.
Qed.

Lemma reachable_wf w : reachable w → wf_quorum (quorum w).
Proof.
  induction 1 as [eQ eF qa fa fee router w _ H|e c w w' _ IH H].
  - by eapply deploy_wf.
  - apply exec_qstep in H as [H| ->]; [by eapply qstep_wf | done].
Qed.


(** ** The proposal state machine *)

Lemma qstep_status q q' id :
  wf_quorum q → qstep q q' →
  qstatus q' id = qstatus q id ∨ edge (qstatus q id) (qstatus q' id).
Proof.
  intros [Hcount Halloc Hfree] Hstep. unfold qstatus. destruct Hstep as
    [e f H|e a H|e a H|e n sy d ms id0 H|e id0 v H|e id0 H|e id0 H].
  - unfold AgentQuorum.setBondingCurveFactory in H. ok_inv H. by left.
  - unfold AgentQuorum.verifyAgent in H. ok_inv H. by left.
  - unfold AgentQuorum.unverifyAgent in H. ok_inv H. by left.
  - apply createProposal_inv in H as (_ & _ & _ & _ & _ & _ & -> & _ & _ & ->).
    cbn. left. destruct (decide (AgentQuorum.proposalCount q = id)) as [<-|Hne].
    + rewrite rd_insert. cbn.
      by rewrite (rd_free q _ (Hfree _ (N.le_refl _))).
    + by rewrite rd_insert_ne.
  - apply castVote_inv in H as (_ & Hst & _ & _ & _ & ->). cbn.
    destruct (decide (id0 = id)) as [<-|Hne]; [|left; by rewrite rd_insert_ne].
    rewrite rd_insert, status_check_cases, Hst.
    destruct (0 <? _); [right; constructor|].
    destruct (_ =? _); [right; constructor|].
    left. cbn. done.
  - apply finalizeProposal_inv in H as (_ & Hst & _ & [[_ ->]|[_ ->]]);
      [|by left].
    cbn. destruct (decide (id0 = id)) as [<-|Hne]; [|left; by rewrite rd_insert_ne].
    rewrite rd_insert, Hst. right. constructor.
  - apply executeProposal_inv in H as (_ & Hst & r' & _ & ->). cbn.
    destruct (decide (id0 = id)) as [<-|Hne]; [|left; by rewrite rd_insert_ne].
    rewrite rd_insert, Hst. right. constructor.
Qed.

Lemma exec_status e c w w' id :
  reachable w → exec e c w = Ok w' →
  status_of w' id = status_of w id ∨ edge (status_of w id) (status_of w' id).
Proof.
  intros Hr H. apply exec_qstep in H as [H|H].
  - apply (qstep_status _ _ id (reachable_wf _ Hr) H).
  - left. unfold status_of. by rewrite H.
Qed.

Lemma steps_status w w' id :
  reachable w → steps w w' → status_le (status_of w id) (status_of w' id).
Proof.
  intros Hr Hs. induction Hs as [|e c w w' w'' H _ IH]; [by left|].
  specialize (IH (reachable_step _ _ _ _ Hr H)).
  destruct (exec_status _ _ _ _ id Hr H) as [Heq|Hedge].
  - by rewrite <- Heq.
  - unfold status_le in *. destruct Hedge; naive_solver.
Qed.

Lemma transact_reachable e c w : reachable w → reachable (transact e c w).
Proof.
  intros Hr. unfold transact. destruct (exec e c w) eqn:H; try done.
  by eapply reachable_step.
Qed.

Lemma run_reachable txs : ∀ w, reachable w → reachable (run txs w).
Proof.
  unfold run. induction txs as [|tx txs IH]; intros w Hr; cbn; [done|].
  apply IH. by apply transact_reachable.
Qed.

Lemma genesis_reachable : reachable Scenario.genesis.
Proof.
  by apply (reachable_deploy (Scenario.by_ Scenario.deployer 0)
              (Scenario.by_ Scenario.deployer 1) Scenario.quorumAddr
              Scenario.factoryAddr Scenario.deployer Scenario.router).
Qed.

Lemma verified_reachable : reachable Scenario.verified.
Proof. apply run_reachable, genesis_reachable. Qed.

Lemma proposed_reachable : reachable Scenario.proposed.
Proof. apply run_reachable, verified_reachable. Qed.

Lemma two_yes_reachable : reachable Scenario.two_yes.
Proof. apply run_reachable, proposed_reachable. Qed.

Lemma passed_reachable : reachable Scenario.passed.
Proof. apply run_reachable, two_yes_reachable. Qed.

Lemma linked_reachable : reachable Scenario.linked.
Proof. apply run_reachable, passed_reachable. Qed.

Lemma launched_reachable : reachable Scenario.launched.
Proof. apply run_reachable, linked_reachable. Qed.

(** C1. In every ledger that can be reached, a successful call changes the
    status of a proposal along one of the edges Active to Passed, Active to
    Failed, Passed to Executed, or leaves it alone; and over any sequence of
    successful calls a Failed proposal stays Failed, an Executed one stays
    Executed, and a proposal that is Active afterwards was Active before. *)
Theorem status_transitions w :
  reachable w →
  (∀ e c w' id, exec e c w = Ok w' →
     status_of w' id = status_of w id ∨ edge (status_of w id) (status_of w' id)) ∧
  (∀ w' id, steps w w' →
     (status_of w id = Failed → status_of w' id = Failed) ∧
     (status_of w id = Executed → status_of w' id = Executed) ∧
     (status_of w' id = Active → status_of w id = Active)).
Proof.
  intros Hr. split.
  - intros e c w' id H. by apply (exec_status e c).
  - intros w' id Hs. pose proof (steps_status w w' id Hr Hs) as Hle.
    unfold status_le in Hle. repeat split; intros Hst; rewrite Hst in Hle;
      naive_solver.
Qed.

Lemma status_transitions_witness :
  reachable Scenario.proposed ∧
  edge (status_of Scenario.proposed 0)
       (status_of (transact (Scenario.by_ Scenario.agentB 2000) (CastVote 0 false)
                     Scenario.proposed) 0).
Proof.
  split; [apply proposed_reachable|].
  destruct (proj1 (status_transitions Scenario.proposed proposed_reachable)
              (Scenario.by_ Scenario.agentB 2000) (CastVote 0 false)
              (transact (Scenario.by_ Scenario.agentB 2000) (CastVote 0 false)
                 Scenario.proposed) 0 eq_refl) as [H|H].
  - vm_compute in H. discriminate H.
  - exact H.
Defined.

(** ** Unanimous voting *)

Lemma wf_passed_iff p :
  wf_proposal p →
  (status p = Passed ∨ status p = Executed) ↔
  Forall (voted_as p true) (quorumMembers p).
Proof.
  intros [_ _ _ Hyes _ Hfit]. rewrite <- tally_all, <- Hyes.
  unfold status_fits in Hfit. destruct (status p); split; intros H;
    try (destruct H; done); try tauto; lia.
Qed.

Lemma castVote_no_fails e id q q' :
  AgentQuorum.castVote e id false q = Ok q' → qstatus q' id = Failed.
Proof.
  intros H. apply castVote_inv in H as (_ & _ & _ & _ & _ & ->).
  unfold qstatus. cbn. rewrite rd_insert, status_check_cases. cbn.
  destruct (N.ltb_spec 0 (noVotes (AgentQuorum.proposals q @ id) + 1)); [done|lia].
Qed.

Lemma exec_castVote e id vote w w' :
  exec e (CastVote id vote) w = Ok w' →
  AgentQuorum.castVote e id vote (quorum w) = Ok (quorum w').
Proof. cbn. unfold on_quorum. intros H. ok_inv H. done. Qed.

(** C2. In every ledger that can be reached, a proposal that exists has
    between 3 and 5 members, and it has reached Passed (its status is Passed
    or, after execution, Executed) if and only if every member has a recorded
    yes vote. A successful [castVote] is made no later than the deadline and
    records the vote of the caller; a no vote leaves the proposal Failed at
    once, whoever has not voted yet; and a yes vote leaves it Passed exactly
    when it completes the yes votes of all members. *)
Theorem unanimous_consent w id :
  reachable w →
  id < AgentQuorum.proposalCount (quorum w) →
  let p := AgentQuorum.proposals (quorum w) @ id in
  (3 ≤ len (quorumMembers p) ∧ len (quorumMembers p) ≤ 5) ∧
  ((status p = Passed ∨ status p = Executed) ↔
   ∀ m, m ∈ quorumMembers p → hasVoted p @ m = true ∧ voteChoice p @ m = true) ∧
  (∀ e vote w', exec e (CastVote id vote) w = Ok w' →
     let p' := AgentQuorum.proposals (quorum w') @ id in
     block_timestamp e ≤ votingDeadline p ∧
     quorumMembers p' = quorumMembers p ∧
     hasVoted p' @ msg_sender e = true ∧ voteChoice p' @ msg_sender e = vote ∧
     (vote = false → status p' = Failed) ∧
     (vote = true →
        (status p' = Passed ↔
         ∀ m, m ∈ quorumMembers p → hasVoted p' @ m = true ∧ voteChoice p' @ m = true))).
Proof.
  intros Hr Hid p. pose proof (wf_allocated _ (reachable_wf _ Hr) id Hid) as Hwf.
  fold p in Hwf. split; [|split].
  - split; [apply (wf_min _ Hwf) | apply (wf_max _ Hwf)].
  - rewrite (wf_passed_iff p Hwf), Forall_forall. done.
  - intros e vote w' H p'.
    assert (reachable w') as Hr' by (by eapply reachable_step).
    apply exec_castVote in H. pose proof H as Hinv.
    apply castVote_inv in Hinv as (_ & Hst & Hdl & _ & _ & Hq). fold p in Hst, Hdl, Hq.
    assert (AgentQuorum.proposalCount (quorum w') = AgentQuorum.proposalCount (quorum w))
      as Hc by (by rewrite Hq).
    pose proof (wf_allocated _ (reachable_wf _ Hr') id) as Hwf'.
    rewrite Hc in Hwf'. specialize (Hwf' Hid). fold p' in Hwf'.
    assert (p' = AgentQuorum._checkProposalStatus (record_vote (msg_sender e) vote p))
      as Hp' by (unfold p'; rewrite Hq; cbn; by rewrite rd_insert).
    assert (quorumMembers p' = quorumMembers p ∧
            hasVoted p' = <[msg_sender e:=true]> (hasVoted p) ∧
            voteChoice p' = <[msg_sender e:=vote]> (voteChoice p)) as (Hm & Hhv & Hvc).
    { rewrite Hp'. unfold AgentQuorum._checkProposalStatus.
      destruct (0 <? _); [done|]. destruct (_ =? _); done. }
    split; [done|]. split; [done|].
    split; [by rewrite Hhv, rd_insert|]. split; [by rewrite Hvc, rd_insert|].
    split.
    + intros ->. by apply castVote_no_fails in H.
    + intros ->. rewrite <- Hm.
      pose proof (wf_passed_iff p' Hwf') as Hiff. rewrite Forall_forall in Hiff.
      unfold voted_as in Hiff. rewrite <- Hiff. split; [by left|].
      intros [Hp|Hex]; [done|].
      rewrite Hp', status_check_cases in Hex. cbn in Hex. rewrite Hst in Hex.
      destruct (0 <? _); [done|]. destruct (_ =? _); done.
Qed.

Lemma unanimous_consent_witness :
  reachable Scenario.two_yes ∧
  0 < AgentQuorum.proposalCount (quorum Scenario.two_yes) ∧
  status_of (transact (Scenario.by_ Scenario.agentA 2002) (CastVote 0 false)
               Scenario.two_yes) 0 = Failed.
Proof.
  split; [apply two_yes_reachable|]. split; [reflexivity|].
  destruct (proj2 (proj2 (unanimous_consent Scenario.two_yes 0
              two_yes_reachable eq_refl)) (Scenario.by_ Scenario.agentA 2002) false
              (transact (Scenario.by_ Scenario.agentA 2002) (CastVote 0 false)
                 Scenario.two_yes) eq_refl) as (_ & _ & _ & _ & Hno & _).
  exact (Hno eq_refl).
Defined.

(** ** Finalizing an expired proposal *)

(** C4. For a proposal that exists, is Active and whose deadline has passed,
    [finalizeProposal] succeeds for every caller when the yes count differs
    from the number of members: the status becomes Failed and nothing else
    in the contract changes, the recorded votes and the two counters
    included; and no successful call of [finalizeProposal] leaves the
    proposal Passed. *)
Theorem finalize_expired e id q :
  let p := AgentQuorum.proposals q @ id in
  id < AgentQuorum.proposalCount q →
  status p = Active →
  votingDeadline p < block_timestamp e →
  yesVotes p ≠ len (quorumMembers p) →
  AgentQuorum.finalizeProposal e id q =
    Ok (AgentQuorum.set_proposal id (set_status Failed p) q) ∧
  (∀ q', AgentQuorum.finalizeProposal e id q = Ok q' →
     let p' := AgentQuorum.proposals q' @ id in
     status p' = Failed ∧ status p' ≠ Passed ∧
     hasVoted p' = hasVoted p ∧ voteChoice p' = voteChoice p ∧
     yesVotes p' = yesVotes p ∧ noVotes p' = noVotes p ∧
     quorumMembers p' = quorumMembers p ∧
     (∀ id', id' ≠ id →
        AgentQuorum.proposals q' @ id' = AgentQuorum.proposals q @ id') ∧
     AgentQuorum.proposalCount q' = AgentQuorum.proposalCount q ∧
     AgentQuorum.verifiedAgents q' = AgentQuorum.verifiedAgents q ∧
     AgentQuorum.agentReputation q' = AgentQuorum.agentReputation q).
Proof.
  intros p Hid Hst Hdl Hne.
  assert (AgentQuorum.finalizeProposal e id q =
            Ok (AgentQuorum.set_proposal id (set_status Failed p) q)) as Heq.
  { unfold AgentQuorum.finalizeProposal, AgentQuorum.proposalExists. fold p.
    rewrite (proj2 (N.ltb_lt _ _) Hid), bool_decide_eq_true_2 by done.
    rewrite (proj2 (N.ltb_lt _ _) Hdl). cbn.
    by rewrite (proj2 (N.eqb_neq _ _) Hne). }
  split; [done|]. intros q' H. rewrite Heq in H. injection H as <-.
  cbn. rewrite rd_insert. cbn. repeat split; try done.
  intros id' Hne'. by rewrite rd_insert_ne.
Qed.

Lemma finalize_never_passes e id q q' :
  AgentQuorum.finalizeProposal e id q = Ok q' → qstatus q' id ≠ Passed.
Proof.
  intros H. apply finalizeProposal_inv in H as (_ & Hst & _ & [[_ ->]|[_ ->]]);
    unfold qstatus; cbn.
  - by rewrite rd_insert.
  - by rewrite Hst.
Qed.

Lemma finalize_expired_witness :
  AgentQuorum.finalizeProposal (Scenario.by_ Scenario.outsider 700000) 0
    (quorum Scenario.two_yes) =
  Ok (AgentQuorum.set_proposal 0
        (set_status Failed (AgentQuorum.proposals (quorum Scenario.two_yes) @ 0))
        (quorum Scenario.two_yes)).
Proof.
  apply (finalize_expired (Scenario.by_ Scenario.outsider 700000) 0
           (quorum Scenario.two_yes)); vm_compute; done.
Defined.

(** ** Execution and reputation *)

Lemma executeProposal_not_factory e id q :
  msg_sender e ≠ AgentQuorum.bondingCurveFactory q →
  AgentQuorum.executeProposal e id q = Revert "Only factory".
Proof.
  intros Hne. unfold AgentQuorum.executeProposal.
  by rewrite (proj2 (N.eqb_neq _ _) Hne).
Qed.

Lemma executeProposal_not_passed e id q :
  msg_sender e = AgentQuorum.bondingCurveFactory q →
  status (AgentQuorum.proposals q @ id) ≠ Passed →
  AgentQuorum.executeProposal e id q = Revert "Proposal not passed".
Proof.
  intros Heq Hne. unfold AgentQuorum.executeProposal.
  rewrite (proj2 (N.eqb_eq _ _) Heq). cbn.
  by rewrite bool_decide_eq_false_2.
Qed.

Lemma passed_allocated q id :
  wf_quorum q → status (AgentQuorum.proposals q @ id) = Passed →
  id < AgentQuorum.proposalCount q.
Proof.
  intros Hwf Hst.
  destruct (N.lt_ge_cases id (AgentQuorum.proposalCount q)) as [|Hge]; [done|].
  rewrite (rd_free q _ (wf_free _ Hwf _ Hge)) in Hst. done.
Qed.

(** A successful call changes the reputation counters only by running
    [executeProposal]. *)
Lemma exec_reputation e c w w' :
  exec e c w = Ok w' →
  AgentQuorum.agentReputation (quorum w') = AgentQuorum.agentReputation (quorum w) ∨
  ∃ e' id, AgentQuorum.executeProposal e' id (quorum w) = Ok (quorum w').
Proof.
  destruct c; cbn; unfold on_quorum, on_factory, launchToken; intros H.
  all: ok_inv H; cbn; eauto.
  - unfold AgentQuorum.setBondingCurveFactory in Hq. ok_inv Hq. by left.
  - unfold AgentQuorum.verifyAgent in Hq. ok_inv Hq. by left.
  - unfold AgentQuorum.unverifyAgent in Hq. ok_inv Hq. by left.
  - destruct H0 as [id q'].
    apply createProposal_inv in Hq as (_ & _ & _ & _ & _ & _ & _ & _ & _ & ->).
    by left.
  - apply castVote_inv in Hq as (_ & _ & _ & _ & _ & ->). by left.
  - apply finalizeProposal_inv in Hq as (_ & _ & _ & [[_ ->]|[_ ->]]); by left.
Qed.


(** ** Creating a proposal *)

Lemma check_duplicates_cases m l :
  AgentQuorum.check_duplicates m l = Ok () ∨
  AgentQuorum.check_duplicates m l = Revert "Duplicate quorum member".
Proof.
  induction l as [|x l IH]; cbn; [by left|].
  destruct (m =? x); cbn; [by right | done].
Qed.

Lemma check_members_cases verified l :
  AgentQuorum.check_members verified l = Ok () ∨
  AgentQuorum.check_members verified l = Revert "Invalid quorum member" ∨
  AgentQuorum.check_members verified l = Revert "Duplicate quorum member".
Proof.
  induction l as [|x l IH]; cbn; [by left|].
  destruct (verified @ x); cbn; [|by right; left].
  destruct (check_duplicates_cases x l) as [-> | ->]; cbn; [done | by right; right].
Qed.

Lemma createProposal_rejects e n sy d ms q :
  ¬ createProposal_valid e ms q →
  ∃ msg, msg ∈ createProposal_errors ∧
         AgentQuorum.createProposal e n sy d ms q = Revert msg.
Proof.
  intros Hbad. unfold AgentQuorum.createProposal, AgentQuorum.onlyVerifiedAgent,
    createProposal_errors.
  destruct (AgentQuorum.verifiedAgents q @ msg_sender e) eqn:Hv; cbn;
    [|eexists; split; [|done]; set_solver].
  unfold MIN_QUORUM_SIZE, MAX_QUORUM_SIZE.
  destruct (N.leb_spec 3 (len ms)); cbn; [|eexists; split; [|done]; set_solver].
  destruct (N.leb_spec (len ms) 5); cbn; [|eexists; split; [|done]; set_solver].
  destruct (check_members_cases (AgentQuorum.verifiedAgents q) ms)
    as [Hok|[Herr|Herr]]; rewrite ?Herr; cbn;
    [|eexists; split; [|done]; set_solver..].
  rewrite Hok. cbn. apply check_members_spec in Hok as [Hall Hnd].
  destruct (AgentQuorum.in_quorum (msg_sender e) ms) eqn:Hin; cbn;
    [|eexists; split; [|done]; set_solver].
  exfalso. apply Hbad. apply in_quorum_spec in Hin.
  rewrite Forall_forall in Hall. done.
Qed.

(** C6. [createProposal] succeeds only for a verified caller who names
    between 3 and 5 pairwise distinct verified members, itself among them;
    when one of these fails the call reverts with one of six messages (and an
    aborted call changes no storage); when they hold and neither counter
    overflows the call succeeds. On success the id returned is the old
    proposal count, the count grows by one, the proposal stored under the id
    is Active with the named members and a deadline 604800 seconds after the
    call, and every other proposal and the registry are as before. *)
Theorem create_proposal e n sy d ms q :
  (∀ id q', AgentQuorum.createProposal e n sy d ms q = Ok (id, q') →
     createProposal_valid e ms q ∧
     id = AgentQuorum.proposalCount q ∧
     AgentQuorum.proposalCount q' = id + 1 ∧
     (let p' := AgentQuorum.proposals q' @ id in
      status p' = Active ∧
      quorumMembers p' = ms ∧
      proposer p' = msg_sender e ∧
      createdAt p' = block_timestamp e ∧
      votingDeadline p' = createdAt p' + 7 * 24 * 60 * 60) ∧
     (∀ id', id' ≠ id →
        AgentQuorum.proposals q' @ id' = AgentQuorum.proposals q @ id') ∧
     AgentQuorum.verifiedAgents q' = AgentQuorum.verifiedAgents q ∧
     AgentQuorum.agentReputation q' = AgentQuorum.agentReputation q) ∧
  (¬ createProposal_valid e ms q →
     ∃ msg, msg ∈ createProposal_errors ∧
            AgentQuorum.createProposal e n sy d ms q = Revert msg) ∧
  (createProposal_valid e ms q →
     AgentQuorum.proposalCount q < UINT256_MAX →
     block_timestamp e + VOTING_PERIOD ≤ UINT256_MAX →
     ∃ q', AgentQuorum.createProposal e n sy d ms q =
             Ok (AgentQuorum.proposalCount q, q')).
Proof.
  split; [|split].
  - intros id q' H.
    apply createProposal_inv in H
      as (Hv & Hmin & Hmax & Hall & Hnd & Hin & -> & _ & _ & ->).
    rewrite Forall_forall in Hall. cbn. rewrite rd_insert. cbn.
    repeat split; try done.
    intros id' Hne. by rewrite rd_insert_ne.
  - apply createProposal_rejects.
  - intros (Hv & Hmin & Hmax & Hnd & Hall & Hin) Hc Ht.
    unfold AgentQuorum.createProposal, AgentQuorum.onlyVerifiedAgent.
    rewrite Hv. cbn. unfold MIN_QUORUM_SIZE, MAX_QUORUM_SIZE.
    rewrite (proj2 (N.leb_le _ _) Hmin), (proj2 (N.leb_le _ _) Hmax). cbn.
    assert (AgentQuorum.check_members (AgentQuorum.verifiedAgents q) ms = Ok ())
      as -> by (apply check_members_spec; by rewrite Forall_forall).
    cbn. rewrite (proj2 (in_quorum_spec _ _) Hin). cbn.
    unfold add256. rewrite !(proj2 (N.leb_le _ _)) by lia. cbn. eauto.
Qed.

Lemma create_proposal_witness :
  createProposal_valid (Scenario.by_ Scenario.agentA 1000)
    [Scenario.agentA; Scenario.agentB; Scenario.agentC] (quorum Scenario.verified) ∧
  ∃ q', AgentQuorum.createProposal (Scenario.by_ Scenario.agentA 1000)
          "Token" "TKN" "three agents"
          [Scenario.agentA; Scenario.agentB; Scenario.agentC]
          (quorum Scenario.verified) = Ok (0, q').
Proof.
  assert (createProposal_valid (Scenario.by_ Scenario.agentA 1000)
            [Scenario.agentA; Scenario.agentB; Scenario.agentC]
            (quorum Scenario.verified)) as Hvalid.
  { split; [reflexivity|]. split; [vm_compute; discriminate|].
    split; [vm_compute; discriminate|]. split.
    - repeat constructor; vm_compute; set_solver.
    - split.
      + intros m Hm. vm_compute in Hm.
        repeat (apply elem_of_cons in Hm as [->|Hm]; [reflexivity|]).
        by apply elem_of_nil in Hm.
      + left. }
  split; [exact Hvalid|].
  apply (proj2 (proj2 (create_proposal (Scenario.by_ Scenario.agentA 1000)
           "Token" "TKN" "three agents"
           [Scenario.agentA; Scenario.agentB; Scenario.agentC]
           (quorum Scenario.verified))) Hvalid).
  - vm_compute. reflexivity.
  - vm_compute. discriminate.
Defined.

(** ** Who may vote *)

Lemma castVote_ignores_registry e id vote v q :
  AgentQuorum.castVote e id vote (AgentQuorum.set_verifiedAgents v q) =
  AgentQuorum.set_verifiedAgents v <$> AgentQuorum.castVote e id vote q.
Proof.
  unfold AgentQuorum.castVote, AgentQuorum.proposalExists,
    AgentQuorum.proposalActive. cbn.
  destruct (id <? AgentQuorum.proposalCount q); cbn; [|done].
  destruct (bool_decide _); cbn; [|done].
  destruct (_ <=? _); cbn; [|done].
  destruct (AgentQuorum.in_quorum _ _); cbn; [|done].
  destruct (negb _); cbn; [|done].
  destruct vote; cbn; unfold add256;
    match goal with |- context [?a <=? ?b] => destruct (a <=? b) end; done.
Qed.

Lemma unverifyAgent_inv e a q q' :
  AgentQuorum.unverifyAgent e a q = Ok q' →
  q' = AgentQuorum.set_verifiedAgents (<[a:=false]> (AgentQuorum.verifiedAgents q)) q.
Proof. unfold AgentQuorum.unverifyAgent. intros H. ok_inv H. done. Qed.

Lemma wf_votes_small p : wf_proposal p → yesVotes p ≤ 5 ∧ noVotes p ≤ 5.
Proof.
  intros [_ _ Hmax Hyes Hno _]. pose proof (tally_bounds p).
  unfold MAX_QUORUM_SIZE in Hmax. lia.
Qed.

Lemma castVote_not_member e id vote q :
  let p := AgentQuorum.proposals q @ id in
  id < AgentQuorum.proposalCount q →
  status p = Active →
  block_timestamp e ≤ votingDeadline p →
  msg_sender e ∉ quorumMembers p →
  AgentQuorum.castVote e id vote q = Revert "Not a quorum member".
Proof.
  intros p Hid Hst Hdl Hout.
  unfold AgentQuorum.castVote, AgentQuorum.proposalExists,
    AgentQuorum.proposalActive. fold p.
  rewrite (proj2 (N.ltb_lt _ _) Hid), bool_decide_eq_true_2 by done.
  rewrite (proj2 (N.leb_le _ _) Hdl). cbn.
  destruct (AgentQuorum.in_quorum (msg_sender e) (quorumMembers p)) eqn:Hin;
    [|done].
  by apply in_quorum_spec in Hin.
Qed.

Lemma checked_vote a vote p :
  let p' := AgentQuorum._checkProposalStatus (record_vote a vote p) in
  quorumMembers p' = quorumMembers p ∧
  hasVoted p' @ a = true ∧ voteChoice p' @ a = vote ∧
  (∀ x, x ≠ a → hasVoted p' @ x = hasVoted p @ x ∧
                voteChoice p' @ x = voteChoice p @ x) ∧
  yesVotes p' = (if vote then yesVotes p + 1 else yesVotes p) ∧
  noVotes p' = (if vote then noVotes p else noVotes p + 1).
Proof.
  cbn zeta.
  assert (∀ r, quorumMembers (AgentQuorum._checkProposalStatus r) = quorumMembers r ∧
               hasVoted (AgentQuorum._checkProposalStatus r) = hasVoted r ∧
               voteChoice (AgentQuorum._checkProposalStatus r) = voteChoice r ∧
               yesVotes (AgentQuorum._checkProposalStatus r) = yesVotes r ∧
               noVotes (AgentQuorum._checkProposalStatus r) = noVotes r) as Hc.
  { intros r. unfold AgentQuorum._checkProposalStatus.
    destruct (0 <? _); [done|]. destruct (_ =? _); done. }
  destruct (Hc (record_vote a vote p)) as (-> & -> & -> & -> & ->). cbn.
  rewrite !rd_insert. repeat split; try done.
  - by rewrite rd_insert_ne.
  - by rewrite rd_insert_ne.
Qed.

(** C9. Who may vote on a proposal is decided by its stored list of
    members and by nothing else. In a ledger that can be reached, for an
    Active proposal before its deadline and whatever the registry of
    verified agents holds at that moment: a member of the stored list who
    has not voted votes successfully, and the vote is recorded: [castVote]
    returns the ledger in which the proposal has the vote of the caller
    marked and its choice stored, the counter of that choice increased by
    one, the votes of all others as they were, the status set by
    [_checkProposalStatus], and every other proposal untouched. This holds
    in particular after the admin has unverified that member. A caller who
    is not in the stored list is refused with "Not a quorum member",
    verified or not. *)
Theorem vote_eligibility_frozen w e id vote :
  reachable w →
  let q := quorum w in
  let p := AgentQuorum.proposals q @ id in
  let p' := AgentQuorum._checkProposalStatus (record_vote (msg_sender e) vote p) in
  id < AgentQuorum.proposalCount q →
  status p = Active →
  block_timestamp e ≤ votingDeadline p →
  (msg_sender e ∈ quorumMembers p → hasVoted p @ msg_sender e = false →
     (∀ v, AgentQuorum.castVote e id vote (AgentQuorum.set_verifiedAgents v q) =
           Ok (AgentQuorum.set_verifiedAgents v (AgentQuorum.set_proposal id p' q))) ∧
     (∀ e' q1, AgentQuorum.unverifyAgent e' (msg_sender e) q = Ok q1 →
        AgentQuorum.verifiedAgents q1 @ msg_sender e = false ∧
        ∃ q2, AgentQuorum.castVote e id vote q1 = Ok q2 ∧
              AgentQuorum.proposals q2 @ id = p' ∧
              (∀ id', id' ≠ id →
                 AgentQuorum.proposals q2 @ id' = AgentQuorum.proposals q @ id') ∧
              AgentQuorum.verifiedAgents q2 = AgentQuorum.verifiedAgents q1) ∧
     quorumMembers p' = quorumMembers p ∧
     hasVoted p' @ msg_sender e = true ∧
     voteChoice p' @ msg_sender e = vote ∧
     (∀ x, x ≠ msg_sender e →
           hasVoted p' @ x = hasVoted p @ x ∧ voteChoice p' @ x = voteChoice p @ x) ∧
     yesVotes p' = (if vote then yesVotes p + 1 else yesVotes p) ∧
     noVotes p' = (if vote then noVotes p else noVotes p + 1)) ∧
  (msg_sender e ∉ quorumMembers p →
     ∀ v, AgentQuorum.castVote e id vote (AgentQuorum.set_verifiedAgents v q) =
          Revert "Not a quorum member") ∧
  (hasVoted p @ msg_sender e = true →
     ∀ v, ¬ succeeds (AgentQuorum.castVote e id vote
                        (AgentQuorum.set_verifiedAgents v q))).
Proof.
  intros Hr q p p' Hid Hst Hdl.
  pose proof (wf_votes_small _ (wf_allocated _ (reachable_wf _ Hr) id Hid)) as Hsm.
  fold q p in Hsm.
  assert ((if vote then yesVotes p else noVotes p) < UINT256_MAX) as Hov.
  { unfold UINT256_MAX. destruct vote; lia. }
  split; [|split].
  - intros Hin Hv.
    assert (∀ v, AgentQuorum.castVote e id vote (AgentQuorum.set_verifiedAgents v q) =
                 Ok (AgentQuorum.set_verifiedAgents v
                       (AgentQuorum.set_proposal id p' q))) as Hok.
    { intros v. rewrite castVote_ignores_registry.
      by rewrite (castVote_intro e id vote q Hid Hst Hdl Hin Hv Hov). }
    split; [exact Hok|]. split; [|apply checked_vote].
    intros e' q1 H. apply unverifyAgent_inv in H as ->. split.
    { cbn. by rewrite rd_insert. }
    eexists. split; [apply Hok|]. cbn. split; [by rewrite rd_insert|].
    split; [|done]. intros id' Hne. by rewrite rd_insert_ne.
  - intros Hout v. rewrite castVote_ignores_registry.
    by rewrite (castVote_not_member e id vote q Hid Hst Hdl Hout).
  - intros Hv v [q' H]. rewrite castVote_ignores_registry in H.
    apply fmap_Ok in H as (q0 & H & _).
    apply castVote_inv in H as (_ & _ & _ & _ & Hnv & _). fold q p in Hnv.
    congruence.
Qed.

Lemma vote_eligibility_frozen_witness :
  reachable Scenario.proposed ∧
  AgentQuorum.verifiedAgents
    (quorum (transact (Scenario.by_ Scenario.deployer 1500)
               (UnverifyAgent Scenario.agentB) Scenario.proposed))
    @ Scenario.agentB = false ∧
  ∃ q2, AgentQuorum.castVote (Scenario.by_ Scenario.agentB 2000) 0 true
          (quorum (transact (Scenario.by_ Scenario.deployer 1500)
                     (UnverifyAgent Scenario.agentB) Scenario.proposed)) = Ok q2 ∧
        hasVoted (AgentQuorum.proposals q2 @ 0) @ Scenario.agentB = true ∧
        voteChoice (AgentQuorum.proposals q2 @ 0) @ Scenario.agentB = true.
Proof.
  split; [apply proposed_reachable|].
  assert (0 < AgentQuorum.proposalCount (quorum Scenario.proposed)) as Hid
    by reflexivity.
  assert (status (AgentQuorum.proposals (quorum Scenario.proposed) @ 0) = Active)
    as Hst by reflexivity.
  assert (block_timestamp (Scenario.by_ Scenario.agentB 2000)
          ≤ votingDeadline (AgentQuorum.proposals (quorum Scenario.proposed) @ 0))
    as Hdl by (vm_compute; discriminate).
  assert (msg_sender (Scenario.by_ Scenario.agentB 2000)
          ∈ quorumMembers (AgentQuorum.proposals (quorum Scenario.proposed) @ 0))
    as Hin by (vm_compute; apply list_elem_of_In; right; left; reflexivity).
  destruct (proj1 (vote_eligibility_frozen Scenario.proposed
                     (Scenario.by_ Scenario.agentB 2000) 0 true
                     proposed_reachable Hid Hst Hdl) Hin eq_refl)
    as (_ & Hun & _ & Hv & Hc & _).
  destruct (Hun (Scenario.by_ Scenario.deployer 1500) _ eq_refl)
    as (Hoff & q2 & Hq2 & Hp & _).
  split; [exact Hoff|]. exists q2. split; [exact Hq2|].
  rewrite Hp. split; [exact Hv | exact Hc].
Defined.

(** ** The reputation counters cannot overflow *)

Lemma ids_elem n id : id ∈ ids n ↔ id < n.
Proof.
  unfold ids. rewrite list_elem_of_fmap. split.
  - intros (k & -> & Hk%elem_of_seq). lia.
  - intros Hlt. exists (N.to_nat id). split; [lia|]. apply elem_of_seq. lia.
Qed.

Lemma ids_nodup n : NoDup (ids n).
Proof.
  unfold ids. apply NoDup_fmap_2; [|apply NoDup_seq].
  intros x y. apply Nat2N.inj.
Qed.

Lemma ids_succ n : ids (n + 1) = ids n ++ [n].
Proof.
  unfold ids. replace (N.to_nat (n + 1)) with (N.to_nat n + 1)%nat by lia.
  rewrite seq_app, fmap_app. cbn. by rewrite N2Nat.id.
Qed.

Lemma ids_len n : len (ids n) = n.
Proof. unfold len, ids. rewrite length_fmap, length_seq. lia. Qed.

Lemma filter_length_strict {A} (P : A → Prop) `{!∀ x, Decision (P x)} x (l : list A) :
  x ∈ l → ¬ P x → (length (filter P l) < length l)%nat.
Proof.
  induction l as [|y l IH]; intros Hin Hx; [by apply elem_of_nil in Hin|].
  rewrite filter_cons. pose proof (length_filter P l).
  apply elem_of_cons in Hin as [->|Hin].
  - rewrite decide_False by done. cbn. lia.
  - specialize (IH Hin Hx). case_decide; cbn; lia.
Qed.

Lemma executed_below q id :
  id < AgentQuorum.proposalCount q → qstatus q id ≠ Executed →
  len (executed q) < AgentQuorum.proposalCount q.
Proof.
  intros Hid Hst. unfold executed.
  pose proof (filter_length_strict (λ id, qstatus q id = Executed) id
                (ids (AgentQuorum.proposalCount q))
                (proj2 (ids_elem _ _) Hid) Hst) as H.
  pose proof (ids_len (AgentQuorum.proposalCount q)) as Hl.
  unfold len in *. lia.
Qed.

Lemma executed_same q q' :
  AgentQuorum.proposalCount q' = AgentQuorum.proposalCount q →
  (∀ id, id < AgentQuorum.proposalCount q →
         qstatus q' id = Executed ↔ qstatus q id = Executed) →
  len (executed q') = len (executed q).
Proof.
  intros Hc Hst. unfold executed, len. rewrite Hc. f_equal.
  apply filter_length_same. intros id Hid%ids_elem. by apply Hst.
Qed.

Lemma reputation_bounded_same q q' :
  AgentQuorum.proposalCount q' = AgentQuorum.proposalCount q →
  AgentQuorum.agentReputation q' = AgentQuorum.agentReputation q →
  (∀ id, id < AgentQuorum.proposalCount q →
         qstatus q' id = Executed ↔ qstatus q id = Executed) →
  reputation_bounded q → reputation_bounded q'.
Proof.
  intros Hc Hr Hst Hb a. rewrite Hr, (executed_same q q' Hc Hst). apply Hb.
Qed.

Lemma qstep_reputation_bounded q q' :
  wf_quorum q → reputation_bounded q → qstep q q' → reputation_bounded q'.
Proof.
  intros Hwf Hb Hstep. destruct Hstep as
    [e f H|e a H|e a H|e n sy d ms id0 H|e id0 v H|e id0 H|e id0 H].
  - unfold AgentQuorum.setBondingCurveFactory in H. ok_inv H.
    by apply (reputation_bounded_same q).
  - unfold AgentQuorum.verifyAgent in H. ok_inv H.
    by apply (reputation_bounded_same q).
  - unfold AgentQuorum.unverifyAgent in H. ok_inv H.
    by apply (reputation_bounded_same q).
  - apply createProposal_inv in H as (_ & _ & _ & _ & _ & _ & -> & _ & _ & Hq').
    cbv zeta in Hq'.
    assert (AgentQuorum.proposalCount q' = AgentQuorum.proposalCount q + 1) as Hc
      by (by subst q').
    assert (AgentQuorum.agentReputation q' = AgentQuorum.agentReputation q) as Hr
      by (by subst q').
    intros a. rewrite Hr. etrans; [apply Hb|].
    unfold executed, len. rewrite Hc, ids_succ, filter_app, length_app.
    rewrite (filter_length_same (λ id, qstatus q id = Executed)
               (λ id, qstatus q' id = Executed)); [lia|].
    intros id Hid%ids_elem. unfold qstatus. subst q'. cbn.
    rewrite rd_insert_ne by lia. done.
  - apply castVote_inv in H as (_ & Hst & _ & _ & _ & ->).
    apply (reputation_bounded_same q); try done.
    intros id _. unfold qstatus. cbn.
    destruct (decide (id0 = id)) as [<-|Hne]; [|by rewrite rd_insert_ne].
    rewrite rd_insert, status_check_cases, Hst. cbn. rewrite Hst.
    destruct (0 <? _); [done|]. destruct (_ =? _); done.
  - apply finalizeProposal_inv in H as (_ & Hst & _ & [[_ ->]|[_ ->]]); [|done].
    apply (reputation_bounded_same q); try done.
    intros id _. unfold qstatus. cbn.
    destruct (decide (id0 = id)) as [<-|Hne]; [|by rewrite rd_insert_ne].
    rewrite rd_insert, Hst. done.
  - apply executeProposal_inv in H as (_ & Hst & r' & Hbump & Hq').
    pose proof (passed_allocated _ _ Hwf Hst) as Hid.
    pose proof (wf_nodup _ (wf_allocated _ Hwf _ Hid)) as Hnd.
    pose proof (bump_reputation_Ok _ _ _ Hbump Hnd) as Hrep.
    assert (len (executed q') = len (executed q) + 1) as Hlen.
    { unfold executed, len.
      replace (AgentQuorum.proposalCount q') with (AgentQuorum.proposalCount q)
        by (by subst q').
      rewrite (filter_length_one_more (λ id, qstatus q id = Executed)
                 (λ id, qstatus q' id = Executed) id0); [lia|..].
      - apply ids_nodup.
      - by apply ids_elem.
      - unfold qstatus. by rewrite Hst.
      - unfold qstatus. subst q'. cbn. by rewrite rd_insert.
      - intros id Hne. unfold qstatus. subst q'. cbn. by rewrite rd_insert_ne. }
    intros a. rewrite Hlen. subst q'. cbn. rewrite Hrep. specialize (Hb a).
    case_bool_decide; lia.
Qed.

Lemma reachable_reputation_bounded w : reachable w → reputation_bounded (quorum w).
Proof.
  induction 1 as [eQ eF qa fa fee router w _ H|e c w w' Hr IH H].
  - unfold deploy in H. ok_inv H. intros a. cbn. rewrite rd_empty.
    apply N.le_0_l.
  - apply exec_qstep in H as [H| ->]; [|done].
    by apply (qstep_reputation_bounded (quorum w)); [apply reachable_wf|..].
Qed.

(** While a proposal is Passed every reputation counter is below the
    maximum, so the increments of [executeProposal] do not overflow. *)
Lemma reputation_room w id a :
  reachable w → status_of w id = Passed →
  AgentQuorum.agentReputation (quorum w) @ a < UINT256_MAX.
Proof.
  intros Hr Hst. pose proof (reachable_wf _ Hr) as Hwf.
  pose proof (passed_allocated _ _ Hwf Hst) as Hid.
  pose proof (executed_below (quorum w) id Hid) as Hlt.
  unfold qstatus, status_of in *. rewrite Hst in Hlt. specialize (Hlt ltac:(done)).
  pose proof (reachable_reputation_bounded _ Hr a).
  pose proof (wf_count _ Hwf). lia.
Qed.

Lemma executeProposal_intro w e id :
  reachable w →
  msg_sender e = AgentQuorum.bondingCurveFactory (quorum w) →
  status_of w id = Passed →
  succeeds (AgentQuorum.executeProposal e id (quorum w)).
Proof.
  intros Hr He Hst. pose proof (reachable_wf _ Hr) as Hwf.
  unfold AgentQuorum.executeProposal.
  rewrite (proj2 (N.eqb_eq _ _) He). cbn.
  unfold status_of in Hst. rewrite bool_decide_eq_true_2 by done. cbn.
  destruct (bump_reputation_intro
              (quorumMembers (AgentQuorum.proposals (quorum w) @ id))
              (AgentQuorum.agentReputation (quorum w))) as [r' ->].
  - intros a _. by apply (reputation_room w id).
  - apply (wf_nodup _ (wf_allocated _ Hwf _ (passed_allocated _ _ Hwf Hst))).
  - cbn. by eexists.
Qed.

(** C5. [executeProposal] succeeds only for the registered factory and a
    Passed proposal, and reverts otherwise; in a ledger that can be reached it
    does succeed for them, a successful call leaves the proposal Executed
    and adds exactly one to the reputation counter of every member and
    nothing to any other counter; and every successful call that changes a
    reputation counter does so by running [executeProposal]. *)
Theorem execute_proposal w e id :
  reachable w →
  let q := quorum w in
  let p := AgentQuorum.proposals q @ id in
  (∀ q', AgentQuorum.executeProposal e id q = Ok q' →
     msg_sender e = AgentQuorum.bondingCurveFactory q ∧
     status p = Passed ∧
     qstatus q' id = Executed ∧
     (∀ a, a ∈ quorumMembers p →
        AgentQuorum.agentReputation q' @ a = AgentQuorum.agentReputation q @ a + 1) ∧
     (∀ a, a ∉ quorumMembers p →
        AgentQuorum.agentReputation q' @ a = AgentQuorum.agentReputation q @ a)) ∧
  (msg_sender e ≠ AgentQuorum.bondingCurveFactory q →
     AgentQuorum.executeProposal e id q = Revert "Only factory") ∧
  (msg_sender e = AgentQuorum.bondingCurveFactory q → status p ≠ Passed →
     AgentQuorum.executeProposal e id q = Revert "Proposal not passed") ∧
  (msg_sender e = AgentQuorum.bondingCurveFactory q → status p = Passed →
     succeeds (AgentQuorum.executeProposal e id q)) ∧
  (∀ e' c w', exec e' c w = Ok w' →
     AgentQuorum.agentReputation (quorum w') = AgentQuorum.agentReputation q ∨
     ∃ e'' id', AgentQuorum.executeProposal e'' id' q = Ok (quorum w')).
Proof.
  intros Hr q p. pose proof (reachable_wf _ Hr) as Hwf. fold q in Hwf.
  split; [|split; [|split; [|split]]].
  - intros q' H. apply executeProposal_inv in H as (Hs & Hst & r' & Hb & ->).
    fold p in Hb, Hst.
    pose proof (wf_nodup _ (wf_allocated _ Hwf id (passed_allocated _ _ Hwf Hst)))
      as Hnd. fold p in Hnd.
    pose proof (bump_reputation_Ok _ _ _ Hb Hnd) as Hrep.
    split; [done|]. split; [done|]. split; [|split].
    + unfold qstatus. cbn. by rewrite rd_insert.
    + intros a Ha. cbn. by rewrite Hrep, bool_decide_eq_true_2.
    + intros a Ha. cbn. by rewrite Hrep, bool_decide_eq_false_2.
  - apply executeProposal_not_factory.
  - apply executeProposal_not_passed.
  - intros He Hst. by apply executeProposal_intro.
  - intros e' c w'. apply exec_reputation.
Qed.

Lemma execute_proposal_witness :
  reachable Scenario.linked ∧
  AgentQuorum.agentReputation
    (quorum (transact (Scenario.by_ Scenario.factoryAddr 4000) (ExecuteProposal 0)
               Scenario.linked)) @ Scenario.agentB =
  AgentQuorum.agentReputation (quorum Scenario.linked) @ Scenario.agentB + 1.
Proof.
  split; [apply linked_reachable|].
  destruct (proj1 (execute_proposal Scenario.linked
                     (Scenario.by_ Scenario.factoryAddr 4000) 0 linked_reachable)
              (quorum (transact (Scenario.by_ Scenario.factoryAddr 4000)
                         (ExecuteProposal 0) Scenario.linked)) eq_refl)
    as (_ & _ & _ & Hin & _).
  apply Hin. vm_compute. apply list_elem_of_In. right. left. reflexivity.
Defined.

(** ** Launching a token *)

Lemma launchToken_inv e id token w tok w' :
  launchToken e id token w = Ok (tok, w') →
  id < AgentQuorum.proposalCount (quorum w) ∧
  status_of w id = Passed ∧
  BondingCurveFactory.proposalToToken (factory w) @ id = 0 ∧
  tok = token ∧
  AgentQuorum.executeProposal
    {| msg_sender := factoryAddress w; block_timestamp := block_timestamp e |}
    id (quorum w) = Ok (quorum w') ∧
  factory w' = BondingCurveFactory.record_token id token (factory w) ∧
  factoryAddress w' = factoryAddress w.
Proof.
  unfold launchToken, AgentQuorum.getProposal, AgentQuorum.proposalExists.
  intros H. ok_inv H. reflect_tests. done.
Qed.

Lemma launchToken_any_caller e e' id token w :
  launchToken e' id token w = launchToken e id token w.
Proof. reflexivity. Qed.

Lemma launchToken_intro e id token w :
  reachable w →
  status_of w id = Passed →
  BondingCurveFactory.proposalToToken (factory w) @ id = 0 →
  AgentQuorum.bondingCurveFactory (quorum w) = factoryAddress w →
  succeeds (launchToken e id token w).
Proof.
  intros Hr Hst Htok Hreg. pose proof (reachable_wf _ Hr) as Hwf.
  pose proof (passed_allocated _ _ Hwf Hst) as Hid.
  destruct (executeProposal_intro w
              {| msg_sender := factoryAddress w;
                 block_timestamp := block_timestamp e |} id Hr
              (eq_sym Hreg) Hst) as [q' Hq'].
  unfold launchToken, AgentQuorum.getProposal, AgentQuorum.proposalExists.
  rewrite (proj2 (N.ltb_lt _ _) Hid). cbn.
  unfold status_of in Hst. rewrite bool_decide_eq_true_2 by done. cbn.
  rewrite Htok. cbn. rewrite Hq'. cbn. by eexists.
Qed.

Lemma launchToken_not_passed e id token w :
  id < AgentQuorum.proposalCount (quorum w) → status_of w id ≠ Passed →
  launchToken e id token w = Revert "Proposal not passed".
Proof.
  intros Hid Hst.
  unfold launchToken, AgentQuorum.getProposal, AgentQuorum.proposalExists.
  rewrite (proj2 (N.ltb_lt _ _) Hid). cbn.
  unfold status_of in Hst. by rewrite bool_decide_eq_false_2.
Qed.

Lemma launchToken_unregistered e id token w :
  id < AgentQuorum.proposalCount (quorum w) → status_of w id = Passed →
  BondingCurveFactory.proposalToToken (factory w) @ id = 0 →
  AgentQuorum.bondingCurveFactory (quorum w) ≠ factoryAddress w →
  launchToken e id token w = Revert "Only factory".
Proof.
  intros Hid Hst Htok Hreg.
  unfold launchToken, AgentQuorum.getProposal, AgentQuorum.proposalExists.
  rewrite (proj2 (N.ltb_lt _ _) Hid). cbn.
  unfold status_of in Hst. rewrite bool_decide_eq_true_2 by done. cbn.
  rewrite Htok. cbn. rewrite executeProposal_not_factory; [done|]. cbn. congruence.
Qed.

Lemma executed_stays w w' id :
  reachable w → steps w w' → status_of w id = Executed → status_of w' id = Executed.
Proof.
  intros Hr Hs Hst. pose proof (steps_status w w' id Hr Hs) as Hle.
  unfold status_le in Hle. rewrite Hst in Hle. naive_solver.
Qed.

(** C10, as the claim states it: a launch would succeed for every caller as
    soon as the proposal is Passed and has no token. It fails while the
    quorum contract has another address, or none, registered as its
    factory. *)
Lemma launch_unregistered_factory :
  ¬ (∀ w e id token,
       reachable w →
       status_of w id = Passed →
       BondingCurveFactory.proposalToToken (factory w) @ id = 0 →
       succeeds (launchToken e id token w)).
Proof.
  intros H.
  destruct (H Scenario.passed (Scenario.by_ Scenario.outsider 4000) 0
              Scenario.tokenAddr passed_reachable eq_refl eq_refl) as [x Hx].
  vm_compute in Hx. discriminate Hx.
Qed.

(** C10, amended. In a ledger that can be reached, when the proposal is
    Passed, no token is recorded for it and the factory is the address
    registered in the quorum contract, [launchToken] succeeds for every
    caller, and its outcome does not depend on the caller; when another
    address is registered it reverts with "Only factory", the message of the
    check in [executeProposal]. *)
Theorem launch_any_caller w id :
  reachable w →
  status_of w id = Passed →
  BondingCurveFactory.proposalToToken (factory w) @ id = 0 →
  (AgentQuorum.bondingCurveFactory (quorum w) = factoryAddress w →
     ∀ e token, succeeds (launchToken e id token w) ∧
                ∀ e', launchToken e' id token w = launchToken e id token w) ∧
  (AgentQuorum.bondingCurveFactory (quorum w) ≠ factoryAddress w →
     ∀ e token, launchToken e id token w = Revert "Only factory").
Proof.
  intros Hr Hst Htok. split.
  - intros Hreg e token. split; [by apply launchToken_intro|].
    intros e'. apply launchToken_any_caller.
  - intros Hreg e token. apply launchToken_unregistered; try done.
    apply passed_allocated; [by apply reachable_wf | done].
Qed.

Lemma launch_any_caller_witness :
  reachable Scenario.linked ∧
  succeeds (launchToken (Scenario.by_ Scenario.outsider 4000) 0 Scenario.tokenAddr
              Scenario.linked).
Proof.
  split; [apply linked_reachable|].
  apply (proj1 (launch_any_caller Scenario.linked 0 linked_reachable
                  eq_refl eq_refl) eq_refl
           (Scenario.by_ Scenario.outsider 4000) Scenario.tokenAddr).
Defined.

(** ** The curve market *)

Module CurveMarketFacts.
Import CurveMarket.

Lemma sums_to_10000_total c : sums_to_10000 c = true ↔ total_bps c = 10000.
Proof. unfold sums_to_10000, total_bps. apply N.eqb_eq. Qed.

(** A product of an amount and a number of basis points, as a multiple of
    10000 and a rest. *)
Lemma share_rest base bps :
  ∃ r, base * bps = 10000 * share base bps + r ∧ r < 10000 ∧
       (r = 0 ↔ (base * bps) mod 10000 = 0).
Proof.
  exists ((base * bps) mod 10000). split; [apply N.Div0.div_mod|].
  split; [by apply N.mod_lt|done].
Qed.

Lemma share_rounded base bps : rounded_share base bps (share base bps).
Proof.
  unfold rounded_share. destruct (share_rest base bps) as (r & Heq & Hlt & _).
  lia.
Qed.

Lemma split_fees_bounds c base :
  total_bps c = 10000 →
  let '(pf, lf, af) := split_fees c base in
  pf + lf + af ≤ base ∧ base ≤ pf + lf + af + 2 ∧
  (pf + lf + af = base ↔
   (base * platformBps c) mod 10000 = 0 ∧
   (base * liquidityBps c) mod 10000 = 0 ∧
   (base * agentBps c) mod 10000 = 0).
Proof.
  unfold total_bps, split_fees. intros Hc.
  destruct (share_rest base (platformBps c)) as (rp & Hp & Hp' & <-).
  destruct (share_rest base (liquidityBps c)) as (rl & Hl & Hl' & <-).
  destruct (share_rest base (agentBps c)) as (ra & Ha & Ha' & <-).
  assert (base * platformBps c + base * liquidityBps c + base * agentBps c
          = base * 10000) as Hsum by (rewrite <- Hc; lia).
  lia.
Qed.

Lemma rounded_shares_bounds c base pf lf af :
  total_bps c = 10000 →
  rounded_share base (platformBps c) pf →
  rounded_share base (liquidityBps c) lf →
  rounded_share base (agentBps c) af →
  base ≤ pf + lf + af + 2 ∧ pf + lf + af ≤ base + 2.
Proof.
  unfold total_bps, rounded_share. intros Hc [Hp Hp'] [Hl Hl'] [Ha Ha'].
  assert (base * platformBps c + base * liquidityBps c + base * agentBps c
          = base * 10000) as Hsum by (rewrite <- Hc; lia).
  lia.
Qed.

Section curve.
Variable tokensFor : Market → N → N.
Variable refundFor : Market → N → N.
Variable feePortion : N → N.

Abbreviation buy := (buy tokensFor).
Abbreviation sell := (sell refundFor feePortion).
Abbreviation exec_op := (exec_op tokensFor refundFor feePortion).
Abbreviation apply_op := (apply_op tokensFor refundFor feePortion).
Abbreviation run_ops := (run_ops tokensFor refundFor feePortion).
Abbreviation history := (history tokensFor refundFor feePortion).

Lemma buy_inv e a m m' :
  buy e a m = Ok m' →
  graduated m = false ∧
  fees m' = fees m ∧
  ethRaised m' = ethRaised m + a ∧
  graduated m' = (if graduationThreshold m <=? ethRaised m' then true
                  else graduated m) ∧
  graduationThreshold m' = graduationThreshold m ∧
  ∃ t, trades m' = trades m ++ [t] ∧ fee_base t = a ∧
       (platform_fee t, liquidity_fee t, agent_fee t) = split_fees (fees m) a.
Proof.
  unfold CurveMarket.buy. intros H. ok_inv H. reflect_tests.
  destruct (split_fees (fees m) a) as [[pf lf] af] eqn:Hs.
  injection H as <-. cbn. repeat split; try done. eexists. split; [done|].
  cbn. done.
Qed.

Lemma sell_inv e a m m' :
  sell e a m = Ok m' →
  graduated m = false ∧
  fees m' = fees m ∧
  graduated m' = graduated m ∧
  ∃ t, trades m' = trades m ++ [t] ∧
       (platform_fee t, liquidity_fee t, agent_fee t) =
         split_fees (fees m) (fee_base t).
Proof.
  unfold CurveMarket.sell. intros H. ok_inv H. reflect_tests.
  destruct (split_fees _ _) as [[pf lf] af] eqn:Hs.
  injection H as <-. cbn. repeat split; try done. eexists. split; [done|].
  cbn. done.
Qed.

Lemma migrate_inv e m m' :
  migrate e m = Ok m' →
  msg_sender e = orchestrator m ∧
  fees m' = fees m ∧ trades m' = trades m ∧
  graduated m' = graduated m ∧ orchestrator m' = orchestrator m ∧
  migrated m' = true.
Proof.
  unfold migrate. intros H. ok_inv H. reflect_tests.
  destruct (migrated m) eqn:Hm.
  - injection H as <-. done.
  - ok_inv H. done.
Qed.

Lemma exec_op_fees_kept c e o m m' :
  fees_kept c m → exec_op e o m = Ok m' → fees_kept c m'.
Proof.
  intros [Hf Ht] H. destruct o as [a|a|]; cbn in H.
  - apply buy_inv in H as (_ & Hf' & _ & _ & _ & t & Htr & Hb & Hs).
    split; [congruence|]. intros t' Hin. rewrite Htr in Hin.
    apply elem_of_app in Hin as [Hin|Hin%list_elem_of_singleton]; [auto|].
    subst t'. by rewrite Hs, Hb, Hf.
  - apply sell_inv in H as (_ & Hf' & _ & t & Htr & Hs).
    split; [congruence|]. intros t' Hin. rewrite Htr in Hin.
    apply elem_of_app in Hin as [Hin|Hin%list_elem_of_singleton]; [auto|].
    subst t'. by rewrite Hs, Hf.
  - apply migrate_inv in H as (_ & Hf' & Htr & _).
    split; [congruence|]. rewrite Htr. done.
Qed.

Lemma run_ops_fees_kept c ops : ∀ m,
  fees_kept c m → fees_kept c (run_ops m ops).
Proof.
  induction ops as [|eo ops IH]; intros m Hk; cbn; [done|].
  apply IH. unfold CurveMarket.apply_op.
  destruct (exec_op eo.1 eo.2 m) eqn:H; try done.
  by eapply exec_op_fees_kept.
Qed.

Lemma create_inv e c cap threshold m :
  create e c cap threshold = Ok m →
  total_bps c = 10000 ∧ fees m = c ∧ trades m = [] ∧ graduated m = false.
Proof.
  unfold create. intros H. ok_inv H. by apply sums_to_10000_total in Hq.
Qed.


(** *** Graduation *)

Lemma exec_op_latch e o m m' :
  exec_op e o m = Ok m' → graduated m = true → graduated m' = true.
Proof.
  intros H Hg. destruct o as [a|a|]; cbn in H.
  - apply buy_inv in H as (? & _). congruence.
  - apply sell_inv in H as (? & _). congruence.
  - apply migrate_inv in H as (_ & _ & _ & ? & _). congruence.
Qed.

Lemma apply_op_latch m eo : graduated m = true → graduated (apply_op m eo) = true.
Proof.
  intros Hg. unfold CurveMarket.apply_op.
  destruct (exec_op eo.1 eo.2 m) eqn:H; try done. by eapply exec_op_latch.
Qed.

Lemma history_latch ops : ∀ m,
  graduated m = true → Forall (λ m', graduated m' = true) (history m ops).
Proof.
  induction ops as [|eo ops IH]; intros m Hg; cbn.
  - by constructor.
  - constructor; [done|]. apply IH. by apply apply_op_latch.
Qed.

Lemma flips_all_true l : Forall (λ b, b = true) l → flips l = 0%nat.
Proof.
  induction 1 as [|b l -> _ IH]; [done|]. cbn. destruct l; done.
Qed.

Lemma history_head m ops : ∃ rest, history m ops = m :: rest.
Proof. destruct ops; cbn; eauto. Qed.

Lemma flips_history ops : ∀ m,
  (flips (graduated <$> history m ops) ≤ 1)%nat.
Proof.
  induction ops as [|eo ops IH]; intros m.
  - cbn. destruct (graduated m); cbn; lia.
  - destruct (graduated m) eqn:Hg.
    + rewrite flips_all_true; [lia|].
      rewrite Forall_fmap. by apply history_latch.
    + specialize (IH (apply_op m eo)).
      change (history m (eo :: ops)) with (m :: history (apply_op m eo) ops).
      rewrite fmap_cons, Hg.
      destruct (history_head (apply_op m eo) ops) as [rest Hh].
      destruct (graduated (apply_op m eo)) eqn:Hg'.
      * pose proof (history_latch ops (apply_op m eo) Hg') as Hall.
        rewrite Hh in *. rewrite fmap_cons, Hg' in *.
        change (S (flips (true :: (graduated <$> rest))) ≤ 1)%nat.
        rewrite flips_all_true; [lia|].
        apply Forall_cons in Hall as [_ Hall].
        constructor; [done|]. rewrite Forall_fmap. exact Hall.
      * rewrite Hh in *. rewrite fmap_cons, Hg' in *. exact IH.
Qed.

(** C8. A successful buy that brings [ethRaised] to the threshold leaves
    the market graduated; along any run of operations the flag goes from
    false to true at most once and, once true, is true in every later
    state; a graduated market rejects every buy and every sell with
    MarketClosed, and the rejected operation leaves the market as it
    was; and once a migration has succeeded, a further migration call
    of the orchestrator succeeds and changes nothing. *)
Theorem graduation_latch m :
  (∀ e a m', buy e a m = Ok m' →
     ethRaised m' = ethRaised m + a ∧
     (graduationThreshold m ≤ ethRaised m' → graduated m' = true)) ∧
  (∀ ops, (flips (graduated <$> history m ops) ≤ 1)%nat) ∧
  (graduated m = true →
     (∀ ops, Forall (λ m', graduated m' = true) (history m ops)) ∧
     (∀ e a, buy e a m = Revert "MarketClosed" ∧
             sell e a m = Revert "MarketClosed" ∧
             apply_op m (e, Buy a) = m ∧ apply_op m (e, Sell a) = m)) ∧
  (∀ e m1, migrate e m = Ok m1 →
     migrated m1 = true ∧
     ∀ e', msg_sender e' = orchestrator m1 →
           migrate e' m1 = Ok m1 ∧ apply_op m1 (e', Migrate) = m1).
Proof.
  split; [|split; [|split]].
  - intros e a m' H. apply buy_inv in H as (Hg & _ & Hr & Hg' & _).
    split; [done|]. intros Hle. rewrite Hg'.
    by rewrite (proj2 (N.leb_le _ _) Hle).
  - intros ops. apply flips_history.
  - intros Hg. split; [intros ops; by apply history_latch|].
    intros e a.
    assert (buy e a m = Revert "MarketClosed") as Hb
      by (unfold CurveMarket.buy; by rewrite Hg).
    assert (sell e a m = Revert "MarketClosed") as Hs
      by (unfold CurveMarket.sell; by rewrite Hg).
    unfold CurveMarket.apply_op. cbn. rewrite Hb, Hs. done.
  - intros e m1 H. apply migrate_inv in H as (_ & _ & _ & _ & _ & Hm).
    split; [done|]. intros e' He'.
    assert (migrate e' m1 = Ok m1) as Hmig.
    { unfold migrate. rewrite (proj2 (N.eqb_eq _ _) He'). cbn. by rewrite Hm. }
    split; [done|]. unfold CurveMarket.apply_op. cbn. by rewrite Hmig.
Qed.

End curve.
End CurveMarketFacts.



Lemma graduation_latch_witness :
  CurveMarket.graduated MarketScenario.after_two_buys = true ∧
  CurveMarket.buy MarketScenario.tokensFor MarketScenario.trader
    MarketScenario.ether MarketScenario.after_two_buys = Revert "MarketClosed".
Proof.
  split; [reflexivity|].
  apply (proj2 (proj1 (proj2 (proj2 (CurveMarketFacts.graduation_latch
           MarketScenario.tokensFor MarketScenario.refundFor
           MarketScenario.feePortion MarketScenario.after_two_buys))) eq_refl)
           MarketScenario.trader MarketScenario.ether).
Defined.


(** * Further properties of the contracts *)

(** ** One call, one proposal *)

Lemma create_proposal_valid_of e n sy d ms q id q' :
  AgentQuorum.createProposal e n sy d ms q = Ok (id, q') →
  createProposal_valid e ms q ∧ id = AgentQuorum.proposalCount q.
Proof.
  intros H.
  apply createProposal_inv in H as (Hv & Hmin & Hmax & Hall & Hnd & Hin & -> & _).
  rewrite Forall_forall in Hall. done.
Qed.

Lemma qstep_pchange q q' id :
  wf_quorum q → qstep q q' →
  pchange q id (AgentQuorum.proposals q @ id) (AgentQuorum.proposals q' @ id).
Proof.
  intros Hwf Hstep. destruct Hstep as
    [e f H|e a H|e a H|e n sy d ms id0 H|e id0 v H|e id0 H|e id0 H].
  - unfold AgentQuorum.setBondingCurveFactory in H. ok_inv H. by apply pchange_none.
  - unfold AgentQuorum.verifyAgent in H. ok_inv H. by apply pchange_none.
  - unfold AgentQuorum.unverifyAgent in H. ok_inv H. by apply pchange_none.
  - pose proof (proj1 (create_proposal_valid_of e n sy d ms q id0 _ H)) as Hvalid.
    apply createProposal_inv in H as (_ & _ & _ & _ & _ & _ & -> & _ & Ht & Hq').
    cbv zeta in Hq'. subst q'. cbn.
    destruct (decide (AgentQuorum.proposalCount q = id)) as [<-|Hne].
    + rewrite rd_insert. eapply pchange_created; try done.
      apply (wf_free _ Hwf). lia.
    + rewrite rd_insert_ne by done. by apply pchange_none.
  - apply castVote_inv in H as (Hid & Hst & Hdl & Hin & Hv & ->). cbn.
    destruct (decide (id0 = id)) as [<-|Hne].
    + rewrite rd_insert. by eapply pchange_voted.
    + rewrite rd_insert_ne by done. by apply pchange_none.
  - apply finalizeProposal_inv in H as (Hid & Hst & Hdl & [[_ ->]|[_ ->]]);
      [|by apply pchange_none].
    cbn. destruct (decide (id0 = id)) as [<-|Hne].
    + rewrite rd_insert. by eapply pchange_finalized.
    + rewrite rd_insert_ne by done. by apply pchange_none.
  - apply executeProposal_inv in H as (_ & Hst & r' & _ & ->). cbn.
    destruct (decide (id0 = id)) as [<-|Hne].
    + rewrite rd_insert. apply pchange_executed; try done.
      by apply passed_allocated.
    + rewrite rd_insert_ne by done. by apply pchange_none.
Qed.

Lemma qstep_count_cases q q' :
  qstep q q' →
  AgentQuorum.proposalCount q' = AgentQuorum.proposalCount q ∨
  ∃ e n sy d ms,
    AgentQuorum.createProposal e n sy d ms q = Ok (AgentQuorum.proposalCount q, q').
Proof.
  intros Hstep. destruct Hstep as
    [e f H|e a H|e a H|e n sy d ms id0 H|e id0 v H|e id0 H|e id0 H].
  - unfold AgentQuorum.setBondingCurveFactory in H. ok_inv H. by left.
  - unfold AgentQuorum.verifyAgent in H. ok_inv H. by left.
  - unfold AgentQuorum.unverifyAgent in H. ok_inv H. by left.
  - right. pose proof (proj2 (create_proposal_valid_of _ _ _ _ _ _ _ _ H)) as ->.
    eauto 10.
  - apply castVote_inv in H as (_ & _ & _ & _ & _ & ->). by left.
  - apply finalizeProposal_inv in H as (_ & _ & _ & [[_ ->]|[_ ->]]); by left.
  - apply executeProposal_inv in H as (_ & _ & r' & _ & ->). by left.
Qed.

Lemma createProposal_count e n sy d ms q id q' :
  AgentQuorum.createProposal e n sy d ms q = Ok (id, q') →
  AgentQuorum.proposalCount q' = AgentQuorum.proposalCount q + 1.
Proof.
  intros H. apply createProposal_inv in H as (_ & _ & _ & _ & _ & _ & _ & _ & _ & Hq').
  cbv zeta in Hq'. by subst q'.
Qed.

Lemma qstep_count_le q q' :
  qstep q q' → AgentQuorum.proposalCount q ≤ AgentQuorum.proposalCount q'.
Proof.
  intros [->|(e & n & sy & d & ms & H)]%qstep_count_cases; [done|].
  rewrite (createProposal_count _ _ _ _ _ _ _ _ H). lia.
Qed.

(** ** Soundness of the stored proposals *)

Lemma checked_fields p :
  let p' := AgentQuorum._checkProposalStatus p in
  proposalId p' = proposalId p ∧ proposer p' = proposer p ∧
  tokenName p' = tokenName p ∧ tokenSymbol p' = tokenSymbol p ∧
  description p' = description p ∧ quorumMembers p' = quorumMembers p ∧
  hasVoted p' = hasVoted p ∧ voteChoice p' = voteChoice p ∧
  yesVotes p' = yesVotes p ∧ noVotes p' = noVotes p ∧
  createdAt p' = createdAt p ∧ votingDeadline p' = votingDeadline p.
Proof.
  unfold AgentQuorum._checkProposalStatus.
  destruct (0 <? noVotes p); [done|]. destruct (_ =? _); done.
Qed.

Lemma pchange_sound q id p' :
  let p := AgentQuorum.proposals q @ id in
  (id < AgentQuorum.proposalCount q → proposal_sound id p) →
  pchange q id p p' →
  (p' = p ∧ AgentQuorum.proposalCount q ≤ id) ∨ proposal_sound id p'.
Proof.
  intros p Hs Hch.
  destruct Hch as [->|e n sy d ms Hid Hnone Hvalid Ht ->|e vote Hid Hst Hdl Hin Hv ->
                  |e Hid Hst Hdl ->|Hid Hst ->].
  - destruct (N.lt_ge_cases id (AgentQuorum.proposalCount q)); [right|left]; auto.
  - right. assert (p = zero) as -> by (by apply rd_free).
    destruct Hvalid as (_ & _ & _ & _ & _ & Hin).
    constructor; cbn; try done;
      try (intros a; by rewrite rd_empty); try (split; [lia | done]).
  - right. specialize (Hs Hid). destruct Hs as [Hpid Hprop Hd Hvs Hno].
    pose proof (checked_fields (record_vote (msg_sender e) vote p))
      as (E1 & E2 & _ & _ & _ & E6 & E7 & _ & _ & E10 & E11 & E12).
    cbv zeta in *. constructor.
    + by rewrite E1.
    + by rewrite E2, E6.
    + by rewrite E11, E12.
    + intros a. rewrite E7, E6. cbn.
      destruct (decide (msg_sender e = a)) as [<-|Hne]; [done|].
      rewrite rd_insert_ne by done. apply Hvs.
    + rewrite E10, status_check_cases. cbn.
      assert (noVotes p = 0) as Hz.
      { destruct Hno as [Hle1 Hf].
        destruct (decide (noVotes p = 1)) as [H1|H1]; [|lia].
        specialize (Hf H1). congruence. }
      rewrite Hz. destruct vote; cbn; [split; [lia|done]|]. done.
  - right. specialize (Hs Hid). destruct Hs as [Hpid Hprop Hd Hvs Hno].
    constructor; cbn; try done. split; [tauto | done].
  - right. specialize (Hs Hid). destruct Hs as [Hpid Hprop Hd Hvs Hno].
    constructor; cbn; try done. split; [tauto|].
    intros H1. destruct Hno as [_ Hf]. specialize (Hf H1). congruence.
Qed.

Lemma qstep_sound q q' :
  wf_quorum q → quorum_sound q → qstep q q' → quorum_sound q'.
Proof.
  intros Hwf Hs Hstep id Hid'.
  pose proof (qstep_pchange q q' id Hwf Hstep) as Hch.
  destruct (qstep_count_cases q q' Hstep) as [Hc|(e & n & sy & d & ms & H)].
  - rewrite Hc in Hid'.
    destruct (pchange_sound q id _ (λ _, Hs id Hid') Hch) as [[_ Hge]|Hok];
      [lia | done].
  - rewrite (createProposal_count _ _ _ _ _ _ _ _ H) in Hid'.
    destruct (pchange_sound q id _ (Hs id) Hch) as [[Heq Hge]|Hok]; [|done].
    assert (id = AgentQuorum.proposalCount q) as -> by lia.
    apply createProposal_inv in H as (_ & _ & _ & _ & _ & _ & _ & _ & _ & Hq').
    cbv zeta in Hq'. rewrite Hq' in Heq. cbn in Heq. rewrite rd_insert in Heq.
    pose proof (rd_free q _ (wf_free _ Hwf _ (N.le_refl _))) as Hz.
    rewrite Hz in Heq. apply (f_equal quorumMembers) in Heq. cbn in Heq.
    pose proof (wf_allocated _ (qstep_wf _ _ Hwf Hstep) (AgentQuorum.proposalCount q))
      as Hwf'.
    rewrite Hq' in Hwf'. cbn in Hwf'. rewrite rd_insert in Hwf'.
    specialize (Hwf' ltac:(lia)). destruct Hwf' as [_ Hmin _ _ _ _].
    cbn in Hmin. rewrite Heq in Hmin. unfold MIN_QUORUM_SIZE, len in Hmin.
    cbn in Hmin. lia.
Qed.

Lemma reachable_sound w : reachable w → quorum_sound (quorum w).
Proof.
  induction 1 as [eQ eF qa fa fee router w _ H|e c w w' Hr IH H].
  - unfold deploy in H. ok_inv H. intros id Hid. cbn in Hid. lia.
  - apply exec_qstep in H as [H| ->]; [|done].
    by apply (qstep_sound (quorum w)); [apply reachable_wf|..].
Qed.

Lemma same_terms_refl p : same_terms p p.
Proof. by constructor. Qed.

Lemma same_terms_trans p1 p2 p3 :
  same_terms p1 p2 → same_terms p2 p3 → same_terms p1 p3.
Proof.
  intros [] []. constructor; try congruence.
  intros a Ha. destruct (same_votes0 a Ha) as [H1 H2].
  destruct (same_votes1 a H1) as [H3 H4]. split; congruence.
Qed.

Lemma pchange_same_terms q id p p' :
  id < AgentQuorum.proposalCount q → pchange q id p p' → same_terms p p'.
Proof.
  intros Hid Hch.
  destruct Hch as [->|e n sy d ms Hid' _ _ _ _|e vote _ Hst Hdl Hin Hv ->
                  |e _ Hst Hdl ->|_ Hst ->].
  - apply same_terms_refl.
  - lia.
  - pose proof (checked_fields (record_vote (msg_sender e) vote p))
      as (E1 & E2 & E3 & E4 & E5 & E6 & E7 & E8 & _ & _ & E11 & E12).
    cbv zeta in *. constructor; try done.
    intros a Ha. rewrite E7, E8. cbn.
    assert (msg_sender e ≠ a) as Hne by (intros <-; congruence).
    by rewrite !rd_insert_ne.
  - by constructor.
  - by constructor.
Qed.

Lemma exec_pchange e c w w' id :
  reachable w → exec e c w = Ok w' →
  pchange (quorum w) id (AgentQuorum.proposals (quorum w) @ id)
    (AgentQuorum.proposals (quorum w') @ id).
Proof.
  intros Hr H. apply exec_qstep in H as [H| ->].
  - apply qstep_pchange; [by apply reachable_wf | done].
  - by apply pchange_none.
Qed.

Lemma exec_count_le e c w w' :
  exec e c w = Ok w' →
  AgentQuorum.proposalCount (quorum w) ≤ AgentQuorum.proposalCount (quorum w').
Proof.
  intros H. apply exec_qstep in H as [H| ->]; [by apply qstep_count_le | done].
Qed.

Lemma steps_same_terms w w' id :
  reachable w → steps w w' →
  id < AgentQuorum.proposalCount (quorum w) →
  id < AgentQuorum.proposalCount (quorum w') ∧
  same_terms (AgentQuorum.proposals (quorum w) @ id)
             (AgentQuorum.proposals (quorum w') @ id).
Proof.
  intros Hr Hs. induction Hs as [|e c w w' w'' H _ IH]; intros Hid.
  - split; [done | apply same_terms_refl].
  - pose proof (exec_count_le _ _ _ _ H) as Hle.
    destruct (IH (reachable_step _ _ _ _ Hr H) ltac:(lia)) as [Hid'' Hst].
    split; [done|]. eapply same_terms_trans; [|exact Hst].
    eapply pchange_same_terms; [exact Hid|]. by eapply exec_pchange.
Qed.

Lemma steps_reachable w w' : reachable w → steps w w' → reachable w'.
Proof.
  intros Hr Hs. induction Hs as [|e c w w' w'' H _ IH]; [done|].
  apply IH. by eapply reachable_step.
Qed.

Lemma transact_steps e c w : steps w (transact e c w).
Proof.
  unfold transact. destruct (exec e c w) eqn:H; try apply steps_refl.
  eapply steps_cons; [exact H | apply steps_refl].
Qed.

Lemma steps_trans w1 w2 w3 : steps w1 w2 → steps w2 w3 → steps w1 w3.
Proof.
  intros H1 H2. induction H1 as [|e c w w' w'' H _ IH]; [done|].
  eapply steps_cons; [exact H | by apply IH].
Qed.

Lemma run_steps txs : ∀ w, steps w (run txs w).
Proof.
  unfold run. induction txs as [|tx txs IH]; intros w; cbn; [apply steps_refl|].
  eapply steps_trans; [apply transact_steps | apply IH].
Qed.

(** ** The terms of a proposal *)

(** X1. Once a proposal exists it exists in every later ledger, under the
    same id, with the same members, proposer, token name and symbol,
    description, creation time and deadline, so that [isQuorumMember] gives
    the same answer for ever; its stored id is its key, its proposer is one of
    its members and its deadline is 604800 seconds after its creation. *)
Theorem proposal_terms_fixed w w' id :
  reachable w → steps w w' →
  id < AgentQuorum.proposalCount (quorum w) →
  let p := AgentQuorum.proposals (quorum w) @ id in
  let p' := AgentQuorum.proposals (quorum w') @ id in
  id < AgentQuorum.proposalCount (quorum w') ∧
  (proposalId p = id ∧ proposer p ∈ quorumMembers p ∧
   votingDeadline p = createdAt p + 604800) ∧
  (quorumMembers p' = quorumMembers p ∧ proposer p' = proposer p ∧
   tokenName p' = tokenName p ∧ tokenSymbol p' = tokenSymbol p ∧
   description p' = description p ∧ createdAt p' = createdAt p ∧
   votingDeadline p' = votingDeadline p) ∧
  (∀ a, AgentQuorum.isQuorumMember id a (quorum w') =
        AgentQuorum.isQuorumMember id a (quorum w)) ∧
  (∀ a, AgentQuorum.isQuorumMember id a (quorum w) =
        Ok (bool_decide (a ∈ quorumMembers p))).
Proof.
  intros Hr Hs Hid p p'.
  destruct (steps_same_terms w w' id Hr Hs Hid) as [Hid' Hst]. fold p p' in Hst.
  destruct (reachable_sound w Hr id Hid) as [S1 S2 S3 _ _]. fold p in S1, S2, S3.
  destruct Hst as [T1 T2 T3 T4 T5 T6 T7 T8 _].
  assert (∀ a (q : AgentQuorum.state), id < AgentQuorum.proposalCount q →
            AgentQuorum.isQuorumMember id a q =
            Ok (bool_decide (a ∈ quorumMembers (AgentQuorum.proposals q @ id))))
    as Hview.
  { intros a q Hq. unfold AgentQuorum.isQuorumMember, AgentQuorum.proposalExists.
    rewrite (proj2 (N.ltb_lt _ _) Hq). cbn. f_equal.
    destruct (AgentQuorum.in_quorum a _) eqn:Hin.
    - apply in_quorum_spec in Hin. by rewrite bool_decide_eq_true_2.
    - rewrite bool_decide_eq_false_2; [done|].
      intros Hin'%in_quorum_spec. congruence. }
  split; [done|]. split; [done|]. split; [done|]. split.
  - intros a. rewrite !Hview by done. fold p p'. by rewrite T6.
  - intros a. by apply Hview.
Qed.

Lemma proposal_terms_fixed_witness :
  reachable Scenario.proposed ∧
  steps Scenario.proposed Scenario.launched ∧
  quorumMembers (AgentQuorum.proposals (quorum Scenario.launched) @ 0) =
  quorumMembers (AgentQuorum.proposals (quorum Scenario.proposed) @ 0).
Proof.
  assert (steps Scenario.proposed Scenario.launched) as Hs.
  { unfold Scenario.launched. eapply steps_trans; [|apply run_steps].
    unfold Scenario.linked. eapply steps_trans; [|apply run_steps].
    unfold Scenario.passed. eapply steps_trans; [|apply run_steps].
    unfold Scenario.two_yes. apply run_steps. }
  split; [apply proposed_reachable|]. split; [exact Hs|].
  destruct (proposal_terms_fixed Scenario.proposed Scenario.launched 0
              proposed_reachable Hs eq_refl) as (_ & _ & (Hm & _) & _).
  exact Hm.
Defined.

(** ** Recorded votes *)

Lemma getVote_voted q id a :
  id < AgentQuorum.proposalCount q →
  hasVoted (AgentQuorum.proposals q @ id) @ a = true →
  QuorumViews.getVote id a q = Ok (voteChoice (AgentQuorum.proposals q @ id) @ a) ∧
  QuorumViews.hasVoted id a q = Ok true.
Proof.
  intros Hid Hv. unfold QuorumViews.getVote, QuorumViews.hasVoted,
    AgentQuorum.proposalExists.
  rewrite (proj2 (N.ltb_lt _ _) Hid). cbn. by rewrite Hv.
Qed.

Lemma castVote_recorded e id vote q q' :
  AgentQuorum.castVote e id vote q = Ok q' →
  hasVoted (AgentQuorum.proposals q' @ id) @ msg_sender e = true ∧
  voteChoice (AgentQuorum.proposals q' @ id) @ msg_sender e = vote.
Proof.
  intros H. apply castVote_inv in H as (_ & _ & _ & _ & _ & Hq).
  rewrite Hq. cbn. rewrite rd_insert.
  pose proof (checked_fields (record_vote (msg_sender e) vote
                (AgentQuorum.proposals q @ id)))
    as (_ & _ & _ & _ & _ & _ & E7 & E8 & _).
  cbv zeta in *. rewrite E7, E8. cbn. by rewrite !rd_insert.
Qed.

(** X2. A vote that was cast can be read back for ever: in every later
    ledger [hasVoted] answers true and [getVote] the choice that was cast,
    and no further [castVote] of the same voter on that proposal
    succeeds. *)
Theorem vote_is_final w e id vote w1 w2 :
  reachable w →
  exec e (CastVote id vote) w = Ok w1 →
  steps w1 w2 →
  QuorumViews.hasVoted id (msg_sender e) (quorum w2) = Ok true ∧
  QuorumViews.getVote id (msg_sender e) (quorum w2) = Ok vote ∧
  ∀ e' vote', msg_sender e' = msg_sender e →
              ¬ succeeds (AgentQuorum.castVote e' id vote' (quorum w2)).
Proof.
  intros Hr H Hs.
  assert (reachable w1) as Hr1 by (by eapply reachable_step).
  pose proof (exec_castVote _ _ _ _ _ H) as Hc.
  pose proof Hc as Hinv. apply castVote_inv in Hinv as (Hid & _).
  destruct (castVote_recorded _ _ _ _ _ Hc) as [Hv Hch].
  assert (id < AgentQuorum.proposalCount (quorum w1)) as Hid1
    by (pose proof (exec_count_le _ _ _ _ H); lia).
  destruct (steps_same_terms w1 w2 id Hr1 Hs Hid1) as [Hid2 [_ _ _ _ _ _ _ _ Hvotes]].
  destruct (Hvotes _ Hv) as [Hv2 Hc2].
  destruct (getVote_voted _ _ _ Hid2 Hv2) as [Hg Hh].
  split; [done|]. split; [by rewrite Hg, Hc2, Hch|].
  intros e' vote' He' [q3 H3]. apply castVote_inv in H3 as (_ & _ & _ & _ & Hnv & _).
  rewrite He' in Hnv. congruence.
Qed.

Lemma vote_is_final_witness :
  reachable Scenario.proposed ∧
  QuorumViews.getVote 0 Scenario.agentB (quorum Scenario.passed) = Ok true.
Proof.
  split; [apply proposed_reachable|].
  refine (proj1 (proj2 (vote_is_final Scenario.proposed
            (Scenario.by_ Scenario.agentB 2000) 0 true
            (transact (Scenario.by_ Scenario.agentB 2000) (CastVote 0 true)
               Scenario.proposed)
            Scenario.passed proposed_reachable eq_refl _))).
  change Scenario.passed with
    (run [(Scenario.by_ Scenario.agentC 2001, CastVote 0 true);
          (Scenario.by_ Scenario.agentA 2002, CastVote 0 true)]
       (transact (Scenario.by_ Scenario.agentB 2000) (CastVote 0 true)
          Scenario.proposed)).
  apply run_steps.
Defined.

Lemma tally_voters p : tally p true + tally p false = len (voters p).
Proof.
  unfold tally, voters, len.
  induction (quorumMembers p) as [|a l IH]; [done|].
  rewrite !filter_cons.
  repeat case_decide; unfold voted_as in *; cbn [length]; try lia; exfalso;
    destruct (hasVoted p @ a), (voteChoice p @ a); naive_solver.
Qed.

(** X3. In every ledger that can be reached only members of a proposal
    have a recorded vote on it, the yes and no counters together count the
    members that voted, there is at most one no vote, and a proposal with a
    no vote is Failed; [getVote] reverts with "Has not voted" for whoever
    has no recorded vote, every non-member included. *)
Theorem votes_counted w id :
  reachable w →
  id < AgentQuorum.proposalCount (quorum w) →
  let p := AgentQuorum.proposals (quorum w) @ id in
  (∀ a, hasVoted p @ a = true → a ∈ quorumMembers p) ∧
  yesVotes p + noVotes p = len (voters p) ∧
  yesVotes p + noVotes p ≤ len (quorumMembers p) ∧
  noVotes p ≤ 1 ∧
  (0 < noVotes p → status p = Failed) ∧
  (∀ a, hasVoted p @ a = false →
        QuorumViews.getVote id a (quorum w) = Revert "Has not voted") ∧
  (∀ a, a ∉ quorumMembers p →
        QuorumViews.getVote id a (quorum w) = Revert "Has not voted" ∧
        QuorumViews.hasVoted id a (quorum w) = Ok false).
Proof.
  intros Hr Hid p.
  destruct (reachable_sound w Hr id Hid) as [_ _ _ Hvs [Hle Hf]]. fold p in Hvs, Hle, Hf.
  destruct (wf_allocated _ (reachable_wf _ Hr) id Hid) as [_ _ _ Hy Hn _].
  fold p in Hy, Hn. pose proof (tally_voters p) as Ht.
  pose proof (tally_bounds p) as Hb.
  assert (∀ a, hasVoted p @ a = false →
               QuorumViews.getVote id a (quorum w) = Revert "Has not voted") as Hg.
  { intros a Ha. unfold QuorumViews.getVote, AgentQuorum.proposalExists.
    rewrite (proj2 (N.ltb_lt _ _) Hid). cbn. fold p. by rewrite Ha. }
  split; [done|]. split; [lia|]. split; [lia|]. split; [done|].
  split; [intros ?; apply Hf; lia|]. split; [done|].
  intros a Ha. assert (hasVoted p @ a = false) as Hnv.
  { destruct (hasVoted p @ a) eqn:E; [|done]. by apply Hvs in E. }
  split; [by apply Hg|].
  unfold QuorumViews.hasVoted, AgentQuorum.proposalExists.
  rewrite (proj2 (N.ltb_lt _ _) Hid). cbn. fold p. by rewrite Hnv.
Qed.

Lemma votes_counted_witness :
  reachable Scenario.two_yes ∧
  QuorumViews.getVote 0 Scenario.agentA (quorum Scenario.two_yes)
    = Revert "Has not voted".
Proof.
  split; [apply two_yes_reachable|].
  apply (proj1 (proj2 (proj2 (proj2 (proj2 (proj2
           (votes_counted Scenario.two_yes 0 two_yes_reachable eq_refl))))))).
  reflexivity.
Defined.

(** ** The outcomes of voting and finalizing *)

Lemma castVote_late e id vote q :
  id < AgentQuorum.proposalCount q →
  status (AgentQuorum.proposals q @ id) = Active →
  votingDeadline (AgentQuorum.proposals q @ id) < block_timestamp e →
  AgentQuorum.castVote e id vote q = Revert "Voting period ended".
Proof.
  intros Hid Hst Hdl.
  unfold AgentQuorum.castVote, AgentQuorum.proposalExists, AgentQuorum.proposalActive.
  rewrite (proj2 (N.ltb_lt _ _) Hid). cbn.
  rewrite bool_decide_eq_true_2 by done. cbn.
  by rewrite (proj2 (N.leb_gt _ _) Hdl).
Qed.

(** X4. In a ledger that can be reached [castVote] reverts with "Proposal
    does not exist" for an id that was not assigned, else with "Proposal not
    active" unless the proposal is Active, else with "Voting period ended"
    after the deadline, else with "Not a quorum member" for a caller outside
    the stored list, else with "Already voted" for a member with a recorded
    vote, and succeeds in the one remaining case. *)
Theorem castVote_outcome w e id vote :
  reachable w →
  let q := quorum w in
  let p := AgentQuorum.proposals q @ id in
  (AgentQuorum.proposalCount q ≤ id →
     AgentQuorum.castVote e id vote q = Revert "Proposal does not exist") ∧
  (id < AgentQuorum.proposalCount q → status p ≠ Active →
     AgentQuorum.castVote e id vote q = Revert "Proposal not active") ∧
  (id < AgentQuorum.proposalCount q → status p = Active →
     votingDeadline p < block_timestamp e →
     AgentQuorum.castVote e id vote q = Revert "Voting period ended") ∧
  (id < AgentQuorum.proposalCount q → status p = Active →
     block_timestamp e ≤ votingDeadline p → msg_sender e ∉ quorumMembers p →
     AgentQuorum.castVote e id vote q = Revert "Not a quorum member") ∧
  (id < AgentQuorum.proposalCount q → status p = Active →
     block_timestamp e ≤ votingDeadline p → msg_sender e ∈ quorumMembers p →
     hasVoted p @ msg_sender e = true →
     AgentQuorum.castVote e id vote q = Revert "Already voted") ∧
  (id < AgentQuorum.proposalCount q → status p = Active →
     block_timestamp e ≤ votingDeadline p → msg_sender e ∈ quorumMembers p →
     hasVoted p @ msg_sender e = false →
     succeeds (AgentQuorum.castVote e id vote q)).
Proof.
  intros Hr q p.
  unfold AgentQuorum.castVote, AgentQuorum.proposalExists, AgentQuorum.proposalActive.
  fold p. repeat split.
  - intros Hge. by rewrite (proj2 (N.ltb_ge _ _) Hge).
  - intros Hid Hst. rewrite (proj2 (N.ltb_lt _ _) Hid). cbn.
    by rewrite bool_decide_eq_false_2.
  - intros Hid Hst Hdl. rewrite (proj2 (N.ltb_lt _ _) Hid). cbn.
    rewrite bool_decide_eq_true_2 by done. cbn.
    by rewrite (proj2 (N.leb_gt _ _) Hdl).
  - intros Hid Hst Hdl Hin. rewrite (proj2 (N.ltb_lt _ _) Hid). cbn.
    rewrite bool_decide_eq_true_2 by done. cbn.
    rewrite (proj2 (N.leb_le _ _) Hdl). cbn.
    destruct (AgentQuorum.in_quorum _ _) eqn:E; [|done].
    by apply in_quorum_spec in E.
  - intros Hid Hst Hdl Hin Hv. rewrite (proj2 (N.ltb_lt _ _) Hid). cbn.
    rewrite bool_decide_eq_true_2 by done. cbn.
    rewrite (proj2 (N.leb_le _ _) Hdl). cbn.
    rewrite (proj2 (in_quorum_spec _ _) Hin). cbn. by rewrite Hv.
  - intros Hid Hst Hdl Hin Hv.
    pose proof (wf_votes_small _ (wf_allocated _ (reachable_wf _ Hr) id Hid)) as Hsm.
    fold q p in Hsm. eexists. apply castVote_intro; try done. fold q p.
    unfold UINT256_MAX. destruct vote; lia.
Qed.

Lemma castVote_outcome_witness :
  reachable Scenario.two_yes ∧
  AgentQuorum.castVote (Scenario.by_ Scenario.agentB 2005) 0 true
    (quorum Scenario.two_yes) = Revert "Already voted".
Proof.
  split; [apply two_yes_reachable|].
  apply (proj1 (proj2 (proj2 (proj2 (proj2
           (castVote_outcome Scenario.two_yes (Scenario.by_ Scenario.agentB 2005)
              0 true two_yes_reachable)))))).
  - reflexivity.
  - reflexivity.
  - vm_compute. discriminate.
  - vm_compute. apply list_elem_of_In. right. left. reflexivity.
  - reflexivity.
Defined.

(** X5. In a ledger that can be reached [finalizeProposal] succeeds
    exactly for a proposal that exists, is Active and is past its deadline,
    and every successful call leaves the proposal Failed; it reverts with
    "Proposal does not exist", "Proposal not active" or "Voting period not
    ended" otherwise. While it can succeed no vote is accepted any more, so
    a proposal that is still Active after its deadline can only fail. *)
Theorem finalize_outcome w e id :
  reachable w →
  let q := quorum w in
  let p := AgentQuorum.proposals q @ id in
  (succeeds (AgentQuorum.finalizeProposal e id q) ↔
   id < AgentQuorum.proposalCount q ∧ status p = Active ∧
   votingDeadline p < block_timestamp e) ∧
  (∀ q', AgentQuorum.finalizeProposal e id q = Ok q' → qstatus q' id = Failed) ∧
  (AgentQuorum.proposalCount q ≤ id →
     AgentQuorum.finalizeProposal e id q = Revert "Proposal does not exist") ∧
  (id < AgentQuorum.proposalCount q → status p ≠ Active →
     AgentQuorum.finalizeProposal e id q = Revert "Proposal not active") ∧
  (id < AgentQuorum.proposalCount q → status p = Active →
     block_timestamp e ≤ votingDeadline p →
     AgentQuorum.finalizeProposal e id q = Revert "Voting period not ended") ∧
  (succeeds (AgentQuorum.finalizeProposal e id q) →
     ∀ e' vote, block_timestamp e ≤ block_timestamp e' →
       AgentQuorum.castVote e' id vote q = Revert "Voting period ended").
Proof.
  intros Hr q p.
  assert (∀ q', AgentQuorum.finalizeProposal e id q = Ok q' →
            (id < AgentQuorum.proposalCount q ∧ status p = Active ∧
             votingDeadline p < block_timestamp e) ∧ qstatus q' id = Failed) as Hinv.
  { intros q' H. apply finalizeProposal_inv in H as (Hid & Hst & Hdl & Hcase).
    fold p in Hst, Hdl, Hcase. split; [done|].
    destruct Hcase as [[_ ->]|[Heq _]].
    - unfold qstatus. cbn. by rewrite rd_insert.
    - destruct (wf_allocated _ (reachable_wf _ Hr) id Hid) as [_ _ _ _ _ Hfit].
      fold q p in Hfit. unfold status_fits in Hfit. rewrite Hst in Hfit. lia. }
  assert (id < AgentQuorum.proposalCount q → status p = Active →
          votingDeadline p < block_timestamp e →
          succeeds (AgentQuorum.finalizeProposal e id q)) as Hintro.
  { intros Hid Hst Hdl.
    unfold AgentQuorum.finalizeProposal, AgentQuorum.proposalExists. fold p.
    rewrite (proj2 (N.ltb_lt _ _) Hid), bool_decide_eq_true_2 by done.
    rewrite (proj2 (N.ltb_lt _ _) Hdl). cbn.
    destruct (negb _); by eexists. }
  split; [|split; [|split; [|split; [|split]]]].
  - split; [intros [q' H]; by apply Hinv in H as [? _] | intros (? & ? & ?); auto].
  - intros q' H. by apply Hinv in H as [_ ?].
  - intros Hge. unfold AgentQuorum.finalizeProposal, AgentQuorum.proposalExists.
    by rewrite (proj2 (N.ltb_ge _ _) Hge).
  - intros Hid Hst. unfold AgentQuorum.finalizeProposal, AgentQuorum.proposalExists.
    fold p. rewrite (proj2 (N.ltb_lt _ _) Hid). cbn.
    by rewrite bool_decide_eq_false_2.
  - intros Hid Hst Hdl.
    unfold AgentQuorum.finalizeProposal, AgentQuorum.proposalExists. fold p.
    rewrite (proj2 (N.ltb_lt _ _) Hid), bool_decide_eq_true_2 by done. cbn.
    by rewrite (proj2 (N.ltb_ge _ _) Hdl).
  - intros [q' H] e' vote Hlater. apply Hinv in H as [(Hid & Hst & Hdl) _].
    apply castVote_late; try done. fold q p. lia.
Qed.

Lemma finalize_outcome_witness :
  reachable Scenario.two_yes ∧
  AgentQuorum.castVote (Scenario.by_ Scenario.agentA 700001) 0 true
    (quorum Scenario.two_yes) = Revert "Voting period ended".
Proof.
  split; [apply two_yes_reachable|].
  apply (proj2 (proj2 (proj2 (proj2 (proj2
           (finalize_outcome Scenario.two_yes (Scenario.by_ Scenario.outsider 700000)
              0 two_yes_reachable)))))).
  - by eexists.
  - vm_compute. discriminate.
Defined.

(** ** Administration *)

(** What no call changes, and what only some calls change. *)
Lemma exec_frame e c w w' :
  exec e c w = Ok w' →
  AgentQuorum.admin (quorum w') = AgentQuorum.admin (quorum w) ∧
  BondingCurveFactory.admin (factory w') = BondingCurveFactory.admin (factory w) ∧
  BondingCurveFactory.quorumContract (factory w')
    = BondingCurveFactory.quorumContract (factory w) ∧
  factoryAddress w' = factoryAddress w ∧
  (quorum_admin_call c = true → msg_sender e = AgentQuorum.admin (quorum w)) ∧
  (factory_admin_call c = true →
     msg_sender e = BondingCurveFactory.admin (factory w)) ∧
  (registry_call c = false →
     AgentQuorum.verifiedAgents (quorum w') = AgentQuorum.verifiedAgents (quorum w)) ∧
  (AgentQuorum.bondingCurveFactory (quorum w) ≠ 0 →
     AgentQuorum.bondingCurveFactory (quorum w') ≠ 0) ∧
  ((∀ f, c ≠ SetBondingCurveFactory f) →
     AgentQuorum.bondingCurveFactory (quorum w')
       = AgentQuorum.bondingCurveFactory (quorum w)).
Proof.
  destruct c; cbn; unfold on_quorum, on_factory, launchToken; intros H.
  all: ok_inv H; cbn.
  - unfold AgentQuorum.setBondingCurveFactory, AgentQuorum.onlyAdmin in Hq.
    ok_inv Hq. reflect_tests. cbn. repeat split; try done.
    intros Hf. by specialize (Hf _factory).
  - unfold AgentQuorum.verifyAgent, AgentQuorum.onlyAdmin in Hq.
    ok_inv Hq. reflect_tests. done.
  - unfold AgentQuorum.unverifyAgent, AgentQuorum.onlyAdmin in Hq.
    ok_inv Hq. reflect_tests. done.
  - destruct H0 as [id q'].
    apply createProposal_inv in Hq as (_ & _ & _ & _ & _ & _ & _ & _ & _ & ->).
    done.
  - apply castVote_inv in Hq as (_ & _ & _ & _ & _ & ->). done.
  - apply finalizeProposal_inv in Hq as (_ & _ & _ & [[_ ->]|[_ ->]]); done.
  - apply executeProposal_inv in Hq as (_ & _ & r' & _ & ->). done.
  - apply executeProposal_inv in Hq2 as (_ & _ & r' & _ & ->). done.
  - unfold BondingCurveFactory.updatePlatformFeeRecipient,
      BondingCurveFactory.onlyAdmin in Hq. ok_inv Hq. reflect_tests. done.
  - unfold BondingCurveFactory.updateUniswapRouter,
      BondingCurveFactory.onlyAdmin in Hq. ok_inv Hq. reflect_tests. done.
Qed.

Lemma steps_frame w w' :
  steps w w' →
  AgentQuorum.admin (quorum w') = AgentQuorum.admin (quorum w) ∧
  BondingCurveFactory.admin (factory w') = BondingCurveFactory.admin (factory w) ∧
  BondingCurveFactory.quorumContract (factory w')
    = BondingCurveFactory.quorumContract (factory w) ∧
  factoryAddress w' = factoryAddress w ∧
  (AgentQuorum.bondingCurveFactory (quorum w) ≠ 0 →
     AgentQuorum.bondingCurveFactory (quorum w') ≠ 0).
Proof.
  induction 1 as [|e c w w' w'' H _ IH]; [done|].
  apply exec_frame in H as (H1 & H2 & H3 & H4 & _ & _ & _ & H5 & _).
  destruct IH as (I1 & I2 & I3 & I4 & I5).
  repeat split; try congruence. auto.
Qed.

(** X6. The admin of each contract is the account that deployed it, for
    ever: no call changes either admin, the address of the factory or the
    quorum contract the factory points to. A successful call of
    [setBondingCurveFactory], [verifyAgent] or [unverifyAgent] was made by
    the admin of the quorum contract, a successful call of
    [updatePlatformFeeRecipient] or [updateUniswapRouter] by the admin of the
    factory, and no other call than [verifyAgent] and [unverifyAgent] changes
    the registry of verified agents. *)
Theorem admin_fixed eQ eF qa fa fee router w0 w :
  deploy eQ eF qa fa fee router = Ok w0 →
  steps w0 w →
  AgentQuorum.admin (quorum w) = msg_sender eQ ∧
  BondingCurveFactory.admin (factory w) = msg_sender eF ∧
  BondingCurveFactory.quorumContract (factory w) = qa ∧
  factoryAddress w = fa ∧
  (∀ e c w', exec e c w = Ok w' →
     (quorum_admin_call c = true → msg_sender e = msg_sender eQ) ∧
     (factory_admin_call c = true → msg_sender e = msg_sender eF) ∧
     (registry_call c = false →
        AgentQuorum.verifiedAgents (quorum w')
          = AgentQuorum.verifiedAgents (quorum w))).
Proof.
  intros Hd Hs. apply steps_frame in Hs as (H1 & H2 & H3 & H4 & _).
  unfold deploy, BondingCurveFactory.constructor in Hd. ok_inv Hd. cbn in *.
  repeat split; try done.
  - apply exec_frame in H as (_ & _ & _ & _ & Ha & _). rewrite <- H1. exact Ha.
  - apply exec_frame in H as (_ & _ & _ & _ & _ & Ha & _). rewrite <- H2. exact Ha.
  - by apply exec_frame in H as (_ & _ & _ & _ & _ & _ & Ha & _).
Qed.

Lemma admin_fixed_witness :
  AgentQuorum.admin (quorum Scenario.launched) = Scenario.deployer ∧
  BondingCurveFactory.admin (factory Scenario.launched) = Scenario.deployer.
Proof.
  assert (steps Scenario.genesis Scenario.launched) as Hs.
  { unfold Scenario.launched. eapply steps_trans; [|apply run_steps].
    unfold Scenario.linked. eapply steps_trans; [|apply run_steps].
    unfold Scenario.passed. eapply steps_trans; [|apply run_steps].
    unfold Scenario.two_yes. eapply steps_trans; [|apply run_steps].
    unfold Scenario.proposed. eapply steps_trans; [|apply run_steps].
    unfold Scenario.verified. apply run_steps. }
  destruct (admin_fixed (Scenario.by_ Scenario.deployer 0)
              (Scenario.by_ Scenario.deployer 1) Scenario.quorumAddr
              Scenario.factoryAddr Scenario.deployer Scenario.router
              Scenario.genesis Scenario.launched eq_refl Hs) as (H1 & H2 & _).
  split; [exact H1 | exact H2].
Defined.

Lemma verifyAgent_inv e a q q' :
  AgentQuorum.verifyAgent e a q = Ok q' →
  msg_sender e = AgentQuorum.admin q ∧
  AgentQuorum.verifiedAgents q @ a = false ∧
  q' = AgentQuorum.set_verifiedAgents (<[a:=true]> (AgentQuorum.verifiedAgents q)) q.
Proof.
  unfold AgentQuorum.verifyAgent, AgentQuorum.onlyAdmin. intros H.
  ok_inv H. reflect_tests. done.
Qed.

(** X7. [verifyAgent] succeeds only for the admin and an agent that is not
    verified, and changes the registry for that agent alone; a second
    [verifyAgent] of the same agent reverts with "Agent already verified";
    [unverifyAgent] by the admin then succeeds and gives back a registry
    that reads as before the two calls, after which a further
    [unverifyAgent] reverts with "Agent not verified". *)
Theorem registry_round_trip e a q q1 :
  AgentQuorum.verifyAgent e a q = Ok q1 →
  msg_sender e = AgentQuorum.admin q ∧
  AgentQuorum.verifiedAgents q @ a = false ∧
  AgentQuorum.verifiedAgents q1 @ a = true ∧
  (∀ x, x ≠ a → AgentQuorum.verifiedAgents q1 @ x = AgentQuorum.verifiedAgents q @ x) ∧
  AgentQuorum.verifyAgent e a q1 = Revert "Agent already verified" ∧
  ∃ q2, AgentQuorum.unverifyAgent e a q1 = Ok q2 ∧
        (∀ x, AgentQuorum.verifiedAgents q2 @ x = AgentQuorum.verifiedAgents q @ x) ∧
        AgentQuorum.proposals q2 = AgentQuorum.proposals q ∧
        AgentQuorum.agentReputation q2 = AgentQuorum.agentReputation q ∧
        AgentQuorum.unverifyAgent e a q2 = Revert "Agent not verified".
Proof.
  intros H. apply verifyAgent_inv in H as (He & Hv & ->).
  assert ((msg_sender e =? AgentQuorum.admin q) = true) as Hadm
    by (by apply N.eqb_eq).
  split; [done|]. split; [done|]. split; [cbn; by rewrite rd_insert|].
  split; [intros x Hx; cbn; by rewrite rd_insert_ne|]. split.
  - unfold AgentQuorum.verifyAgent, AgentQuorum.onlyAdmin. cbn.
    rewrite Hadm. cbn. by rewrite rd_insert.
  - eexists. split; [|split; [|split; [|split]]].
    + unfold AgentQuorum.unverifyAgent, AgentQuorum.onlyAdmin. cbn.
      rewrite Hadm. cbn. rewrite rd_insert. cbn. reflexivity.
    + intros x. cbn. destruct (decide (a = x)) as [<-|Hne].
      * by rewrite rd_insert.
      * by rewrite !rd_insert_ne.
    + done.
    + done.
    + unfold AgentQuorum.unverifyAgent, AgentQuorum.onlyAdmin. cbn.
      rewrite Hadm. cbn. by rewrite rd_insert.
Qed.

Lemma registry_round_trip_witness :
  AgentQuorum.verifyAgent (Scenario.by_ Scenario.deployer 20) Scenario.agentA
    (quorum (transact (Scenario.by_ Scenario.deployer 10)
               (VerifyAgent Scenario.agentA) Scenario.genesis))
  = Revert "Agent already verified".
Proof.
  refine (proj1 (proj2 (proj2 (proj2 (proj2
            (registry_round_trip (Scenario.by_ Scenario.deployer 20) Scenario.agentA
               (quorum Scenario.genesis) _ eq_refl)))))).
Defined.

(** X8. The registered factory can be replaced but not cleared:
    [setBondingCurveFactory] reverts with "Only admin" for any other caller
    and with "Invalid factory address" for the zero address, stores the
    address otherwise, and once the registered address is not zero it is
    not zero in any later ledger. *)
Theorem factory_registration_kept w :
  (∀ e f, msg_sender e ≠ AgentQuorum.admin (quorum w) →
     AgentQuorum.setBondingCurveFactory e f (quorum w) = Revert "Only admin") ∧
  (∀ e, msg_sender e = AgentQuorum.admin (quorum w) →
     AgentQuorum.setBondingCurveFactory e 0 (quorum w)
       = Revert "Invalid factory address") ∧
  (∀ e f, msg_sender e = AgentQuorum.admin (quorum w) → f ≠ 0 →
     ∃ q', AgentQuorum.setBondingCurveFactory e f (quorum w) = Ok q' ∧
           AgentQuorum.bondingCurveFactory q' = f) ∧
  (∀ w', steps w w' →
     AgentQuorum.bondingCurveFactory (quorum w) ≠ 0 →
     AgentQuorum.bondingCurveFactory (quorum w') ≠ 0).
Proof.
  unfold AgentQuorum.setBondingCurveFactory, AgentQuorum.onlyAdmin.
  split; [|split; [|split]].
  - intros e f Hne. by rewrite (proj2 (N.eqb_neq _ _) Hne).
  - intros e He. by rewrite (proj2 (N.eqb_eq _ _) He).
  - intros e f He Hf. rewrite (proj2 (N.eqb_eq _ _) He). cbn.
    rewrite (proj2 (N.eqb_neq _ _) Hf). cbn. by eexists.
  - intros w' Hs. by apply steps_frame in Hs as (_ & _ & _ & _ & ?).
Qed.

Lemma factory_registration_kept_witness :
  AgentQuorum.bondingCurveFactory (quorum Scenario.launched) ≠ 0.
Proof.
  apply (proj2 (proj2 (proj2 (factory_registration_kept Scenario.linked)))
           Scenario.launched).
  - unfold Scenario.launched. apply run_steps.
  - vm_compute. discriminate.
Defined.

(** ** Reputation *)

Lemma launches_same q q' a :
  AgentQuorum.proposalCount q' = AgentQuorum.proposalCount q →
  (∀ id, id < AgentQuorum.proposalCount q →
         launched_with q' a id ↔ launched_with q a id) →
  len (launches_of q' a) = len (launches_of q a).
Proof.
  intros Hc Hst. unfold launches_of, len. rewrite Hc. f_equal.
  apply filter_length_same. intros id Hid%ids_elem. by apply Hst.
Qed.

Lemma reputation_exact_same q q' :
  AgentQuorum.proposalCount q' = AgentQuorum.proposalCount q →
  AgentQuorum.agentReputation q' = AgentQuorum.agentReputation q →
  (∀ a id, id < AgentQuorum.proposalCount q →
           launched_with q' a id ↔ launched_with q a id) →
  reputation_exact q → reputation_exact q'.
Proof.
  intros Hc Hr Hst Hb a. rewrite Hr, (launches_same q q' a Hc (Hst a)). apply Hb.
Qed.

Lemma qstep_reputation_exact q q' :
  wf_quorum q → reputation_exact q → qstep q q' → reputation_exact q'.
Proof.
  intros Hwf Hb Hstep. destruct Hstep as
    [e f H|e a H|e a H|e n sy d ms id0 H|e id0 v H|e id0 H|e id0 H].
  - unfold AgentQuorum.setBondingCurveFactory in H. ok_inv H.
    by apply (reputation_exact_same q).
  - unfold AgentQuorum.verifyAgent in H. ok_inv H.
    by apply (reputation_exact_same q).
  - unfold AgentQuorum.unverifyAgent in H. ok_inv H.
    by apply (reputation_exact_same q).
  - apply createProposal_inv in H as (_ & _ & _ & _ & _ & _ & -> & _ & _ & Hq').
    cbv zeta in Hq'.
    assert (AgentQuorum.proposalCount q' = AgentQuorum.proposalCount q + 1) as Hc
      by (by subst q').
    assert (AgentQuorum.agentReputation q' = AgentQuorum.agentReputation q) as Hr
      by (by subst q').
    intros a. rewrite Hr, Hb.
    unfold launches_of, len. rewrite Hc, ids_succ, filter_app, length_app.
    rewrite (filter_length_same (launched_with q' a) (launched_with q a)).
    + rewrite filter_cons, decide_False; [cbn; lia|].
      unfold launched_with, qstatus. subst q'. cbn. rewrite rd_insert. cbn.
      by intros [? _].
    + intros id Hid%ids_elem. unfold launched_with, qstatus. subst q'. cbn.
      rewrite rd_insert_ne by lia. done.
  - apply castVote_inv in H as (_ & Hst & _ & _ & _ & ->).
    apply (reputation_exact_same q); try done.
    intros a id _. unfold launched_with, qstatus. cbn.
    destruct (decide (id0 = id)) as [<-|Hne]; [|by rewrite rd_insert_ne].
    rewrite rd_insert, status_check_cases, Hst. cbn. rewrite Hst.
    split; intros [Hex _]; [|done].
    destruct (0 <? _); [done|]. destruct (_ =? _); done.
  - apply finalizeProposal_inv in H as (_ & Hst & _ & [[_ ->]|[_ ->]]); [|done].
    apply (reputation_exact_same q); try done.
    intros a id _. unfold launched_with, qstatus. cbn.
    destruct (decide (id0 = id)) as [<-|Hne]; [|by rewrite rd_insert_ne].
    rewrite rd_insert, Hst. cbn. split; intros [? _]; done.
  - apply executeProposal_inv in H as (_ & Hst & r' & Hbump & Hq').
    pose proof (passed_allocated _ _ Hwf Hst) as Hid.
    pose proof (wf_nodup _ (wf_allocated _ Hwf _ Hid)) as Hnd.
    pose proof (bump_reputation_Ok _ _ _ Hbump Hnd) as Hrep.
    assert (AgentQuorum.proposalCount q' = AgentQuorum.proposalCount q) as Hc
      by (by subst q').
    assert (∀ a id, id ≠ id0 → launched_with q' a id ↔ launched_with q a id) as Hoth.
    { intros a id Hne. unfold launched_with, qstatus. subst q'. cbn.
      by rewrite rd_insert_ne. }
    assert (∀ a, launched_with q' a id0 ↔
                 a ∈ quorumMembers (AgentQuorum.proposals q @ id0)) as Hnew.
    { intros a. unfold launched_with, qstatus. subst q'. cbn. rewrite rd_insert.
      cbn. tauto. }
    assert (∀ a, ¬ launched_with q a id0) as Hold.
    { intros a [Hex _]. unfold qstatus in Hex. congruence. }
    intros a. replace (AgentQuorum.agentReputation q' @ a)
      with (if bool_decide (a ∈ quorumMembers (AgentQuorum.proposals q @ id0))
            then AgentQuorum.agentReputation q @ a + 1
            else AgentQuorum.agentReputation q @ a)
      by (subst q'; cbn; by rewrite Hrep).
    rewrite Hb. unfold launches_of, len. rewrite Hc. case_bool_decide as Hin.
    + rewrite (filter_length_one_more (launched_with q a) (launched_with q' a) id0);
        [lia|..]; try done.
      * apply ids_nodup.
      * by apply ids_elem.
      * by apply Hnew.
      * intros id Hne. symmetry. by apply Hoth.
    + f_equal. apply filter_length_same. intros id _.
      destruct (decide (id = id0)) as [->|Hne]; [|symmetry; by apply Hoth].
      split; [intros H'; by apply Hold in H' | intros H'%Hnew; done].
Qed.

Lemma reachable_reputation_exact w : reachable w → reputation_exact (quorum w).
Proof.
  induction 1 as [eQ eF qa fa fee router w _ Hd|e c w w' Hr IH H].
  - unfold deploy in Hd. ok_inv Hd. intros a. cbn. by rewrite rd_empty.
  - apply exec_qstep in H as [H| ->]; [|done].
    by apply (qstep_reputation_exact (quorum w)); [apply reachable_wf|..].
Qed.

Lemma filter_none {A} (P : A → Prop) `{!∀ x, Decision (P x)} (l : list A) :
  (∀ x, x ∈ l → ¬ P x) → filter P l = [].
Proof.
  induction l as [|x l IH]; intros Hn; [done|].
  rewrite filter_cons, decide_False by (apply Hn; left).
  apply IH. intros y Hy. apply Hn. by right.
Qed.

(** X9. In every ledger that can be reached the reputation counter of an
    agent is the number of executed proposals that name the agent as a
    member; an agent named by no executed proposal has reputation zero, and
    no counter exceeds the number of proposals. *)
Theorem reputation_counts_launches w a :
  reachable w →
  AgentQuorum.agentReputation (quorum w) @ a = len (launches_of (quorum w) a) ∧
  ((∀ id, id < AgentQuorum.proposalCount (quorum w) →
          status_of w id ≠ Executed ∨
          a ∉ quorumMembers (AgentQuorum.proposals (quorum w) @ id)) →
   AgentQuorum.agentReputation (quorum w) @ a = 0) ∧
  AgentQuorum.agentReputation (quorum w) @ a ≤ AgentQuorum.proposalCount (quorum w).
Proof.
  intros Hr. pose proof (reachable_reputation_exact w Hr a) as Hex.
  split; [done|]. split.
  - intros Hnone. rewrite Hex. unfold launches_of, len.
    rewrite filter_none; [done|]. intros id Hid%ids_elem [Hst Hin].
    destruct (Hnone id Hid); done.
  - rewrite Hex. unfold launches_of.
    pose proof (length_filter (launched_with (quorum w) a)
      (ids (AgentQuorum.proposalCount (quorum w)))) as Hl.
    pose proof (ids_len (AgentQuorum.proposalCount (quorum w))) as Hi.
    unfold len in *. lia.
Qed.

Lemma reputation_counts_launches_witness :
  reachable Scenario.launched ∧
  AgentQuorum.agentReputation (quorum Scenario.launched) @ Scenario.agentC
    = len (launches_of (quorum Scenario.launched) Scenario.agentC).
Proof.
  split; [apply launched_reachable|].
  exact (proj1 (reputation_counts_launches Scenario.launched Scenario.agentC
                  launched_reachable)).
Defined.

(** ** The bookkeeping of the factory *)

Lemma executeProposal_executed e id0 q q' :
  wf_quorum q → AgentQuorum.executeProposal e id0 q = Ok q' →
  len (executed q') = len (executed q) + 1.
Proof.
  intros Hwf H.
  apply executeProposal_inv in H as (_ & Hst & r' & Hbump & Hq').
  pose proof (passed_allocated _ _ Hwf Hst) as Hid.
  unfold executed, len.
  replace (AgentQuorum.proposalCount q') with (AgentQuorum.proposalCount q)
    by (by subst q').
  rewrite (filter_length_one_more (λ id, qstatus q id = Executed)
             (λ id, qstatus q' id = Executed) id0); [lia|..].
  - apply ids_nodup.
  - by apply ids_elem.
  - unfold qstatus. by rewrite Hst.
  - unfold qstatus. subst q'. cbn. by rewrite rd_insert.
  - intros id Hne. unfold qstatus. subst q'. cbn. by rewrite rd_insert_ne.
Qed.

Lemma qstep_executed q q' :
  wf_quorum q → qstep q q' →
  len (executed q') = len (executed q) ∨
  ((∃ e id, AgentQuorum.executeProposal e id q = Ok q') ∧
   len (executed q') = len (executed q) + 1).
Proof.
  intros Hwf Hstep. destruct Hstep as
    [e f H|e a H|e a H|e n sy d ms id0 H|e id0 v H|e id0 H|e id0 H].
  - unfold AgentQuorum.setBondingCurveFactory in H. ok_inv H. by left.
  - unfold AgentQuorum.verifyAgent in H. ok_inv H. by left.
  - unfold AgentQuorum.unverifyAgent in H. ok_inv H. by left.
  - left.
    apply createProposal_inv in H as (_ & _ & _ & _ & _ & _ & -> & _ & _ & Hq').
    cbv zeta in Hq'.
    assert (AgentQuorum.proposalCount q' = AgentQuorum.proposalCount q + 1) as Hc
      by (by subst q').
    unfold executed, len. rewrite Hc, ids_succ, filter_app, length_app.
    rewrite (filter_length_same (λ id, qstatus q' id = Executed)
               (λ id, qstatus q id = Executed)).
    + rewrite filter_cons, decide_False; [cbn; lia|].
      unfold qstatus. subst q'. cbn. by rewrite rd_insert.
    + intros id Hid%ids_elem. unfold qstatus. subst q'. cbn.
      rewrite rd_insert_ne by lia. done.
  - left. apply castVote_inv in H as (_ & Hst & _ & _ & _ & ->).
    apply executed_same; [done|]. intros id _. unfold qstatus. cbn.
    destruct (decide (id0 = id)) as [<-|Hne]; [|by rewrite rd_insert_ne].
    rewrite rd_insert, status_check_cases, Hst. cbn. rewrite Hst.
    destruct (0 <? _); [done|]. destruct (_ =? _); done.
  - left. apply finalizeProposal_inv in H as (_ & Hst & _ & [[_ ->]|[_ ->]]); [|done].
    apply executed_same; [done|]. intros id _. unfold qstatus. cbn.
    destruct (decide (id0 = id)) as [<-|Hne]; [|by rewrite rd_insert_ne].
    rewrite rd_insert, Hst. done.
  - right. split; [eauto|]. by eapply executeProposal_executed.
Qed.

(** A successful call leaves the token bookkeeping of the factory alone, or
    is a launch. *)
Lemma exec_tokens e c w w' :
  exec e c w = Ok w' →
  (BondingCurveFactory.proposalToToken (factory w')
     = BondingCurveFactory.proposalToToken (factory w) ∧
   BondingCurveFactory.allTokens (factory w')
     = BondingCurveFactory.allTokens (factory w) ∧
   ∀ id t, c ≠ LaunchToken id t) ∨
  ∃ id token, c = LaunchToken id token ∧ launchToken e id token w = Ok (token, w').
Proof.
  destruct c; cbn; unfold on_quorum, on_factory; intros H.
  1-7: left; ok_inv H; cbn; done.
  - right. apply fmap_Ok in H as ([tok w1] & H & <-).
    pose proof H as Hinv. apply launchToken_inv in Hinv as (_ & _ & _ & -> & _).
    eauto.
  - left. ok_inv H. cbn.
    unfold BondingCurveFactory.updatePlatformFeeRecipient in Hq. ok_inv Hq. done.
  - left. ok_inv H. cbn.
    unfold BondingCurveFactory.updateUniswapRouter in Hq. ok_inv Hq. done.
Qed.

Lemma exec_addresses e c w w' :
  exec e c w = Ok w' →
  (BondingCurveFactory.platformFeeRecipient (factory w) ≠ 0 →
   BondingCurveFactory.platformFeeRecipient (factory w') ≠ 0) ∧
  (BondingCurveFactory.uniswapV2Router (factory w) ≠ 0 →
   BondingCurveFactory.uniswapV2Router (factory w') ≠ 0).
Proof.
  destruct c; cbn; unfold on_quorum, on_factory, launchToken; intros H.
  1-8: ok_inv H; cbn; done.
  - ok_inv H. cbn.
    unfold BondingCurveFactory.updatePlatformFeeRecipient in Hq. ok_inv Hq.
    reflect_tests. done.
  - ok_inv H. cbn.
    unfold BondingCurveFactory.updateUniswapRouter in Hq. ok_inv Hq.
    reflect_tests. done.
Qed.

Lemma exec_executed e c w w' :
  reachable w → exec e c w = Ok w' →
  len (executed (quorum w)) ≤ len (executed (quorum w')).
Proof.
  intros Hr H. apply exec_qstep in H as [H| ->]; [|done].
  destruct (qstep_executed _ _ (reachable_wf _ Hr) H) as [->|[_ ->]]; lia.
Qed.

Lemma exec_factory_sound e c w w' :
  reachable w → factory_sound w → exec e c w = Ok w' → factory_sound w'.
Proof.
  intros Hr [Hlink Hlist Hcount (A1 & A2 & A3 & A4)] H.
  pose proof (exec_frame _ _ _ _ H) as (_ & _ & F3 & F4 & _).
  pose proof (exec_addresses _ _ _ _ H) as [F5 F6].
  pose proof (exec_executed _ _ _ _ Hr H) as Hex.
  assert (∀ id, status_of w id = Executed → status_of w' id = Executed) as Hkeep.
  { intros id Hst. destruct (exec_status _ _ _ _ id Hr H) as [->|Hedge]; [done|].
    rewrite Hst in Hedge. inversion Hedge. }
  destruct (exec_tokens _ _ _ _ H) as [(Hm & Hl & _)|(id0 & token & -> & Hlaunch)].
  - constructor.
    + intros id. rewrite Hm. auto.
    + intros id. rewrite Hm, Hl. auto.
    + rewrite Hl. lia.
    + rewrite F3, F4. auto.
  - pose proof Hlaunch as Hinv.
    apply launchToken_inv in Hinv as (Hid & Hst & Htok & _ & Hexec & Hf & _).
    pose proof (executeProposal_executed _ _ _ _ (reachable_wf _ Hr) Hexec) as Hplus.
    assert (status_of w' id0 = Executed) as Hx.
    { apply executeProposal_inv in Hexec as (_ & _ & r' & _ & Hq).
      unfold status_of. rewrite Hq. cbn. by rewrite rd_insert. }
    constructor.
    + intros id. rewrite Hf. cbn. destruct (decide (id0 = id)) as [<-|Hne]; [done|].
      rewrite rd_insert_ne by done. auto.
    + intros id. rewrite Hf. cbn. rewrite elem_of_app.
      destruct (decide (id0 = id)) as [<-|Hne].
      * rewrite rd_insert. intros _. right. by apply list_elem_of_singleton.
      * rewrite rd_insert_ne by done. auto.
    + rewrite Hf. cbn. unfold len in *. rewrite length_app. cbn. lia.
    + rewrite F3, F4. auto.
Qed.

Lemma reachable_factory_sound w : reachable w → factory_sound w.
Proof.
  induction 1 as [eQ eF qa fa fee router w Hfa Hd|e c w w' Hr IH H].
  - unfold deploy, BondingCurveFactory.constructor in Hd. ok_inv Hd.
    reflect_tests. constructor; cbn.
    + intros id. by rewrite rd_empty.
    + intros id. by rewrite rd_empty.
    + apply N.le_0_l.
    + done.
  - by eapply exec_factory_sound.
Qed.

Lemma executed_allocated q id :
  wf_quorum q → qstatus q id = Executed → id < AgentQuorum.proposalCount q.
Proof.
  intros Hwf Hst. destruct (decide (id < AgentQuorum.proposalCount q)) as [|Hn];
    [done|].
  unfold qstatus in Hst. rewrite rd_free in Hst by (apply Hwf; lia). done.
Qed.

Lemma bump_reputation_no_revert l : ∀ r msg,
  AgentQuorum.bump_reputation l r ≠ Revert msg.
Proof.
  induction l as [|m l IH]; intros r msg; cbn; [done|].
  unfold add256. destruct (r @ m + 1 <=? UINT256_MAX); cbn; [apply IH|done].
Qed.

(** ** Launching once *)

Lemma steps_count_le w w' :
  steps w w' →
  AgentQuorum.proposalCount (quorum w) ≤ AgentQuorum.proposalCount (quorum w').
Proof.
  induction 1 as [|e c w w1 w2 H _ IH]; [done|].
  apply exec_count_le in H. lia.
Qed.

Lemma recorded_not_passed w e id token :
  reachable w →
  BondingCurveFactory.proposalToToken (factory w) @ id ≠ 0 →
  launchToken e id token w = Revert "Proposal not passed".
Proof.
  intros Hr Htok.
  pose proof (sound_linked _ (reachable_factory_sound w Hr) id Htok) as Hst.
  apply launchToken_not_passed.
  - by apply (executed_allocated _ _ (reachable_wf _ Hr)).
  - congruence.
Qed.

Lemma launchToken_reverts w e id token msg :
  reachable w →
  launchToken e id token w = Revert msg →
  msg = "Proposal does not exist" ∨ msg = "Proposal not passed" ∨
  msg = "Only factory".
Proof.
  intros Hr H.
  unfold launchToken, AgentQuorum.getProposal, AgentQuorum.proposalExists in H.
  destruct (id <? AgentQuorum.proposalCount (quorum w)); cbn in H;
    [|injection H as <-; by left].
  case_bool_decide as Hst; cbn in H; [|injection H as <-; right; by left].
  destruct (BondingCurveFactory.proposalToToken (factory w) @ id =? 0) eqn:Hz;
    cbn in H.
  - unfold AgentQuorum.executeProposal in H. cbn in H.
    destruct (factoryAddress w =? AgentQuorum.bondingCurveFactory (quorum w));
      cbn in H; [|injection H as <-; right; by right].
    rewrite bool_decide_eq_true_2 in H by done. cbn in H.
    destruct (AgentQuorum.bump_reputation _ _) eqn:Hb; cbn in H;
      [discriminate| |discriminate].
    by apply bump_reputation_no_revert in Hb.
  - apply N.eqb_neq in Hz.
    apply (sound_linked _ (reachable_factory_sound w Hr)) in Hz.
    unfold status_of in Hz. congruence.
Qed.

(** C3, amended. [launchToken] succeeds only for a proposal that exists,
    is Passed and has no token recorded. It reverts with "Proposal does not
    exist" for an id that was not assigned and with "Proposal not passed"
    when the proposal is not Passed, and this is also how it fails once a
    token is recorded: a launch leaves the proposal Executed, so in a ledger
    that can be reached the check "Already launched" never fires, and the
    only messages of a failed launch are these two and "Only factory". A
    transaction that launches either leaves the ledger as it was, or records
    the token under the proposal id, appends it to the list of tokens and
    leaves the proposal Executed, all three; and after a successful launch
    every later launch for the same id reverts with "Proposal not passed",
    whatever calls were made in between. *)
Theorem launch_once w e id token :
  reachable w →
  (∀ tok w', launchToken e id token w = Ok (tok, w') →
     id < AgentQuorum.proposalCount (quorum w) ∧
     status_of w id = Passed ∧
     BondingCurveFactory.proposalToToken (factory w) @ id = 0 ∧
     tok = token ∧
     BondingCurveFactory.proposalToToken (factory w') @ id = token ∧
     BondingCurveFactory.allTokens (factory w') =
       BondingCurveFactory.allTokens (factory w) ++ [token] ∧
     status_of w' id = Executed ∧
     (∀ w'' e' token', steps w' w'' →
        launchToken e' id token' w'' = Revert "Proposal not passed")) ∧
  (AgentQuorum.proposalCount (quorum w) ≤ id →
     launchToken e id token w = Revert "Proposal does not exist") ∧
  (id < AgentQuorum.proposalCount (quorum w) → status_of w id ≠ Passed →
     launchToken e id token w = Revert "Proposal not passed") ∧
  (BondingCurveFactory.proposalToToken (factory w) @ id ≠ 0 →
     id < AgentQuorum.proposalCount (quorum w) ∧ status_of w id = Executed ∧
     launchToken e id token w = Revert "Proposal not passed") ∧
  (∀ msg, launchToken e id token w = Revert msg →
     msg = "Proposal does not exist" ∨ msg = "Proposal not passed" ∨
     msg = "Only factory") ∧
  launchToken e id token w ≠ Revert "Already launched" ∧
  (let w' := transact e (LaunchToken id token) w in
   w' = w ∨
   (BondingCurveFactory.proposalToToken (factory w') @ id = token ∧
    BondingCurveFactory.allTokens (factory w') =
      BondingCurveFactory.allTokens (factory w) ++ [token] ∧
    status_of w id = Passed ∧ status_of w' id = Executed)).
Proof.
  intros Hr.
  assert (∀ tok w', launchToken e id token w = Ok (tok, w') →
            BondingCurveFactory.proposalToToken (factory w') @ id = token ∧
            BondingCurveFactory.allTokens (factory w') =
              BondingCurveFactory.allTokens (factory w) ++ [token] ∧
            status_of w id = Passed ∧ status_of w' id = Executed) as Heff.
  { intros tok w' H.
    apply launchToken_inv in H as (_ & Hst & _ & _ & Hex & Hf & _).
    rewrite Hf. cbn. rewrite rd_insert.
    apply executeProposal_inv in Hex as (_ & _ & r' & _ & Hq).
    unfold status_of. rewrite Hq. cbn. by rewrite rd_insert. }
  split; [|split; [|split; [|split; [|split; [|split]]]]].
  - intros tok w' H. destruct (Heff _ _ H) as (Ht & Hall & _ & Hex).
    pose proof H as Hinv.
    apply launchToken_inv in Hinv as (Hid & Hst & Htok & -> & Hq & _).
    repeat split; try done.
    intros w'' e' token' Hs.
    assert (reachable w') as Hr'.
    { apply (reachable_step e (LaunchToken id token) w); [done|].
      cbn. by rewrite H. }
    pose proof (executed_stays w' w'' id Hr' Hs Hex) as Hex'.
    apply launchToken_not_passed; [|congruence].
    apply steps_count_le in Hs.
    apply executeProposal_inv in Hq as (_ & _ & r' & _ & Hq).
    rewrite Hq in Hs. cbn in Hs. lia.
  - intros Hge. unfold launchToken, AgentQuorum.getProposal,
      AgentQuorum.proposalExists.
    by rewrite (proj2 (N.ltb_ge _ _) Hge).
  - apply launchToken_not_passed.
  - intros Htok.
    pose proof (sound_linked _ (reachable_factory_sound w Hr) id Htok) as Hst.
    split; [by apply (executed_allocated _ _ (reachable_wf _ Hr))|].
    split; [done|]. by apply recorded_not_passed.
  - intros msg. by apply launchToken_reverts.
  - intros H. apply launchToken_reverts in H as [H|[H|H]]; [done..|done].
  - unfold transact. cbn.
    destruct (launchToken e id token w) as [[tok w']| |] eqn:H; cbn; auto.
    right. by apply (Heff tok).
Qed.

Lemma launch_once_witness :
  reachable Scenario.linked ∧
  status_of Scenario.launched 0 = Executed ∧
  launchToken (Scenario.by_ Scenario.agentA 5000) 0 501 Scenario.launched
    = Revert "Proposal not passed".
Proof.
  split; [apply linked_reachable|].
  destruct (proj1 (launch_once Scenario.linked
                     (Scenario.by_ Scenario.outsider 4000) 0 Scenario.tokenAddr
                     linked_reachable)
              Scenario.tokenAddr Scenario.launched eq_refl)
    as (_ & _ & _ & _ & _ & _ & Hex & Hno).
  split; [exact Hex|]. apply Hno. apply steps_refl.
Defined.

(** C3, as the claim states it: a launch for a proposal that has a token
    recorded would fail with the already-launched error. After the launch
    of the scenario a second launch for the same id fails with "Proposal
    not passed". *)
Lemma relaunch_not_already_launched :
  ¬ (∀ w e id token,
       reachable w →
       BondingCurveFactory.proposalToToken (factory w) @ id ≠ 0 →
       launchToken e id token w = Revert "Already launched").
Proof.
  intros H.
  assert (BondingCurveFactory.proposalToToken (factory Scenario.launched) @ 0 ≠ 0)
    as Htok by (vm_compute; discriminate).
  specialize (H Scenario.launched (Scenario.by_ Scenario.agentA 5000) 0 501
                launched_reachable Htok).
  vm_compute in H. discriminate H.
Qed.

(** X10. In every ledger that can be reached, a proposal for which the
    factory has a token recorded exists and is Executed. So the check
    "Already launched" of [launchToken] never fires: a repeated launch is
    rejected before it, by the status check. *)
Theorem already_launched_unreachable w e id token :
  reachable w →
  (BondingCurveFactory.getTokenByProposal id (factory w) ≠ 0 →
   id < AgentQuorum.proposalCount (quorum w) ∧ status_of w id = Executed ∧
   launchToken e id token w = Revert "Proposal not passed") ∧
  launchToken e id token w ≠ Revert "Already launched".
Proof.
  intros Hr. pose proof (reachable_factory_sound w Hr) as [Hlink _ _ _].
  pose proof (reachable_wf _ Hr) as Hwf.
  unfold BondingCurveFactory.getTokenByProposal. split.
  - intros Htok. pose proof (Hlink id Htok) as Hst.
    pose proof (executed_allocated _ _ Hwf Hst) as Hid.
    split; [done|]. split; [done|].
    unfold launchToken, AgentQuorum.getProposal, AgentQuorum.proposalExists.
    apply N.ltb_lt in Hid. rewrite Hid. cbn.
    unfold status_of in Hst. rewrite Hst. done.
  - unfold launchToken, AgentQuorum.getProposal, AgentQuorum.proposalExists.
    destruct (id <? AgentQuorum.proposalCount (quorum w)); cbn; [|done].
    case_bool_decide as Hst; cbn; [|done].
    destruct (BondingCurveFactory.proposalToToken (factory w) @ id =? 0) eqn:Hz;
      cbn.
    + unfold AgentQuorum.executeProposal. cbn.
      destruct (factoryAddress w =? AgentQuorum.bondingCurveFactory (quorum w));
        cbn; [|done].
      rewrite bool_decide_eq_true_2 by done. cbn.
      destruct (AgentQuorum.bump_reputation _ _) eqn:Hb; cbn; [done| |done].
      by apply bump_reputation_no_revert in Hb.
    + apply N.eqb_neq in Hz. apply Hlink in Hz. unfold status_of in Hz.
      congruence.
Qed.

Lemma already_launched_unreachable_witness :
  reachable Scenario.launched ∧
  launchToken (Scenario.by_ Scenario.outsider 5000) 0 501 Scenario.launched
    = Revert "Proposal not passed".
Proof.
  split; [apply launched_reachable|].
  apply (proj1 (already_launched_unreachable Scenario.launched
                  (Scenario.by_ Scenario.outsider 5000) 0 501
                  launched_reachable)).
  vm_compute. done.
Defined.

Lemma exec_tokens_grow e c w w' :
  exec e c w = Ok w' →
  BondingCurveFactory.allTokens (factory w)
    `prefix_of` BondingCurveFactory.allTokens (factory w') ∧
  ∀ id, BondingCurveFactory.proposalToToken (factory w) @ id ≠ 0 →
        BondingCurveFactory.proposalToToken (factory w') @ id
          = BondingCurveFactory.proposalToToken (factory w) @ id.
Proof.
  intros H.
  destruct (exec_tokens _ _ _ _ H) as [(Hm & Hl & _)|(id0 & token & -> & Hlaunch)].
  - rewrite Hm, Hl. done.
  - apply launchToken_inv in Hlaunch as (_ & _ & Htok & _ & _ & -> & _). cbn.
    split; [by apply prefix_app_r|].
    intros id Hid. destruct (decide (id0 = id)) as [<-|Hne]; [done|].
    by rewrite rd_insert_ne.
Qed.

(** X11. The factory only ever adds tokens: along any sequence of
    successful calls the list returned by [getAllTokens] grows at its end,
    [getTokenCount] does not decrease, and a token recorded for a proposal
    stays the token that [getTokenByProposal] returns. *)
Theorem tokens_append_only w w' :
  steps w w' →
  getAllTokens (factory w) `prefix_of` getAllTokens (factory w') ∧
  BondingCurveFactory.getTokenCount (factory w)
    ≤ BondingCurveFactory.getTokenCount (factory w') ∧
  ∀ id, BondingCurveFactory.getTokenByProposal id (factory w) ≠ 0 →
        BondingCurveFactory.getTokenByProposal id (factory w')
          = BondingCurveFactory.getTokenByProposal id (factory w).
Proof.
  unfold getAllTokens, BondingCurveFactory.getTokenCount,
    BondingCurveFactory.getTokenByProposal.
  assert (steps w w' →
    BondingCurveFactory.allTokens (factory w)
      `prefix_of` BondingCurveFactory.allTokens (factory w') ∧
    ∀ id, BondingCurveFactory.proposalToToken (factory w) @ id ≠ 0 →
          BondingCurveFactory.proposalToToken (factory w') @ id
            = BondingCurveFactory.proposalToToken (factory w) @ id) as Hmain.
  { induction 1 as [w|e c w w1 w2 H _ [IHl IHm]]; [done|].
    destruct (exec_tokens_grow _ _ _ _ H) as [Hl Hm]. split.
    - by etrans.
    - intros id Hid. rewrite IHm by (by rewrite Hm). by apply Hm. }
  intros Hs. destruct (Hmain Hs) as [Hl Hm]. split; [done|]. split; [|done].
  apply prefix_length in Hl. unfold len. lia.
Qed.

Lemma tokens_append_only_witness :
  steps Scenario.linked Scenario.launched ∧
  getAllTokens (factory Scenario.linked)
    `prefix_of` getAllTokens (factory Scenario.launched).
Proof.
  assert (steps Scenario.linked Scenario.launched) as Hs.
  { unfold Scenario.launched. apply run_steps. }
  split; [done|]. exact (proj1 (tokens_append_only _ _ Hs)).
Defined.

(** X12. The factory never holds a zero address: in every ledger that can
    be reached the quorum contract, the fee recipient and the router it
    stores are all non-zero. The constructor rejects a zero address for
    each of the three, and the two update functions reject a zero
    address. *)
Theorem factory_addresses_set w :
  reachable w →
  BondingCurveFactory.quorumContract (factory w) ≠ 0 ∧
  BondingCurveFactory.platformFeeRecipient (factory w) ≠ 0 ∧
  BondingCurveFactory.uniswapV2Router (factory w) ≠ 0.
Proof.
  intros Hr. destruct (reachable_factory_sound w Hr) as [_ _ _ (?&?&?&_)]. done.
Qed.

Lemma factory_addresses_set_witness :
  reachable Scenario.launched ∧
  BondingCurveFactory.platformFeeRecipient (factory Scenario.launched) ≠ 0.
Proof.
  split; [apply launched_reachable|].
  exact (proj1 (proj2 (factory_addresses_set Scenario.launched
                         launched_reachable))).
Defined.

(** X13. In every ledger that can be reached the factory has launched at
    most as many tokens as there are executed proposals, which are at most
    as many as there are proposals; and the token recorded for a proposal
    is in the list of all tokens. *)
Theorem tokens_bounded w :
  reachable w →
  BondingCurveFactory.getTokenCount (factory w) ≤ len (executed (quorum w)) ∧
  len (executed (quorum w)) ≤ AgentQuorum.proposalCount (quorum w) ∧
  ∀ id, BondingCurveFactory.getTokenByProposal id (factory w) ≠ 0 →
        BondingCurveFactory.getTokenByProposal id (factory w)
          ∈ getAllTokens (factory w).
Proof.
  intros Hr. destruct (reachable_factory_sound w Hr) as [_ Hlist Hcount _].
  split; [done|]. split; [|done].
  unfold executed.
  pose proof (length_filter (λ id, qstatus (quorum w) id = Executed)
    (ids (AgentQuorum.proposalCount (quorum w)))) as Hl.
  pose proof (ids_len (AgentQuorum.proposalCount (quorum w))) as Hi.
  unfold len in *. lia.
Qed.

Lemma tokens_bounded_witness :
  reachable Scenario.launched ∧
  BondingCurveFactory.getTokenCount (factory Scenario.launched)
    ≤ len (executed (quorum Scenario.launched)).
Proof.
  split; [apply launched_reachable|].
  exact (proj1 (tokens_bounded Scenario.launched launched_reachable)).
Defined.

Lemma steps_no_token w w' id :
  reachable w → steps w w' → status_of w id = Executed →
  BondingCurveFactory.proposalToToken (factory w) @ id = 0 →
  BondingCurveFactory.proposalToToken (factory w') @ id = 0.
Proof.
  intros Hr Hs. induction Hs as [|e c w w1 w2 H Hs IH]; [done|].
  intros Hst Hz.
  assert (status_of w1 id = Executed) as Hst1.
  { apply (executed_stays w w1 id Hr); [|done].
    eapply steps_cons; [done|constructor]. }
  apply IH; [by eapply reachable_step|done|].
  destruct (exec_tokens _ _ _ _ H) as [(Hm & _)|(id0 & token & -> & Hlaunch)].
  - by rewrite Hm.
  - apply launchToken_inv in Hlaunch as (_ & Hp & _ & _ & _ & -> & _). cbn.
    destruct (decide (id0 = id)) as [->|Hne]; [congruence|].
    by rewrite rd_insert_ne.
Qed.

(** X14. Execution does not need a launch. The admin of the quorum
    contract can register its own address with [setBondingCurveFactory] and
    then call [executeProposal] itself: a Passed proposal becomes Executed
    while the factory is left as it was, and from then on no token is ever
    recorded for the proposal and every [launchToken] for it fails. *)
Theorem execute_without_launch w e id :
  reachable w →
  msg_sender e = AgentQuorum.admin (quorum w) →
  msg_sender e ≠ 0 →
  status_of w id = Passed →
  let w1 := transact e (SetBondingCurveFactory (msg_sender e)) w in
  let w2 := transact e (ExecuteProposal id) w1 in
  status_of w2 id = Executed ∧
  factory w2 = factory w ∧
  ∀ w3, steps w2 w3 →
    status_of w3 id = Executed ∧
    BondingCurveFactory.getTokenByProposal id (factory w3) = 0 ∧
    ∀ e' token, ¬ succeeds (launchToken e' id token w3).
Proof.
  intros Hr Hadmin Hnz Hst. cbv zeta.
  set (w1 := with_quorum
      {| AgentQuorum.proposals := AgentQuorum.proposals (quorum w);
         AgentQuorum.proposalCount := AgentQuorum.proposalCount (quorum w);
         AgentQuorum.verifiedAgents := AgentQuorum.verifiedAgents (quorum w);
         AgentQuorum.agentReputation := AgentQuorum.agentReputation (quorum w);
         AgentQuorum.admin := AgentQuorum.admin (quorum w);
         AgentQuorum.bondingCurveFactory := msg_sender e |} w).
  assert (exec e (SetBondingCurveFactory (msg_sender e)) w = Ok w1) as H1.
  { cbn. unfold on_quorum, AgentQuorum.setBondingCurveFactory,
      AgentQuorum.onlyAdmin.
    rewrite (proj2 (N.eqb_eq _ _) Hadmin). cbn.
    rewrite (proj2 (N.eqb_neq _ _) Hnz). done. }
  assert (transact e (SetBondingCurveFactory (msg_sender e)) w = w1) as ->
    by (unfold transact; by rewrite H1).
  assert (reachable w1) as Hr1 by (by eapply reachable_step).
  assert (status_of w1 id = Passed) as Hst1 by done.
  destruct (executeProposal_intro w1 e id Hr1 eq_refl Hst1) as [q2 Hq2].
  assert (exec e (ExecuteProposal id) w1 = Ok (with_quorum q2 w1)) as H2.
  { change (on_quorum (AgentQuorum.executeProposal e id (quorum w1)) w1
            = Ok (with_quorum q2 w1)).
    unfold on_quorum. by rewrite Hq2. }
  assert (transact e (ExecuteProposal id) w1 = with_quorum q2 w1) as ->
    by (unfold transact; by rewrite H2).
  set (w2 := with_quorum q2 w1).
  assert (reachable w2) as Hr2 by (by eapply reachable_step).
  assert (status_of w2 id = Executed) as Hst2.
  { apply executeProposal_inv in Hq2 as (_ & _ & r' & _ & ->).
    unfold status_of. cbn. by rewrite rd_insert. }
  assert (BondingCurveFactory.proposalToToken (factory w2) @ id = 0) as Hz.
  { destruct (decide (BondingCurveFactory.proposalToToken (factory w) @ id = 0))
      as [|Hn]; [done|].
    apply (sound_linked _ (reachable_factory_sound w Hr)) in Hn. congruence. }
  split; [done|]. split; [done|].
  intros w3 Hs3.
  pose proof (executed_stays w2 w3 id Hr2 Hs3 Hst2) as Hst3.
  split; [done|]. split.
  - by apply (steps_no_token w2 w3 id).
  - intros e' token [[tok w4] Hl].
    apply launchToken_inv in Hl as (_ & Hp & _). congruence.
Qed.

Lemma execute_without_launch_witness :
  reachable Scenario.passed ∧
  status_of
    (transact (Scenario.by_ Scenario.deployer 2500) (ExecuteProposal 0)
       (transact (Scenario.by_ Scenario.deployer 2500)
          (SetBondingCurveFactory Scenario.deployer) Scenario.passed)) 0
    = Executed.
Proof.
  split; [apply passed_reachable|].
  assert (Scenario.deployer ≠ 0) as Hnz by done.
  assert (status_of Scenario.passed 0 = Passed) as Hst by (vm_compute; done).
  exact (proj1 (execute_without_launch Scenario.passed
                  (Scenario.by_ Scenario.deployer 2500) 0
                  passed_reachable eq_refl Hnz Hst)).
Defined.

Lemma exec_tokens_backed e c w w' :
  reachable w → tokens_backed w → exec e c w = Ok w' → tokens_backed w'.
Proof.
  intros Hr [Hmap Hlist] H.
  assert (∀ id, status_of w id = Executed → status_of w' id = Executed) as Hkeep.
  { intros id Hst. destruct (exec_status _ _ _ _ id Hr H) as [->|Hedge]; [done|].
    rewrite Hst in Hedge. inversion Hedge. }
  destruct (exec_tokens _ _ _ _ H) as [(Hm & Hl & _)|(id0 & token & -> & Hlaunch)].
  - split.
    + intros id t. rewrite Hm. eauto.
    + intros t. rewrite Hm, Hl. auto.
  - apply launchToken_inv in Hlaunch as (_ & Hst & _ & _ & Hexec & Hf & _).
    assert (status_of w' id0 = Executed) as Hx.
    { apply executeProposal_inv in Hexec as (_ & _ & r' & _ & Hq).
      unfold status_of. rewrite Hq. cbn. by rewrite rd_insert. }
    unfold tokens_backed. rewrite Hf. cbn. split.
    + intros id t. destruct (decide (id0 = id)) as [<-|Hne]; [done|].
      rewrite lookup_insert_ne by done. eauto.
    + intros t [Hin| ->%list_elem_of_singleton]%elem_of_app.
      * destruct (Hlist t Hin) as [id Hid]. exists id.
        rewrite lookup_insert_ne; [done|].
        intros ->. apply Hmap in Hid. congruence.
      * exists id0. by rewrite lookup_insert_eq.
Qed.

Lemma reachable_tokens_backed w : reachable w → tokens_backed w.
Proof.
  induction 1 as [eQ eF qa fa fee router w Hfa Hd|e c w w' Hr IH H].
  - unfold deploy, BondingCurveFactory.constructor in Hd. ok_inv Hd.
    split; cbn.
    + intros id t. by rewrite lookup_empty.
    + intros t Hin. by apply elem_of_nil in Hin.
  - by eapply exec_tokens_backed.
Qed.

(** X15. Every token the factory lists was approved by every member of
    its quorum: in every ledger that can be reached a token of
    [getAllTokens] is the token that [getTokenByProposal] returns for some
    proposal, that proposal is Executed, and [getVote] returns yes for each
    of its members. *)
Theorem launched_tokens_unanimous w t :
  reachable w →
  t ∈ getAllTokens (factory w) →
  ∃ id, id < AgentQuorum.proposalCount (quorum w) ∧
        BondingCurveFactory.getTokenByProposal id (factory w) = t ∧
        status_of w id = Executed ∧
        ∀ a, a ∈ quorumMembers (AgentQuorum.proposals (quorum w) @ id) →
             QuorumViews.getVote id a (quorum w) = Ok true.
Proof.
  intros Hr Hin. destruct (reachable_tokens_backed w Hr) as [Hmap Hlist].
  destruct (Hlist t Hin) as [id Hid]. pose proof (Hmap id t Hid) as Hst.
  pose proof (reachable_wf _ Hr) as Hwf.
  pose proof (executed_allocated _ _ Hwf Hst) as Hlt.
  exists id. split; [done|]. split.
  { unfold BondingCurveFactory.getTokenByProposal, rd. by rewrite Hid. }
  split; [done|]. intros a Ha.
  pose proof (proj1 (wf_passed_iff _ (wf_allocated _ Hwf id Hlt))
                (or_intror Hst)) as Hall.
  rewrite Forall_forall in Hall. destruct (Hall a Ha) as [Hv Hc].
  unfold QuorumViews.getVote, AgentQuorum.proposalExists.
  rewrite (proj2 (N.ltb_lt _ _) Hlt). cbn. rewrite Hv. cbn. by rewrite Hc.
Qed.

Lemma launched_tokens_unanimous_witness :
  reachable Scenario.launched ∧
  Scenario.tokenAddr ∈ getAllTokens (factory Scenario.launched) ∧
  ∃ id, id < AgentQuorum.proposalCount (quorum Scenario.launched) ∧
        BondingCurveFactory.getTokenByProposal id (factory Scenario.launched)
          = Scenario.tokenAddr.
Proof.
  assert (Scenario.tokenAddr ∈ getAllTokens (factory Scenario.launched)) as Hin.
  { vm_compute. apply list_elem_of_here. }
  split; [apply launched_reachable|]. split; [done|].
  destruct (launched_tokens_unanimous Scenario.launched Scenario.tokenAddr
              launched_reachable Hin) as (id & Hlt & Htok & _).
  by exists id.
Defined.

(** ** Checked arithmetic *)

Lemma require_bind_Panic {A} c msg (k : result A) code :
  require c msg ≫= (λ _, k) = Panic code → c = true ∧ k = Panic code.
Proof. destruct c; cbn; [done|discriminate]. Qed.

Lemma check_duplicates_no_panic m l code :
  AgentQuorum.check_duplicates m l ≠ Panic code.
Proof.
  induction l as [|x l IH]; cbn; [done|].
  destruct (negb (m =? x)); cbn; [done|discriminate].
Qed.

Lemma check_members_no_panic v l code :
  AgentQuorum.check_members v l ≠ Panic code.
Proof.
  induction l as [|x l IH]; cbn; [done|].
  destruct (v @ x); cbn; [|discriminate].
  destruct (AgentQuorum.check_duplicates x l) eqn:Hd; cbn; [done|discriminate|].
  by apply check_duplicates_no_panic in Hd.
Qed.

Lemma createProposal_Panic e n sy d ms q code :
  AgentQuorum.proposalCount q ≤ UINT256_MAX →
  AgentQuorum.createProposal e n sy d ms q = Panic code →
  code = 17 ∧
  (AgentQuorum.proposalCount q = UINT256_MAX ∨
   UINT256_MAX < block_timestamp e + VOTING_PERIOD).
Proof.
  unfold AgentQuorum.createProposal, AgentQuorum.onlyVerifiedAgent.
  intros Hcount H.
  apply require_bind_Panic in H as [_ H].
  apply require_bind_Panic in H as [_ H].
  apply require_bind_Panic in H as [_ H].
  destruct (AgentQuorum.check_members _ _) eqn:Hc; cbn in H; try discriminate.
  2: by apply check_members_no_panic in Hc.
  apply require_bind_Panic in H as [_ H].
  unfold add256 in H.
  destruct (N.leb_spec (AgentQuorum.proposalCount q + 1) UINT256_MAX) as [Hle|Hgt];
    cbn in H.
  - destruct (N.leb_spec (block_timestamp e + VOTING_PERIOD) UINT256_MAX)
      as [Hle'|Hgt']; cbn in H; [discriminate|].
    injection H as <-. split; [done|]. by right.
  - injection H as <-. split; [done|]. left. lia.
Qed.

Lemma castVote_no_panic e id vote q code :
  wf_quorum q → AgentQuorum.castVote e id vote q ≠ Panic code.
Proof.
  intros Hwf H.
  unfold AgentQuorum.castVote, AgentQuorum.proposalExists,
    AgentQuorum.proposalActive in H.
  apply require_bind_Panic in H as [Hid%N.ltb_lt H].
  destruct (bool_decide _); cbn in H; [|discriminate].
  destruct (block_timestamp e <=? _); cbn in H; [|discriminate].
  apply require_bind_Panic in H as [_ H].
  apply require_bind_Panic in H as [_ H].
  pose proof (wf_votes_small _ (wf_allocated _ Hwf id Hid)) as [Hy Hn].
  unfold add256 in H.
  assert (5 < UINT256_MAX) as Hmax by (by vm_compute).
  destruct vote; cbn in H.
  - rewrite (proj2 (N.leb_le _ _)) in H by lia. discriminate.
  - rewrite (proj2 (N.leb_le _ _)) in H by lia. discriminate.
Qed.

Lemma executeProposal_no_panic w e id code :
  reachable w → AgentQuorum.executeProposal e id (quorum w) ≠ Panic code.
Proof.
  intros Hr H.
  destruct (decide (msg_sender e = AgentQuorum.bondingCurveFactory (quorum w)))
    as [He|He].
  - destruct (decide (status_of w id = Passed)) as [Hst|Hst].
    + destruct (executeProposal_intro w e id Hr He Hst) as [q' Hq'].
      congruence.
    + rewrite executeProposal_not_passed in H; [discriminate|done|done].
  - rewrite executeProposal_not_factory in H; [discriminate|done].
Qed.

Lemma on_quorum_Panic r w code : on_quorum r w = Panic code → r = Panic code.
Proof. unfold on_quorum. destruct r; cbn; congruence. Qed.

Lemma on_factory_Panic r w code : on_factory r w = Panic code → r = Panic code.
Proof. unfold on_factory. destruct r; cbn; congruence. Qed.

Lemma fmap_Panic {A B} (f : A → B) (r : result A) code :
  f <$> r = Panic code → r = Panic code.
Proof. destruct r; cbn; congruence. Qed.

(** X16. The checked arithmetic of the two contracts traps in one place
    only. In a ledger that can be reached no call of [castVote],
    [finalizeProposal], [executeProposal], [launchToken] or of an admin
    function aborts with a panic: the vote counters and the reputation
    counters cannot overflow. [createProposal] alone can, with the overflow
    code 0x11, and only when the proposal counter has reached its maximum
    or the deadline [block.timestamp + 7 days] does not fit in 256 bits. *)
Theorem arithmetic_never_traps w e c code :
  reachable w →
  exec e c w = Panic code →
  code = 17 ∧
  (∃ name symbol descr members, c = CreateProposal name symbol descr members) ∧
  (AgentQuorum.proposalCount (quorum w) = UINT256_MAX ∨
   UINT256_MAX < block_timestamp e + VOTING_PERIOD).
Proof.
  intros Hr H. pose proof (reachable_wf _ Hr) as Hwf.
  destruct c; cbn in H.
  - apply on_quorum_Panic in H. unfold AgentQuorum.setBondingCurveFactory,
      AgentQuorum.onlyAdmin in H.
    apply require_bind_Panic in H as [_ H].
    apply require_bind_Panic in H as [_ H]. discriminate.
  - apply on_quorum_Panic in H. unfold AgentQuorum.verifyAgent,
      AgentQuorum.onlyAdmin in H.
    apply require_bind_Panic in H as [_ H].
    apply require_bind_Panic in H as [_ H]. discriminate.
  - apply on_quorum_Panic in H. unfold AgentQuorum.unverifyAgent,
      AgentQuorum.onlyAdmin in H.
    apply require_bind_Panic in H as [_ H].
    apply require_bind_Panic in H as [_ H]. discriminate.
  - apply on_quorum_Panic, fmap_Panic in H.
    apply createProposal_Panic in H as [-> Hwhy]; [|apply Hwf].
    split; [done|]. split; [eauto|done].
  - apply on_quorum_Panic in H. by apply castVote_no_panic in H.
  - apply on_quorum_Panic in H. unfold AgentQuorum.finalizeProposal,
      AgentQuorum.proposalExists in H.
    apply require_bind_Panic in H as [_ H].
    apply require_bind_Panic in H as [_ H].
    apply require_bind_Panic in H as [_ H].
    destruct (negb _); discriminate.
  - apply on_quorum_Panic in H. by apply executeProposal_no_panic in H.
  - apply fmap_Panic in H. unfold launchToken, AgentQuorum.getProposal,
      AgentQuorum.proposalExists in H.
    destruct (id <? AgentQuorum.proposalCount (quorum w)); cbn in H;
      [|discriminate].
    apply require_bind_Panic in H as [_ H].
    apply require_bind_Panic in H as [_ H].
    destruct (AgentQuorum.executeProposal _ id (quorum w)) eqn:Hx; cbn in H;
      try discriminate.
    by apply executeProposal_no_panic in Hx.
  - apply on_factory_Panic in H.
    unfold BondingCurveFactory.updatePlatformFeeRecipient,
      BondingCurveFactory.onlyAdmin in H.
    apply require_bind_Panic in H as [_ H].
    apply require_bind_Panic in H as [_ H]. discriminate.
  - apply on_factory_Panic in H.
    unfold BondingCurveFactory.updateUniswapRouter,
      BondingCurveFactory.onlyAdmin in H.
    apply require_bind_Panic in H as [_ H].
    apply require_bind_Panic in H as [_ H]. discriminate.
Qed.

Lemma arithmetic_never_traps_witness :
  reachable Scenario.verified ∧
  exec (Scenario.by_ Scenario.agentA UINT256_MAX)
    (CreateProposal "Token" "TKN" "late"
       [Scenario.agentA; Scenario.agentB; Scenario.agentC])
    Scenario.verified = Panic 17 ∧
  (AgentQuorum.proposalCount (quorum Scenario.verified) = UINT256_MAX ∨
   UINT256_MAX < UINT256_MAX + VOTING_PERIOD).
Proof.
  assert (exec (Scenario.by_ Scenario.agentA UINT256_MAX)
            (CreateProposal "Token" "TKN" "late"
               [Scenario.agentA; Scenario.agentB; Scenario.agentC])
            Scenario.verified = Panic 17) as H by (vm_compute; reflexivity).
  split; [apply verified_reachable|]. split; [exact H|].
  exact (proj2 (proj2 (arithmetic_never_traps Scenario.verified _ _ 17
                         verified_reachable H))).
Defined.

(** ** The database schema and the contracts *)

(** X17. The tables accept every quorum the contract can hold. In every
    ledger that can be reached the number of members of a stored proposal
    satisfies the check [valid_quorum_size] of the table [quorums], the
    position of every member in the stored list satisfies the check
    [valid_member_index] of the table [quorum_members], and no address
    occurs twice in the list, as the primary key [(quorum_id,
    agent_address)] requires. The sizes that [valid_quorum_size] accepts are
    the sizes between [MIN_QUORUM_SIZE] and [MAX_QUORUM_SIZE]. *)
Theorem quorum_fits_schema w id :
  reachable w →
  id < AgentQuorum.proposalCount (quorum w) →
  let p := AgentQuorum.proposals (quorum w) @ id in
  Schema.valid_quorum_size (Z.of_N (len (quorumMembers p))) = true ∧
  (∀ i a, quorumMembers p !! i = Some a →
          Schema.valid_member_index (Z.of_nat i) = true) ∧
  NoDup (quorumMembers p) ∧
  (Z.of_N (yesVotes p) + Z.of_N (noVotes p)
     ≤ Z.of_N (len (quorumMembers p)))%Z ∧
  (∀ n, Schema.valid_quorum_size (Z.of_N n) = true ↔
        MIN_QUORUM_SIZE ≤ n ∧ n ≤ MAX_QUORUM_SIZE).
Proof.
  intros Hr Hid p.
  pose proof (wf_allocated _ (reachable_wf _ Hr) id Hid) as Hwf. fold p in Hwf.
  destruct Hwf as [Hnd Hmin Hmax Hyes Hno _].
  pose proof (tally_bounds p) as Hb.
  unfold Schema.valid_quorum_size, Schema.valid_member_index,
    MIN_QUORUM_SIZE, MAX_QUORUM_SIZE in *.
  split; [|split; [|split; [|split]]].
  - apply andb_true_iff. split; apply Z.leb_le; lia.
  - intros i a Hi. apply lookup_lt_Some in Hi. unfold len in Hmax.
    apply andb_true_iff. split; [apply Z.leb_le|apply Z.ltb_lt]; lia.
  - done.
  - lia.
  - intros n. rewrite andb_true_iff, !Z.leb_le. lia.
Qed.

Lemma quorum_fits_schema_witness :
  reachable Scenario.launched ∧
  0 < AgentQuorum.proposalCount (quorum Scenario.launched) ∧
  Schema.valid_quorum_size
    (Z.of_N (len (quorumMembers
                    (AgentQuorum.proposals (quorum Scenario.launched) @ 0))))
    = true.
Proof.
  assert (0 < AgentQuorum.proposalCount (quorum Scenario.launched)) as Hid
    by (vm_compute; done).
  split; [apply launched_reachable|]. split; [exact Hid|].
  exact (proj1 (quorum_fits_schema Scenario.launched 0 launched_reachable Hid)).
Defined.

(** ** The leaderboard view *)

Lemma filter_all {A} (P : A → Prop) `{!∀ x, Decision (P x)} (l : list A) :
  (∀ x, x ∈ l → P x) → filter P l = l.
Proof.
  induction l as [|x l IH]; intros Hall; [done|].
  rewrite filter_cons, decide_True by (apply Hall; left).
  f_equal. apply IH. intros y Hy. apply Hall. by right.
Qed.

Lemma filter_keyed (f : string → Z) w (l : list string) :
  NoDup l →
  filter (λ r : string * Z, r.1 = w) ((λ k, (k, f k)) <$> l)
    = if decide (w ∈ l) then [(w, f w)] else [].
Proof.
  induction 1 as [|k l Hk Hnd IH].
  - rewrite decide_False by (apply not_elem_of_nil). done.
  - rewrite fmap_cons, filter_cons. cbn [fst].
    destruct (decide (k = w)) as [->|Hne].
    + rewrite IH. rewrite decide_False by done.
      rewrite decide_True by (apply list_elem_of_here). done.
    + rewrite IH. destruct (decide (w ∈ l)) as [Hin|Hnin].
      * rewrite decide_True by (by apply list_elem_of_further). done.
      * rewrite decide_False; [done|].
        intros [?|?]%elem_of_cons; congruence.
Qed.

Lemma count_rows_zero w keys : Schema.count_rows w keys = 0%Z ↔ w ∉ keys.
Proof.
  unfold Schema.count_rows. induction keys as [|k keys IH].
  - cbn. split; [intros _; apply not_elem_of_nil|done].
  - rewrite filter_cons. destruct (decide (k = w)) as [->|Hne].
    + cbn. split; [lia|]. intros Hn. destruct Hn. apply list_elem_of_here.
    + rewrite IH, not_elem_of_cons. split; [by intros ?|by intros [_ ?]].
Qed.

Lemma filter_group_count w keys :
  filter (λ r : string * Z, r.1 = w) (Schema.group_count keys)
    = if decide (Schema.count_rows w keys = 0%Z) then []
      else [(w, Schema.count_rows w keys)].
Proof.
  unfold Schema.group_count.
  rewrite filter_keyed by apply NoDup_remove_dups.
  destruct (decide (w ∈ remove_dups keys)) as [Hin|Hnin].
  - rewrite decide_False; [done|].
    rewrite count_rows_zero. intros Hn. apply Hn. by apply elem_of_remove_dups.
  - rewrite decide_True; [done|].
    rewrite count_rows_zero. by rewrite <- elem_of_remove_dups.
Qed.

Lemma rows_of_bind (g : Schema.agent → list Schema.leaderboard_row) a agents :
  (∀ a' r, r ∈ g a' → Schema.of_agent r = a') →
  NoDup (Schema.wallet_address <$> agents) →
  a ∈ agents →
  Schema.rows_of (Schema.wallet_address a) (agents ≫= g) = g a.
Proof.
  intros Hg. unfold Schema.rows_of.
  assert (∀ a', Schema.wallet_address a' = Schema.wallet_address a →
    filter (λ r, Schema.wallet_address (Schema.of_agent r)
                   = Schema.wallet_address a) (g a') = g a') as Hall.
  { intros a' Heq. apply filter_all. intros r Hr. by rewrite (Hg _ _ Hr). }
  assert (∀ a', Schema.wallet_address a' ≠ Schema.wallet_address a →
    filter (λ r, Schema.wallet_address (Schema.of_agent r)
                   = Schema.wallet_address a) (g a') = []) as Hnone.
  { intros a' Hne. apply filter_none. intros r Hr. by rewrite (Hg _ _ Hr). }
  induction agents as [|x agents IH]; intros Hnd Hin.
  - by apply elem_of_nil in Hin.
  - cbn in Hnd. apply NoDup_cons in Hnd as [Hx Hnd].
    cbn. rewrite filter_app.
    apply elem_of_cons in Hin as [->|Hin].
    + rewrite Hall by done.
      assert (filter (λ r, Schema.wallet_address (Schema.of_agent r)
                = Schema.wallet_address x) (agents ≫= g) = []) as ->.
      { apply filter_none. intros r [a' [Hr Ha']]%list_elem_of_bind Heq.
        rewrite (Hg _ _ Hr) in Heq. apply Hx. rewrite <- Heq.
        by apply list_elem_of_fmap_2. }
      by rewrite app_nil_r.
    + rewrite Hnone, IH by (try done; intros Heq; apply Hx; rewrite Heq;
                            by apply list_elem_of_fmap_2).
      done.
Qed.

Lemma left_join_agent a p r : r ∈ Schema.left_join a p → r.1 = a.
Proof.
  unfold Schema.left_join, Schema.left_join_on.
  destruct (filter _ p) as [|m ms].
  - by intros ->%list_elem_of_singleton.
  - intros (x & -> & _)%list_elem_of_fmap. done.
Qed.

(** X18. The view [agent_leaderboard] lists an agent once for each side
    on which it occurs in [agent_partnerships]. With unique wallet
    addresses, an agent that is in no partnership has one row, with
    [total_partnerships] 0; an agent that occurs only as [agent_a] or only
    as [agent_b] has one row, with the number of its partnerships; an agent
    that occurs on both sides has two rows, one with each of the two
    counts, and none with their sum. *)
Theorem leaderboard_rows agents ps a :
  NoDup (Schema.wallet_address <$> agents) →
  a ∈ agents →
  let w := Schema.wallet_address a in
  let ca := Schema.count_rows w (Schema.agent_a <$> ps) in
  let cb := Schema.count_rows w (Schema.agent_b <$> ps) in
  let row c := {| Schema.of_agent := a; Schema.total_partnerships := c |} in
  Schema.rows_of w (Schema.agent_leaderboard agents ps) =
    (if decide (ca = 0%Z)
     then if decide (cb = 0%Z) then [row 0%Z] else [row cb]
     else if decide (cb = 0%Z) then [row ca] else [row ca; row cb]) ∧
  (ca ≠ 0%Z → cb ≠ 0%Z →
   Forall (λ r, Schema.total_partnerships r ≠ (ca + cb)%Z)
     (Schema.rows_of w (Schema.agent_leaderboard agents ps))).
Proof.
  intros Hnd Hin w ca cb row.
  assert (Schema.rows_of w (Schema.agent_leaderboard agents ps) =
    (if decide (ca = 0%Z)
     then if decide (cb = 0%Z) then [row 0%Z] else [row cb]
     else if decide (cb = 0%Z) then [row ca] else [row ca; row cb])) as Heq.
  { unfold Schema.agent_leaderboard, w. rewrite rows_of_bind; [|..|done|done].
    - unfold Schema.left_join, Schema.left_join_on, Schema.partnership_counts.
      rewrite filter_app, !filter_group_count. fold w ca cb.
      destruct (decide (ca = 0%Z)), (decide (cb = 0%Z)); done.
    - intros a' r (x & -> & Hx)%list_elem_of_fmap. cbn.
      by apply left_join_agent in Hx. }
  split; [done|]. intros Ha Hb. rewrite Heq.
  rewrite !decide_False by done.
  repeat constructor; cbn; lia.
Qed.

Lemma leaderboard_rows_witness :
  NoDup (Schema.wallet_address <$> BoardScenario.agents) ∧
  BoardScenario.alice ∈ BoardScenario.agents ∧
  Schema.total_partnerships <$>
    Schema.rows_of (Schema.wallet_address BoardScenario.alice)
      (Schema.agent_leaderboard BoardScenario.agents BoardScenario.partnerships)
    = [2%Z; 1%Z].
Proof.
  assert (NoDup (Schema.wallet_address <$> BoardScenario.agents)) as Hnd.
  { apply (bool_decide_unpack (NoDup _)). vm_compute. exact I. }
  assert (BoardScenario.alice ∈ BoardScenario.agents) as Hin
    by apply list_elem_of_here.
  split; [exact Hnd|]. split; [exact Hin|].
  rewrite (proj1 (leaderboard_rows BoardScenario.agents
                    BoardScenario.partnerships BoardScenario.alice Hnd Hin)).
  reflexivity.
Defined.

(** ** The views of the markets *)

Lemma filter_fmap_comm {A B} (f : A → B) (P : B → Prop)
    `{!∀ x, Decision (P x)} (l : list A) :
  filter P (f <$> l) = f <$> filter (λ x, P (f x)) l.
Proof.
  induction l as [|x l IH]; [done|].
  rewrite fmap_cons, !filter_cons, IH. by destruct (decide (P (f x))).
Qed.

Lemma filter_comm {A} (P Q : A → Prop) `{!∀ x, Decision (P x)}
    `{!∀ x, Decision (Q x)} (l : list A) :
  filter P (filter Q l) = filter Q (filter P l).
Proof.
  rewrite !list_filter_filter. apply list_filter_iff. tauto.
Qed.

Lemma filter_remove_dups {A} `{EqDecision A} (P : A → Prop)
    `{!∀ x, Decision (P x)} (l : list A) :
  filter P (remove_dups l) = remove_dups (filter P l).
Proof.
  induction l as [|x l IH]; [done|].
  cbn [remove_dups]. rewrite filter_cons.
  destruct (decide (P x)) as [HP|HP].
  - cbn [remove_dups].
    destruct (decide_rel elem_of x l) as [Hin|Hnin];
      destruct (decide_rel elem_of x (filter P l)) as [Hf|Hf].
    + done.
    + destruct Hf. by apply list_elem_of_filter.
    + apply list_elem_of_filter in Hf as [_ Hf]. done.
    + rewrite filter_cons, decide_True by done. by rewrite IH.
  - destruct (decide_rel elem_of x l) as [Hin|Hnin]; [done|].
    rewrite filter_cons, decide_False by done. done.
Qed.

Lemma omap_fmap_list {A B C} (f : B → option C) (g : A → B) (l : list A) :
  omap f (g <$> l) = omap (λ x, f (g x)) l.
Proof.
  induction l as [|x l IH]; [done|]. cbn. rewrite IH. done.
Qed.

Lemma filter_omap {A B} (f : A → option B) (P : B → Prop) (Q : A → Prop)
    `{!∀ y, Decision (P y)} `{!∀ x, Decision (Q x)} (l : list A) :
  (∀ x y, x ∈ l → f x = Some y → (P y ↔ Q x)) →
  filter P (omap f l) = omap f (filter Q l).
Proof.
  induction l as [|x l IH]; intros Hf; [done|].
  assert (filter P (omap f l) = omap f (filter Q l)) as IH'.
  { apply IH. intros x' y Hx'. apply Hf. by right. }
  cbn [omap list_omap]. rewrite filter_cons.
  destruct (f x) as [y|] eqn:Hfx.
  - pose proof (Hf x y (list_elem_of_here _ _) Hfx) as Hiff.
    rewrite filter_cons.
    destruct (decide (P y)) as [HP|HP].
    + rewrite decide_True by tauto. cbn. by rewrite Hfx, IH'.
    + rewrite decide_False by tauto. done.
  - destruct (decide (Q x)); [|done]. cbn. by rewrite Hfx.
Qed.

Lemma filter_bind_key {A B K} `{EqDecision K} (ka : A → K) (kb : B → K)
    (g : A → list B) a (l : list A) :
  (∀ a' b, b ∈ g a' → kb b = ka a') →
  NoDup (ka <$> l) → a ∈ l →
  filter (λ b, kb b = ka a) (l ≫= g) = g a.
Proof.
  intros Hg.
  induction l as [|x l IH]; intros Hnd Hin.
  - by apply elem_of_nil in Hin.
  - cbn in Hnd. apply NoDup_cons in Hnd as [Hx Hnd].
    cbn. rewrite filter_app.
    destruct (decide (ka x = ka a)) as [Heq|Hne].
    + assert (filter (λ b, kb b = ka a) (l ≫= g) = []) as ->.
      { apply filter_none. intros b [a' [Hb Ha']]%list_elem_of_bind Hkb.
        rewrite (Hg _ _ Hb) in Hkb. apply Hx. rewrite Heq, <- Hkb.
        by apply list_elem_of_fmap_2. }
      rewrite app_nil_r.
      apply elem_of_cons in Hin as [->|Hin].
      * apply filter_all. intros b Hb. by apply Hg.
      * destruct Hx. rewrite Heq. by apply list_elem_of_fmap_2.
    + apply elem_of_cons in Hin as [->|Hin]; [done|].
      rewrite IH by done.
      rewrite filter_none; [done|].
      intros b Hb Hkb. rewrite (Hg _ _ Hb) in Hkb. done.
Qed.

Lemma remove_dups_const {A} `{EqDecision A} (k : A) (l : list A) :
  l ≠ [] → (∀ x, x ∈ l → x = k) → remove_dups l = [k].
Proof.
  induction l as [|x l IH]; intros Hne Hall; [done|].
  assert (x = k) as -> by (apply Hall; left).
  cbn [remove_dups]. destruct (decide_rel elem_of k l) as [Hin|Hnin].
  - apply IH; [by intros ->; apply elem_of_nil in Hin|].
    intros x Hx. apply Hall. by right.
  - destruct l as [|y l]; [done|].
    destruct Hnin. rewrite (Hall y) by (right; left). left.
Qed.

Lemma remove_dups_nodup {A} `{EqDecision A} (l : list A) :
  NoDup l → remove_dups l = l.
Proof.
  induction 1 as [|x l Hx Hnd IH]; [done|].
  cbn [remove_dups]. destruct (decide_rel elem_of x l); [done|]. by rewrite IH.
Qed.

Lemma left_join_on_unique {A B} (l : list B) (a : A) :
  (length l ≤ 1)%nat → Schema.left_join_on l a = [(a, head l)].
Proof. destruct l as [|x [|y l]]; cbn; [done|done|lia]. Qed.

Lemma left_join_on_fst {A B} (l : list B) (a : A) r :
  r ∈ Schema.left_join_on l a → r.1 = a.
Proof.
  unfold Schema.left_join_on. destruct l as [|x l].
  - by intros ->%list_elem_of_singleton.
  - by intros (y & -> & _)%list_elem_of_fmap.
Qed.

Lemma left_join_on_nonempty {A B} (l : list B) (a : A) :
  Schema.left_join_on l a ≠ [].
Proof. by destruct l. Qed.

Lemma quorum_matches_unique m qs :
  NoDup (Schema.quorums_id <$> qs) →
  (length (filter (λ q, Schema.quorum_id m = Some (Schema.quorums_id q)) qs)
     ≤ 1)%nat.
Proof.
  induction qs as [|q qs IH]; intros Hnd; [cbn; lia|].
  cbn in Hnd. apply NoDup_cons in Hnd as [Hq Hnd].
  rewrite filter_cons. destruct (decide _) as [Hm|Hm]; [|by apply IH].
  rewrite filter_none; [cbn; lia|].
  intros q' Hq' Hm'. apply Hq. rewrite Hm in Hm'. injection Hm' as ->.
  by apply list_elem_of_fmap_2.
Qed.

Lemma joined_rows_of ms qs ts m :
  NoDup (Schema.markets_id <$> ms) →
  NoDup (Schema.quorums_id <$> qs) →
  m ∈ ms →
  filter (λ r : Schema.joined_row, Schema.markets_id r.1.1 = Schema.markets_id m)
    (Schema.markets_joined ms qs ts)
  = Schema.left_join_on (Schema.trades_of m ts) (m, Schema.quorum_of m qs).
Proof.
  intros Hms Hqs Hin. unfold Schema.markets_joined.
  rewrite (filter_bind_key Schema.markets_id
             (λ r : Schema.joined_row, Schema.markets_id r.1.1) _ m);
    [|..|done|done].
  - rewrite left_join_on_unique by (by apply quorum_matches_unique).
    cbn. by rewrite app_nil_r.
  - intros m' r (mq & Hr & Hmq)%list_elem_of_bind.
    apply left_join_on_fst in Hr, Hmq. by rewrite Hr, Hmq.
Qed.

Lemma view_rows_for {R} (sel : list Schema.joined_row → option R)
    (mkt : R → Schema.market) flag ms qs ts m :
  (∀ g o, sel g = Some o → ∃ r, head g = Some r ∧ mkt o = r.1.1) →
  NoDup (Schema.markets_id <$> ms) →
  NoDup (Schema.quorums_id <$> qs) →
  m ∈ ms →
  filter (λ o, Schema.markets_id (mkt o) = Schema.markets_id m)
    (omap sel (Schema.market_groups flag ms qs ts))
  = if decide (Schema.graduated m = Some flag)
    then option_list
           (sel (Schema.left_join_on (Schema.trades_of m ts)
                   (m, Schema.quorum_of m qs)))
    else [].
Proof.
  intros Hsel Hms Hqs Hin.
  unfold Schema.market_groups, Schema.group_by.
  set (rows := filter (λ r : Schema.joined_row,
                         Schema.graduated r.1.1 = Some flag)
                 (Schema.markets_joined ms qs ts)).
  set (mine := Schema.left_join_on (Schema.trades_of m ts)
                 (m, Schema.quorum_of m qs)).
  assert (∀ r, r ∈ mine → r.1 = (m, Schema.quorum_of m qs)) as Hmine
    by (intros r; apply left_join_on_fst).
  assert (filter (λ r : Schema.joined_row,
                    Schema.markets_id r.1.1 = Schema.markets_id m) rows
          = if decide (Schema.graduated m = Some flag) then mine else [])
    as Hrows.
  { unfold rows. rewrite filter_comm, joined_rows_of by done. fold mine.
    destruct (decide (Schema.graduated m = Some flag)) as [Hg|Hg].
    - apply filter_all. intros r Hr. by rewrite (Hmine r Hr).
    - apply filter_none. intros r Hr. by rewrite (Hmine r Hr). }
  rewrite omap_fmap_list.
  rewrite (filter_omap _ _
             (λ k : N * option string * option Z, k.1.1 = Schema.markets_id m)).
  2:{ intros k o _ Ho. apply Hsel in Ho as (r & Hr & ->).
      apply head_Some_elem_of, list_elem_of_filter in Hr as [<- _]. done. }
  rewrite filter_remove_dups.
  rewrite (filter_fmap_comm Schema.group_key
             (λ k : N * option string * option Z, k.1.1 = Schema.markets_id m)).
  cbn [Schema.group_key fst]. rewrite Hrows.
  destruct (decide (Schema.graduated m = Some flag)) as [Hg|Hg]; [|done].
  set (km := (Schema.markets_id m,
              Schema.proposer_address <$> Schema.quorum_of m qs,
              Schema.quorum_size <$> Schema.quorum_of m qs)).
  assert (∀ r, r ∈ mine → Schema.group_key r = km) as Hkey.
  { intros r Hr. unfold Schema.group_key. by rewrite (Hmine r Hr). }
  rewrite (remove_dups_const km).
  2:{ unfold mine. intros Hnil%fmap_nil_inv.
      by apply left_join_on_nonempty in Hnil. }
  2:{ intros k (r & -> & Hr)%list_elem_of_fmap. by apply Hkey. }
  cbn [omap list_omap].
  assert (filter (λ r, Schema.group_key r = km) rows = mine) as ->.
  { rewrite <- (list_filter_filter_l (λ r, Schema.group_key r = km)
                  (λ r : Schema.joined_row,
                     Schema.markets_id r.1.1 = Schema.markets_id m)).
    2:{ intros r Hr. unfold Schema.group_key, km in Hr. by injection Hr. }
    rewrite Hrows. rewrite ?decide_True by done. by apply filter_all. }
  by destruct (sel mine).
Qed.

Lemma joined_trade_column {A B} `{EqDecision B} (f : Schema.trade → B)
    (l : list Schema.trade) (a : A) :
  omap (λ x, x)
    ((λ r : A * option Schema.trade, f <$> r.2) <$> Schema.left_join_on l a)
  = f <$> l.
Proof.
  unfold Schema.left_join_on. destruct l as [|t l]; [done|].
  generalize (t :: l). clear. intros l.
  induction l as [|x l IH]; [done|]. cbn. f_equal. exact IH.
Qed.

Lemma sum_cons x l : Schema.sum (x :: l) = (x + Schema.sum l)%Z.
Proof. done. Qed.

Lemma joined_amounts {A} (h : A * option Schema.trade → Z)
    (g : Schema.trade → Z) (l : list Schema.trade) (a : A) :
  h (a, None) = 0%Z → (∀ t, h (a, Some t) = g t) →
  Schema.sum (h <$> Schema.left_join_on l a) = Schema.sum (g <$> l).
Proof.
  intros Hnone Hsome. unfold Schema.left_join_on. destruct l as [|t l].
  - rewrite fmap_cons, sum_cons, Hnone. done.
  - generalize (t :: l). clear t l. intros l.
    induction l as [|x l IH]; [done|].
    rewrite !fmap_cons, !sum_cons, Hsome, IH. done.
Qed.

Lemma sum_side (side : bool) (g : Schema.trade → Z) (l : list Schema.trade) :
  (∀ t, g t = if bool_decide (Schema.is_buy t = side)
              then Schema.eth_amount t else 0%Z) →
  Schema.sum (g <$> l)
  = Schema.sum (Schema.eth_amount <$> filter (λ t, Schema.is_buy t = side) l).
Proof.
  intros Hg. induction l as [|t l IH]; [done|].
  rewrite fmap_cons, sum_cons, filter_cons, Hg, IH.
  case_bool_decide as Hs.
  - rewrite decide_True by done. by rewrite fmap_cons, sum_cons.
  - rewrite decide_False by done. done.
Qed.

Lemma sum_by_side (l : list Schema.trade) :
  (Schema.sum (Schema.eth_amount <$> filter (λ t, Schema.is_buy t = true) l)
   + Schema.sum (Schema.eth_amount <$> filter (λ t, Schema.is_buy t = false) l)
   = Schema.sum (Schema.eth_amount <$> l))%Z.
Proof.
  induction l as [|t l IH]; [done|].
  rewrite !filter_cons, fmap_cons, sum_cons.
  destruct (Schema.is_buy t).
  - rewrite decide_True, decide_False by done.
    rewrite fmap_cons, sum_cons. lia.
  - rewrite decide_False, decide_True by done.
    rewrite fmap_cons, sum_cons. lia.
Qed.

Lemma graduated_select_head g o :
  Schema.graduated_select g = Some o →
  ∃ r, head g = Some r ∧ Schema.gm_market o = r.1.1.
Proof. destruct g as [|r g]; [done|]. intros [= <-]. by exists r. Qed.

Lemma active_select_head g o :
  Schema.active_select g = Some o →
  ∃ r, head g = Some r ∧ Schema.am_market o = r.1.1.
Proof. destruct g as [|r g]; [done|]. intros [= <-]. by exists r. Qed.

Lemma left_join_on_head {A B} (l : list B) (a : A) :
  ∃ r rest, Schema.left_join_on l a = r :: rest ∧ r.1 = a.
Proof. destruct l as [|x l]; cbn; eauto. Qed.

Lemma trade_ids_nodup m ts :
  NoDup (Schema.trades_id <$> ts) →
  NoDup (Schema.trades_id <$> Schema.trades_of m ts).
Proof.
  intros Hnd. unfold Schema.trades_of.
  induction ts as [|t ts IH]; [done|].
  cbn in Hnd. apply NoDup_cons in Hnd as [Ht Hnd].
  rewrite filter_cons. destruct (decide _); [|by apply IH].
  rewrite fmap_cons. apply NoDup_cons. split; [|by apply IH].
  intros (t' & Heq & [_ Hin]%list_elem_of_filter)%list_elem_of_fmap.
  apply Ht. rewrite Heq. by apply list_elem_of_fmap_2.
Qed.

Lemma graduated_select_joined l (a : Schema.market * option Schema.quorum) :
  Schema.graduated_select (Schema.left_join_on l a)
  = Some {| Schema.gm_market := a.1;
            Schema.gm_proposer_address := Schema.proposer_address <$> a.2;
            Schema.gm_quorum_size := Schema.quorum_size <$> a.2;
            Schema.total_trades :=
              Schema.count_distinct
                (Schema.trade_ids (Schema.left_join_on l a));
            Schema.total_buy_volume :=
              Schema.sum (Schema.buy_amount <$> Schema.left_join_on l a);
            Schema.total_sell_volume :=
              Schema.sum (Schema.sell_amount <$> Schema.left_join_on l a) |}.
Proof.
  destruct (left_join_on_head l a) as (r & rest & Hj & Hr).
  rewrite Hj. unfold Schema.graduated_select. by rewrite Hr.
Qed.

Lemma active_select_joined l (a : Schema.market * option Schema.quorum) :
  Schema.active_select (Schema.left_join_on l a)
  = Some {| Schema.am_market := a.1;
            Schema.am_proposer_address := Schema.proposer_address <$> a.2;
            Schema.am_quorum_size := Schema.quorum_size <$> a.2;
            Schema.trade_count :=
              Schema.count_distinct
                (Schema.trade_ids (Schema.left_join_on l a));
            Schema.unique_traders :=
              Schema.count_distinct
                (Schema.trader_addresses (Schema.left_join_on l a)) |}.
Proof.
  destruct (left_join_on_head l a) as (r & rest & Hj & Hr).
  rewrite Hj. unfold Schema.active_select. by rewrite Hr.
Qed.

Lemma count_trade_ids m ts (a : Schema.market * option Schema.quorum) :
  NoDup (Schema.trades_id <$> ts) →
  Schema.count_distinct
    (Schema.trade_ids (Schema.left_join_on (Schema.trades_of m ts) a))
  = Z.of_nat (length (Schema.trades_of m ts)).
Proof.
  intros Hts. unfold Schema.count_distinct.
  assert (omap (λ x, x)
            (Schema.trade_ids (Schema.left_join_on (Schema.trades_of m ts) a))
          = Schema.trades_id <$> Schema.trades_of m ts) as ->
    by apply (joined_trade_column Schema.trades_id).
  rewrite remove_dups_nodup by (by apply trade_ids_nodup).
  by rewrite length_fmap.
Qed.

Lemma count_traders l (a : Schema.market * option Schema.quorum) :
  Schema.count_distinct (Schema.trader_addresses (Schema.left_join_on l a))
  = Z.of_nat (length (remove_dups (Schema.trader_address <$> l))).
Proof.
  unfold Schema.count_distinct.
  assert (omap (λ x, x) (Schema.trader_addresses (Schema.left_join_on l a))
          = Schema.trader_address <$> l) as ->
    by apply (joined_trade_column Schema.trader_address).
  done.
Qed.

Lemma buy_volume l (a : Schema.market * option Schema.quorum) :
  Schema.sum (Schema.buy_amount <$> Schema.left_join_on l a)
  = Schema.sum (Schema.eth_amount <$> filter (λ t, Schema.is_buy t = true) l).
Proof.
  rewrite (joined_amounts Schema.buy_amount
             (λ t, if Schema.is_buy t then Schema.eth_amount t else 0%Z))
    by done.
  apply (sum_side true). intros t. by destruct (Schema.is_buy t).
Qed.

Lemma sell_volume l (a : Schema.market * option Schema.quorum) :
  Schema.sum (Schema.sell_amount <$> Schema.left_join_on l a)
  = Schema.sum (Schema.eth_amount <$> filter (λ t, Schema.is_buy t = false) l).
Proof.
  rewrite (joined_amounts Schema.sell_amount
             (λ t, if negb (Schema.is_buy t) then Schema.eth_amount t else 0%Z))
    by done.
  apply (sum_side false). intros t. by destruct (Schema.is_buy t).
Qed.

(** X19. With [markets.id], [quorums.id] and [trades.id] being keys, the
    view [graduated_markets] has exactly one row for a market whose
    [graduated] is [TRUE] and none for a market whose [graduated] is
    [FALSE] or [NULL]. The row carries the market, the proposer and the
    size of its quorum ([NULL] without one), the number of its trades, and
    its buy and its sell volume, which are the ETH of its buys and of its
    sells and together the ETH of all its trades; the join with two tables
    counts no trade twice, and a market without trades has 0 in the three
    columns. *)
Theorem graduated_markets_rows ms qs ts m :
  NoDup (Schema.markets_id <$> ms) →
  NoDup (Schema.quorums_id <$> qs) →
  NoDup (Schema.trades_id <$> ts) →
  m ∈ ms →
  let mine := Schema.trades_of m ts in
  let buys := filter (λ t, Schema.is_buy t = true) mine in
  let sells := filter (λ t, Schema.is_buy t = false) mine in
  filter (λ r, Schema.markets_id (Schema.gm_market r) = Schema.markets_id m)
    (Schema.graduated_markets ms qs ts)
  = (if decide (Schema.graduated m = Some true)
     then [ {| Schema.gm_market := m;
               Schema.gm_proposer_address :=
                 Schema.proposer_address <$> Schema.quorum_of m qs;
               Schema.gm_quorum_size :=
                 Schema.quorum_size <$> Schema.quorum_of m qs;
               Schema.total_trades := Z.of_nat (length mine);
               Schema.total_buy_volume :=
                 Schema.sum (Schema.eth_amount <$> buys);
               Schema.total_sell_volume :=
                 Schema.sum (Schema.eth_amount <$> sells) |} ]
     else []) ∧
  (Schema.sum (Schema.eth_amount <$> buys)
   + Schema.sum (Schema.eth_amount <$> sells)
   = Schema.sum (Schema.eth_amount <$> mine))%Z ∧
  (mine = [] →
   Schema.sum (Schema.eth_amount <$> buys) = 0%Z ∧
   Schema.sum (Schema.eth_amount <$> sells) = 0%Z).
Proof.
  intros Hms Hqs Hts Hin mine buys sells.
  split; [|split; [apply sum_by_side|]].
  - unfold Schema.graduated_markets.
    rewrite (view_rows_for Schema.graduated_select Schema.gm_market true)
      by (done || apply graduated_select_head).
    destruct (decide (Schema.graduated m = Some true)); [|done].
    rewrite graduated_select_joined, count_trade_ids, buy_volume, sell_volume
      by done.
    done.
  - intros Hnil. unfold buys, sells. rewrite Hnil. done.
Qed.

Lemma graduated_markets_rows_witness :
  NoDup (Schema.markets_id <$> ViewScenario.markets) ∧
  NoDup (Schema.quorums_id <$> ViewScenario.quorums) ∧
  NoDup (Schema.trades_id <$> ViewScenario.trades) ∧
  ViewScenario.launched ∈ ViewScenario.markets ∧
  (λ r, (Schema.total_trades r, Schema.total_buy_volume r,
         Schema.total_sell_volume r))
    <$> filter (λ r, Schema.markets_id (Schema.gm_market r)
                       = Schema.markets_id ViewScenario.launched)
          (Schema.graduated_markets ViewScenario.markets ViewScenario.quorums
             ViewScenario.trades)
  = [(3, 12, 3)%Z].
Proof.
  assert (NoDup (Schema.markets_id <$> ViewScenario.markets)) as Hms.
  { apply (bool_decide_unpack (NoDup _)). vm_compute. exact I. }
  assert (NoDup (Schema.quorums_id <$> ViewScenario.quorums)) as Hqs.
  { apply (bool_decide_unpack (NoDup _)). vm_compute. exact I. }
  assert (NoDup (Schema.trades_id <$> ViewScenario.trades)) as Hts.
  { apply (bool_decide_unpack (NoDup _)). vm_compute. exact I. }
  assert (ViewScenario.launched ∈ ViewScenario.markets) as Hin
    by apply list_elem_of_here.
  split; [exact Hms|]. split; [exact Hqs|]. split; [exact Hts|].
  split; [exact Hin|].
  rewrite (proj1 (graduated_markets_rows ViewScenario.markets
                    ViewScenario.quorums ViewScenario.trades
                    ViewScenario.launched Hms Hqs Hts Hin)).
  reflexivity.
Defined.

(** X20. With the same keys, the view [active_markets] has exactly one row
    for a market whose [graduated] is [FALSE], with the number of its
    trades and the number of different traders among them, and none for any
    other market. No market is in both views, and a market whose
    [graduated] is [NULL], which the column allows, is in neither. *)
Theorem active_markets_rows ms qs ts m :
  NoDup (Schema.markets_id <$> ms) →
  NoDup (Schema.quorums_id <$> qs) →
  NoDup (Schema.trades_id <$> ts) →
  m ∈ ms →
  let mine := Schema.trades_of m ts in
  let active :=
    filter (λ r, Schema.markets_id (Schema.am_market r) = Schema.markets_id m)
      (Schema.active_markets ms qs ts) in
  let graduated :=
    filter (λ r, Schema.markets_id (Schema.gm_market r) = Schema.markets_id m)
      (Schema.graduated_markets ms qs ts) in
  active
  = (if decide (Schema.graduated m = Some false)
     then [ {| Schema.am_market := m;
               Schema.am_proposer_address :=
                 Schema.proposer_address <$> Schema.quorum_of m qs;
               Schema.am_quorum_size :=
                 Schema.quorum_size <$> Schema.quorum_of m qs;
               Schema.trade_count := Z.of_nat (length mine);
               Schema.unique_traders :=
                 Z.of_nat (length (remove_dups
                                     (Schema.trader_address <$> mine))) |} ]
     else []) ∧
  (active = [] ∨ graduated = []) ∧
  (Schema.graduated m = None → active = [] ∧ graduated = []).
Proof.
  intros Hms Hqs Hts Hin mine active graduated.
  assert (active = if decide (Schema.graduated m = Some false)
                   then option_list
                          (Schema.active_select
                             (Schema.left_join_on mine (m, Schema.quorum_of m qs)))
                   else []) as Ha.
  { unfold active, Schema.active_markets.
    by rewrite (view_rows_for Schema.active_select Schema.am_market false)
      by (done || apply active_select_head). }
  assert (graduated = if decide (Schema.graduated m = Some true)
                      then option_list
                             (Schema.graduated_select
                                (Schema.left_join_on mine
                                   (m, Schema.quorum_of m qs)))
                      else []) as Hg.
  { unfold graduated, Schema.graduated_markets.
    by rewrite (view_rows_for Schema.graduated_select Schema.gm_market true)
      by (done || apply graduated_select_head). }
  split; [|split].
  - rewrite Ha. destruct (decide (Schema.graduated m = Some false)); [|done].
    unfold mine.
    rewrite active_select_joined, count_trade_ids, count_traders by done.
    done.
  - rewrite Ha, Hg.
    destruct (decide (Schema.graduated m = Some false)) as [Hf|Hf];
      [|by left].
    right. rewrite decide_False; [done|congruence].
  - intros Hnone. rewrite Ha, Hg.
    rewrite !decide_False by congruence. done.
Qed.

Lemma active_markets_rows_witness :
  NoDup (Schema.markets_id <$> ViewScenario.markets) ∧
  NoDup (Schema.quorums_id <$> ViewScenario.quorums) ∧
  NoDup (Schema.trades_id <$> ViewScenario.trades) ∧
  ViewScenario.unset ∈ ViewScenario.markets ∧
  filter (λ r, Schema.markets_id (Schema.am_market r)
                 = Schema.markets_id ViewScenario.unset)
    (Schema.active_markets ViewScenario.markets ViewScenario.quorums
       ViewScenario.trades) = [].
Proof.
  assert (NoDup (Schema.markets_id <$> ViewScenario.markets)) as Hms.
  { apply (bool_decide_unpack (NoDup _)). vm_compute. exact I. }
  assert (NoDup (Schema.quorums_id <$> ViewScenario.quorums)) as Hqs.
  { apply (bool_decide_unpack (NoDup _)). vm_compute. exact I. }
  assert (NoDup (Schema.trades_id <$> ViewScenario.trades)) as Hts.
  { apply (bool_decide_unpack (NoDup _)). vm_compute. exact I. }
  assert (ViewScenario.unset ∈ ViewScenario.markets) as Hin.
  { do 3 apply list_elem_of_further. apply list_elem_of_here. }
  split; [exact Hms|]. split; [exact Hqs|]. split; [exact Hts|].
  split; [exact Hin|].
  exact (proj1 (proj2 (proj2 (active_markets_rows ViewScenario.markets
                  ViewScenario.quorums ViewScenario.trades
                  ViewScenario.unset Hms Hqs Hts Hin)) eq_refl)).
Defined.

(** ** Launches under the deployed linkage *)

Lemma executed_kept q q' :
  AgentQuorum.proposalCount q' = AgentQuorum.proposalCount q →
  (∀ id, qstatus q' id = Executed ↔ qstatus q id = Executed) →
  (∀ id, qstatus q' id = Executed ↔ qstatus q id = Executed) ∧
  len (executed q') = len (executed q).
Proof.
  intros Hc Hst. split; [done|]. apply executed_same; [done|].
  intros id _. apply Hst.
Qed.

Lemma createProposal_executed e n sy d ms q id0 q' :
  wf_quorum q →
  AgentQuorum.createProposal e n sy d ms q = Ok (id0, q') →
  (∀ id, qstatus q' id = Executed ↔ qstatus q id = Executed) ∧
  len (executed q') = len (executed q).
Proof.
  intros Hwf H.
  apply createProposal_inv in H as (_ & _ & _ & _ & _ & _ & -> & _ & _ & Hq').
  cbv zeta in Hq'.
  assert (AgentQuorum.proposalCount q' = AgentQuorum.proposalCount q + 1) as Hc
    by (by subst q').
  assert (∀ id, qstatus q' id = Executed ↔ qstatus q id = Executed) as Hst.
  { intros id. unfold qstatus. subst q'. cbn.
    destruct (decide (AgentQuorum.proposalCount q = id)) as [<-|Hne].
    - rewrite rd_insert. cbn.
      rewrite (rd_free q _ (wf_free _ Hwf _ (N.le_refl _))). done.
    - by rewrite rd_insert_ne. }
  split; [done|].
  unfold executed, len. rewrite Hc, ids_succ, filter_app, length_app.
  rewrite (filter_length_same (λ id, qstatus q' id = Executed)
             (λ id, qstatus q id = Executed)) by (intros id _; apply Hst).
  rewrite filter_cons, decide_False; [cbn; lia|].
  rewrite Hst. unfold qstatus.
  rewrite (rd_free q _ (wf_free _ Hwf _ (N.le_refl _))). done.
Qed.

Lemma castVote_executed e id0 v q q' :
  AgentQuorum.castVote e id0 v q = Ok q' →
  (∀ id, qstatus q' id = Executed ↔ qstatus q id = Executed) ∧
  len (executed q') = len (executed q).
Proof.
  intros H. apply castVote_inv in H as (_ & Hst & _ & _ & _ & ->).
  apply executed_kept; [done|]. intros id. unfold qstatus. cbn.
  destruct (decide (id0 = id)) as [<-|Hne]; [|by rewrite rd_insert_ne].
  rewrite rd_insert, status_check_cases, Hst. cbn. rewrite Hst.
  destruct (0 <? _); [done|]. destruct (_ =? _); done.
Qed.

Lemma finalizeProposal_executed e id0 q q' :
  AgentQuorum.finalizeProposal e id0 q = Ok q' →
  (∀ id, qstatus q' id = Executed ↔ qstatus q id = Executed) ∧
  len (executed q') = len (executed q).
Proof.
  intros H.
  apply finalizeProposal_inv in H as (_ & Hst & _ & [[_ ->]|[_ ->]]); [|done].
  apply executed_kept; [done|]. intros id. unfold qstatus. cbn.
  destruct (decide (id0 = id)) as [<-|Hne]; [|by rewrite rd_insert_ne].
  rewrite rd_insert, Hst. done.
Qed.

Lemma operated_reachable w : operated w → reachable w.
Proof.
  induction 1 as [eQ eF qa fa fee router w Hfa Hd|e c w w' _ IH _ _ _ _ H].
  - by eapply reachable_deploy.
  - by eapply reachable_step.
Qed.

Lemma exec_launches_exact e c w w' :
  reachable w → launches_exact w →
  msg_sender e ≠ 0 →
  msg_sender e ≠ factoryAddress w →
  (∀ f, c = SetBondingCurveFactory f → f = factoryAddress w) →
  (∀ id token, c = LaunchToken id token → token ≠ 0) →
  exec e c w = Ok w' →
  launches_exact w'.
Proof.
  intros Hr [Hreg Hlink Hcount] Hz Hf Hset Htok H.
  pose proof (reachable_wf _ Hr) as Hwf.
  assert (∀ q', (∀ id, qstatus q' id = Executed ↔ qstatus (quorum w) id = Executed) ∧
                len (executed q') = len (executed (quorum w)) →
                AgentQuorum.bondingCurveFactory q' = 0 ∨
                AgentQuorum.bondingCurveFactory q' = factoryAddress w →
                launches_exact (with_quorum q' w)) as Hkeep.
  { intros q' [Hst Hlen] Hreg'. constructor; cbn.
    - done.
    - intros id. unfold status_of. cbn. fold (qstatus q' id).
      rewrite Hst. apply Hlink.
    - by rewrite Hlen. }
  destruct c; cbn in H; unfold on_quorum, on_factory in H.
  - ok_inv H. unfold AgentQuorum.setBondingCurveFactory in Hq. ok_inv Hq.
    apply Hkeep; [by apply executed_kept|]. cbn. right. by apply Hset.
  - ok_inv H. unfold AgentQuorum.verifyAgent in Hq. ok_inv Hq.
    apply Hkeep; [by apply executed_kept|done].
  - ok_inv H. unfold AgentQuorum.unverifyAgent in Hq. ok_inv Hq.
    apply Hkeep; [by apply executed_kept|done].
  - ok_inv H. destruct H0 as [id q']. cbn.
    apply Hkeep; [by eapply createProposal_executed|].
    apply createProposal_inv in Hq
      as (_ & _ & _ & _ & _ & _ & _ & _ & _ & ->). done.
  - ok_inv H. apply Hkeep; [by eapply castVote_executed|].
    apply castVote_inv in Hq as (_ & _ & _ & _ & _ & ->). done.
  - ok_inv H. apply Hkeep; [by eapply finalizeProposal_executed|].
    apply finalizeProposal_inv in Hq as (_ & _ & _ & [[_ ->]|[_ ->]]); done.
  - ok_inv H. apply executeProposal_inv in Hq as (He & _).
    destruct Hreg as [Hreg|Hreg]; congruence.
  - apply fmap_Ok in H as ([tok w1] & H & <-).
    pose proof H as Hinv.
    apply launchToken_inv in Hinv as (Hid & Hst & Hnone & -> & Hexec & Hfac & Hfa).
    specialize (Htok id token eq_refl).
    pose proof (executeProposal_executed _ _ _ _ Hwf Hexec) as Hplus.
    apply executeProposal_inv in Hexec as (He & _ & r' & _ & Hq). cbn in He.
    cbn [snd]. constructor.
    + rewrite Hq, Hfa. cbn. by right.
    + intros id'. unfold status_of. rewrite Hq, Hfac. cbn.
      destruct (decide (id = id')) as [<-|Hne].
      * rewrite !rd_insert. cbn. done.
      * rewrite !rd_insert_ne by done. apply Hlink.
    + rewrite Hfac. cbn. unfold len in *. rewrite length_app. cbn. lia.
  - ok_inv H. unfold BondingCurveFactory.updatePlatformFeeRecipient in Hq.
    ok_inv Hq. by constructor.
  - ok_inv H. unfold BondingCurveFactory.updateUniswapRouter in Hq.
    ok_inv Hq. by constructor.
Qed.

Lemma operated_launches_exact w : operated w → launches_exact w.
Proof.
  induction 1 as [eQ eF qa fa fee router w Hfa Hd|e c w w' Ho IH Hz Hf Hs Ht H].
  - unfold deploy, BondingCurveFactory.constructor in Hd. ok_inv Hd.
    constructor; cbn.
    + by left.
    + intros id. unfold status_of. cbn. rewrite !rd_empty. done.
    + done.
  - eapply exec_launches_exact; eauto using operated_reachable.
Qed.

Lemma transact_operated e c w :
  operated w →
  msg_sender e ≠ 0 →
  msg_sender e ≠ factoryAddress w →
  (∀ f, c = SetBondingCurveFactory f → f = factoryAddress w) →
  (∀ id token, c = LaunchToken id token → token ≠ 0) →
  operated (transact e c w).
Proof.
  intros Ho Hz Hf Hs Ht. unfold transact.
  destruct (exec e c w) eqn:H; try done. by eapply operated_step.
Qed.

Ltac operated_tx :=
  apply transact_operated;
  [ | by vm_compute | by vm_compute
    | intros ? [=]; subst; by vm_compute
    | intros ? ? [=]; subst; by vm_compute ].

Lemma launched_operated : operated Scenario.launched.
Proof.
  unfold Scenario.launched, Scenario.linked, Scenario.passed, Scenario.two_yes,
    Scenario.proposed, Scenario.verified, run. cbn [fold_left fst snd].
  do 9 operated_tx.
  by apply (operated_deploy (Scenario.by_ Scenario.deployer 0)
              (Scenario.by_ Scenario.deployer 1) Scenario.quorumAddr
              Scenario.factoryAddr Scenario.deployer Scenario.router).
Qed.

(** X21. Operated as deployed, the two contracts agree on what was
    launched. When no transaction comes from the zero address or from the
    factory's own address, the admin registers no other factory than this
    one, and created tokens have non-zero addresses, then in every ledger a
    proposal is Executed if and only if the factory has a token recorded for
    it, the number of tokens is the number of executed proposals, and no
    account can call [executeProposal] successfully: proposals are executed
    by launches only. *)
Theorem launches_correspond w :
  operated w →
  (∀ id, status_of w id = Executed ↔
         BondingCurveFactory.getTokenByProposal id (factory w) ≠ 0) ∧
  BondingCurveFactory.getTokenCount (factory w) = len (executed (quorum w)) ∧
  (∀ e id, msg_sender e ≠ 0 → msg_sender e ≠ factoryAddress w →
           AgentQuorum.executeProposal e id (quorum w) = Revert "Only factory").
Proof.
  intros Ho. destruct (operated_launches_exact w Ho) as [Hreg Hlink Hcount].
  split; [exact Hlink|]. split; [exact Hcount|].
  intros e id Hz Hf. apply executeProposal_not_factory.
  destruct Hreg as [Hreg|Hreg]; congruence.
Qed.

Lemma launches_correspond_witness :
  operated Scenario.launched ∧
  BondingCurveFactory.getTokenCount (factory Scenario.launched)
    = len (executed (quorum Scenario.launched)).
Proof.
  split; [apply launched_operated|].
  exact (proj1 (proj2 (launches_correspond Scenario.launched launched_operated))).
Defined.
